(** * gosnapper: a shallow embedding of the partitioning and extraction core

    The Go package [gosnapper] lists a tarsnap archive, splits the files
    into size-balanced groups and runs one tarsnap client per group.  This
    file embeds the package's functions (and the few standard-library
    functions they call) as Rocq functions and proves properties of them.

    Conventions.
    - A Go [string] is a Rocq [string]: a sequence of bytes.
    - Go's [int64] and [int] are [Z]; arithmetic that can overflow is
      wrapped explicitly with [wrap64].
    - A Go [map[string]V] is a [gmap string V]; a nil map is [None].
    - Iteration over a Go map has no specified order, and [sort.Slice] is
      not stable: wherever the source iterates a map or sorts, the theorems
      quantify over every order the runtime may pick, and the executable
      definitions fix one of them. *)

From stdpp Require Import gmap strings list sorting.
From Stdlib Require Import ZArith Lia Ascii DecimalString.

Open Scope Z_scope.

(* ===================================================================== *)
(** * Go's [strings] package (the functions the source calls)             *)
(* ===================================================================== *)

Module Strings.

(** [s[n:]] for [n <= len(s)]. *)
Fixpoint drop (n : nat) (s : string) : string :=
  match n, s with
  | O, _ => s
  | S n', String _ s' => drop n' s'
  | S _, EmptyString => EmptyString
  end.

(** [s[:n]] for [n <= len(s)]. *)
Fixpoint take (n : nat) (s : string) : string :=
  match n, s with
  | O, _ => EmptyString
  | S n', String c s' => String c (take n' s')
  | S _, EmptyString => EmptyString
  end.

(** [len(s) >= len(prefix) && s[:len(prefix)] == prefix] *)
Definition HasPrefix (s prefix : string) : bool :=
  (String.length prefix <=? String.length s)%nat
  && bool_decide (take (String.length prefix) s = prefix).

(** [len(s) >= len(suffix) && s[len(s)-len(suffix):] == suffix] *)
Definition HasSuffix (s suffix : string) : bool :=
  (String.length suffix <=? String.length s)%nat
  && bool_decide (drop (String.length s - String.length suffix) s = suffix).

(** [if HasSuffix(s, suffix) { return s[:len(s)-len(suffix)] }; return s] *)
Definition TrimSuffix (s suffix : string) : string :=
  if HasSuffix s suffix
  then take (String.length s - String.length suffix) s
  else s.

(** [Contains(s, substr)] is [Index(s, substr) >= 0]: [substr] starts at
    some position of [s]. *)
Fixpoint Contains (s substr : string) : bool :=
  HasPrefix s substr
  || match s with
     | EmptyString => false
     | String _ s' => Contains s' substr
     end.

(** [Join(elems, sep)] *)
Fixpoint Join (elems : list string) (sep : string) : string :=
  match elems with
  | [] => ""
  | [e] => e
  | e :: rest => e +:+ sep +:+ Join rest sep
  end.

(** [Split(s, sep)] for a separator of one byte, the only use in the
    source ([Split(..., "/")]): the pieces between the occurrences of
    [sep]; [Split("", sep)] is [[""]]. *)
Fixpoint Split (s : string) (sep : ascii) : list string :=
  match s with
  | EmptyString => [""]
  | String c s' =>
      if decide (c = sep) then "" :: Split s' sep
      else match Split s' sep with
           | piece :: rest => String c piece :: rest
           | [] => [String c ""]
           end
  end.

(** ** [Fields]: split around runs of white space

    [Fields] splits around each run of characters for which
    [unicode.IsSpace] holds, reading [s] as UTF-8.  [spaceLen s] is the
    width in bytes of the white-space rune encoded at the front of [s],
    0 when there is none: the six ASCII ones, U+0085 and U+00A0 (two
    bytes), U+1680, U+2000..U+200A, U+2028, U+2029, U+202F, U+205F and
    U+3000 (three bytes).  A lead byte of such a rune is never a UTF-8
    continuation byte, so scanning byte by byte finds the same runes as
    decoding does. *)
Definition byte (c : ascii) : N := N_of_ascii c.

Definition spaceLen (s : string) : nat :=
  match s with
  | EmptyString => 0
  | String c1 s1 =>
      let b1 := byte c1 in
      if ((9 <=? b1) && (b1 <=? 13) || (b1 =? 32))%N then 1
      else match s1 with
           | EmptyString => 0
           | String c2 s2 =>
               let b2 := byte c2 in
               if ((b1 =? 194) && ((b2 =? 133) || (b2 =? 160)))%N then 2
               else match s2 with
                    | EmptyString => 0
                    | String c3 _ =>
                        let b3 := byte c3 in
                        if ((b1 =? 225) && (b2 =? 154) && (b3 =? 128)
                            || (b1 =? 226) && (b2 =? 128)
                               && ((128 <=? b3) && (b3 <=? 138)
                                   || (b3 =? 168) || (b3 =? 169) || (b3 =? 175))
                            || (b1 =? 226) && (b2 =? 129) && (b3 =? 159)
                            || (b1 =? 227) && (b2 =? 128) && (b3 =? 128))%N
                        then 3 else 0
                    end
           end
  end%nat.

(** The bytes of [s] with every white-space rune replaced by one [None];
    [skip] counts the bytes of the current rune still to pass. *)
Fixpoint blanks (skip : nat) (s : string) : list (option ascii) :=
  match s with
  | EmptyString => []
  | String c s' =>
      match skip with
      | S k => blanks k s'
      | O => match spaceLen s with
             | O => Some c :: blanks 0 s'
             | S k => None :: blanks k s'
             end
      end
  end.

Fixpoint tokens (l : list (option ascii)) : list string :=
  match l with
  | [] => []
  | None :: l' => tokens l'
  | Some c :: l' =>
      match l' with
      | Some _ :: _ =>
          match tokens l' with
          | tok :: rest => String c tok :: rest
          | [] => [String c ""]
          end
      | _ => String c "" :: tokens l'
      end
  end.

Definition Fields (s : string) : list string := tokens (blanks 0 s).

End Strings.

(* ===================================================================== *)
(** * Go's [strconv] and [fmt] (decimal integers)                         *)
(* ===================================================================== *)

Definition minInt64 : Z := - 2 ^ 63.
Definition maxInt64 : Z := 2 ^ 63 - 1.

(** Two's-complement wrap-around of [int64] arithmetic. *)
Definition wrap64 (z : Z) : Z := (z + 2 ^ 63) mod 2 ^ 64 - 2 ^ 63.

Module Strconv.

Definition digit (c : ascii) : option Z :=
  let b := N_of_ascii c in
  if ((48 <=? b) && (b <=? 57))%N then Some (Z.of_N b - 48) else None.

(** The value of a string of decimal digits, [None] when a byte is not a
    digit. *)
Fixpoint digits (acc : Z) (s : string) : option Z :=
  match s with
  | EmptyString => Some acc
  | String c s' =>
      match digit c with
      | Some d => digits (10 * acc + d) s'
      | None => None
      end
  end.

(** [ParseInt(s, 10, 64)]: an optional sign, then one or more decimal
    digits; a syntax error or a value outside [int64] is an error
    ([None]). *)
Definition ParseInt (s : string) : option Z :=
  let '(neg, body) :=
    match s with
    | String "-" s' => (true, s')
    | String "+" s' => (false, s')
    | _ => (false, s)
    end in
  match body with
  | EmptyString => None
  | _ =>
      match digits 0 body with
      | Some n =>
          let v := if neg then - n else n in
          if (minInt64 <=? v) && (v <=? maxInt64) then Some v else None
      | None => None
      end
  end.

(** [fmt.Sprintf("%d", z)] *)
Definition Itoa (z : Z) : string := NilZero.string_of_int (Z.to_int z).

End Strconv.

(* ===================================================================== *)
(** * Go's [time] package (the part the source uses)                      *)
(* ===================================================================== *)

Module Time.

(** A [time.Time] is an instant.  It is kept here as the civil date and
    clock reading of that instant in UTC, in normal form (month 1..12,
    day within the month, hour 0..23, ...); the location a Go value
    carries does not take part in [After] or [Equal]. *)
Record Time : Type := mkTime {
  year : Z; month : Z; day : Z;
  hour : Z; minute : Z; second : Z; nanosecond : Z
}.

Global Instance Time_eq_dec : EqDecision Time.
Proof. solve_decision. Defined.

(** The zero [Time]: January 1, year 1, 00:00:00 UTC. *)
Definition zero : Time := mkTime 1 1 1 0 0 0 0.

Definition isLeap (y : Z) : bool :=
  (y mod 4 =? 0) && (negb (y mod 100 =? 0) || (y mod 400 =? 0)).

Definition daysIn (m y : Z) : Z :=
  if m =? 2 then (if isLeap y then 29 else 28)
  else if (m =? 4) || (m =? 6) || (m =? 9) || (m =? 11) then 30
  else 31.

(** Days of the months before month [m] in a year that is not leap. *)
Definition daysBefore (m : Z) : Z :=
  nth (Z.to_nat (m - 1))
      [0; 31; 59; 90; 120; 151; 181; 212; 243; 273; 304; 334] 365.

(** Days from January 1 of year 1 to January 1 of year [y]. *)
Definition daysSinceEpoch (y : Z) : Z :=
  let p := y - 1 in 365 * p + p / 4 - p / 100 + p / 400.

(** The day number of [t], counted from January 1 of year 1. *)
Definition absDays (t : Time) : Z :=
  daysSinceEpoch (year t) + daysBefore (month t)
  + (if isLeap (year t) && (3 <=? month t) then 1 else 0)
  + (day t - 1).

(** Seconds of the instant [t] since January 1 of year 1, 00:00:00 UTC. *)
Definition absSeconds (t : Time) : Z :=
  absDays t * 86400 + hour t * 3600 + minute t * 60 + second t.

(** [t.After(u)]: the instant [t] is after [u]. *)
Definition After (t u : Time) : bool :=
  (absSeconds u <? absSeconds t)
  || (absSeconds t =? absSeconds u) && (nanosecond u <? nanosecond t).

(** [t.Equal(u)]: the same instant. *)
Definition Equal (t u : Time) : bool :=
  (absSeconds t =? absSeconds u) && (nanosecond t =? nanosecond u).

(** [norm(hi, lo, base)]: carry [lo] into [hi] so that [0 <= lo < base]. *)
Definition norm (hi lo base : Z) : Z * Z := (hi + lo / base, lo mod base).

(** Carry a day number outside its month into the months before or
    after, one month a step. *)
Fixpoint normDay (fuel : nat) (y m d : Z) : Z * Z * Z :=
  match fuel with
  | O => (y, m, d)
  | S k =>
      if d <? 1 then
        let '(y', m') := if m =? 1 then (y - 1, 12) else (y, m - 1) in
        normDay k y' m' (d + daysIn m' y')
      else if daysIn m y <? d then
        let '(y', m') := if m =? 12 then (y + 1, 1) else (y, m + 1) in
        normDay k y' m' (d - daysIn m y)
      else (y, m, d)
  end.

(** [time.Date(year, month, day, hour, min, sec, nsec, UTC)]: the values
    may be outside their usual ranges and are normalised (October 32
    becomes November 1). *)
Definition Date (y mo d h mi s ns : Z) : Time :=
  let '(y, m0) := norm y (mo - 1) 12 in
  let mo := m0 + 1 in
  let '(s, ns) := norm s ns 1000000000 in
  let '(mi, s) := norm mi s 60 in
  let '(h, mi) := norm h mi 60 in
  let '(d, h) := norm d h 24 in
  let '(y, mo, d) := normDay (S (Z.to_nat (Z.abs d))) y mo d in
  mkTime y mo d h mi s ns.

(** [t.AddDate(years, months, days)] *)
Definition AddDate (t : Time) (years months days : Z) : Time :=
  Date (year t + years) (month t + months) (day t + days)
       (hour t) (minute t) (second t) (nanosecond t).

(** ** [time.Parse]

    A layout is a sequence of chunks: reference-time elements and the
    literal text between them.  The two layouts of the source use five
    elements. *)
Inductive chunk : Type :=
| stdMonth        (** [Jan] *)
| stdDay          (** [2] *)
| stdLongYear     (** [2006] *)
| stdHour         (** [15] *)
| stdZeroMinute   (** [04] *)
| literal (prefix : string).

(** ["Jan 2 2006 15:04"] *)
Definition layoutDateTime : list chunk :=
  [stdMonth; literal " "; stdDay; literal " "; stdLongYear;
   literal " "; stdHour; literal ":"; stdZeroMinute].

(** ["Jan 2 2006"] *)
Definition layoutDate : list chunk :=
  [stdMonth; literal " "; stdDay; literal " "; stdLongYear].

Definition isDigit (c : ascii) : bool :=
  let b := N_of_ascii c in ((48 <=? b) && (b <=? 57))%N.

Definition digitVal (c : ascii) : Z := Z.of_N (N_of_ascii c) - 48.

Fixpoint cutspace (s : string) : string :=
  match s with
  | String c s' => if decide (c = " "%char) then cutspace s' else s
  | EmptyString => s
  end.

(** [skip(value, prefix)]: remove the literal [prefix] from the front of
    [value]; a run of spaces in [prefix] matches any run of spaces in
    [value], also the empty [value].  [inSpaces] says that the spaces of
    [value] have been cut already for the current run. *)
Fixpoint skip (inSpaces : bool) (value prefix : string) : option string :=
  match prefix with
  | EmptyString => Some value
  | String p prefix' =>
      if decide (p = " "%char) then
        if inSpaces then skip true value prefix'
        else match value with
             | String c _ =>
                 if decide (c = " "%char) then skip true (cutspace value) prefix'
                 else None
             | EmptyString => skip true value prefix'
             end
      else match value with
           | String c value' =>
               if decide (c = p) then skip false value' prefix' else None
           | EmptyString => None
           end
  end.

(** [getnum(s, fixed)]: one or two digits, exactly two when [fixed]. *)
Definition getnum (s : string) (fixed : bool) : option (Z * string) :=
  match s with
  | String c0 s0 =>
      if isDigit c0 then
        match s0 with
        | String c1 s1 =>
            if isDigit c1 then Some (digitVal c0 * 10 + digitVal c1, s1)
            else if fixed then None else Some (digitVal c0, s0)
        | EmptyString => if fixed then None else Some (digitVal c0, s0)
        end
      else None
  | EmptyString => None
  end.

(** [match(s1, s2)]: equal up to the case of letters, byte by byte. *)
Definition matchByte (c1 c2 : ascii) : bool :=
  if decide (c1 = c2) then true
  else
    let l1 := N.lor (N_of_ascii c1) 32 in
    let l2 := N.lor (N_of_ascii c2) 32 in
    ((l1 =? l2) && (97 <=? l1) && (l1 <=? 122))%N.

Fixpoint matchFold (s1 s2 : string) : bool :=
  match s1, s2 with
  | String c1 s1', String c2 s2' => matchByte c1 c2 && matchFold s1' s2'
  | _, _ => true
  end.

Definition shortMonthNames : list string :=
  ["Jan"; "Feb"; "Mar"; "Apr"; "May"; "Jun";
   "Jul"; "Aug"; "Sep"; "Oct"; "Nov"; "Dec"].

(** [lookup(tab, val)]: the index of the first name of [tab] that [val]
    starts with, and the rest of [val]. *)
Fixpoint lookup (tab : list string) (i : Z) (val : string) : option (Z * string) :=
  match tab with
  | [] => None
  | v :: tab' =>
      if (String.length v <=? String.length val)%nat
         && matchFold (Strings.take (String.length v) val) v
      then Some (i, Strings.drop (String.length v) val)
      else lookup tab' (i + 1) val
  end.

(** The four-digit year of [stdLongYear]. *)
Definition getYear (s : string) : option (Z * string) :=
  match s with
  | String a (String b (String c (String d rest))) =>
      if isDigit a && isDigit b && isDigit c && isDigit d
      then Some (((digitVal a * 10 + digitVal b) * 10 + digitVal c) * 10
                 + digitVal d, rest)
      else None
  | _ => None
  end.

(** The values read so far. *)
Record parsed : Type := mkParsed {
  pYear : Z; pMonth : Z; pDay : Z; pHour : Z; pMin : Z
}.

Definition parseChunk (c : chunk) (p : parsed) (value : string)
  : option (parsed * string) :=
  match c with
  | literal prefix => v ← skip false value prefix; Some (p, v)
  | stdMonth =>
      '(m, v) ← lookup shortMonthNames 0 value;
      Some (mkParsed (pYear p) (m + 1) (pDay p) (pHour p) (pMin p), v)
  | stdDay =>
      '(d, v) ← getnum value false;
      Some (mkParsed (pYear p) (pMonth p) d (pHour p) (pMin p), v)
  | stdLongYear =>
      '(y, v) ← getYear value;
      Some (mkParsed y (pMonth p) (pDay p) (pHour p) (pMin p), v)
  | stdHour =>
      '(h, v) ← getnum value false;
      if 24 <=? h then None
      else Some (mkParsed (pYear p) (pMonth p) (pDay p) h (pMin p), v)
  | stdZeroMinute =>
      '(mi, v) ← getnum value true;
      if 60 <=? mi then None
      else Some (mkParsed (pYear p) (pMonth p) (pDay p) (pHour p) mi, v)
  end.

Fixpoint parseChunks (l : list chunk) (p : parsed) (value : string)
  : option (parsed * string) :=
  match l with
  | [] => Some (p, value)
  | c :: l' => '(p', v) ← parseChunk c p value; parseChunks l' p' v
  end.

(** [time.Parse(layout, value)]: every chunk in turn, no text left over,
    the day within its month; the result is in UTC. *)
Definition Parse (l : list chunk) (value : string) : option Time :=
  '(p, rest) ← parseChunks l (mkParsed 0 (-1) (-1) 0 0) value;
  if negb (bool_decide (rest = "")) then None
  else if (pDay p <? 1) || (daysIn (pMonth p) (pYear p) <? pDay p) then None
  else Some (Date (pYear p) (pMonth p) (pDay p) (pHour p) (pMin p) 0 0).

End Time.

(* ===================================================================== *)
(** * Go's [path/filepath] package on Unix                                *)
(* ===================================================================== *)

Module Filepath.

(** [Clean] element by element: [elems] are the pieces of the path
    between its separators, [out] is the cleaned path so far, last
    element first, and [dotdot] counts the leading [..] elements of
    [out], which a later [..] cannot remove. *)
Fixpoint cleanElems (rooted : bool) (elems out : list string) (dotdot : nat)
  : list string :=
  match elems with
  | [] => rev out
  | e :: elems' =>
      if decide (e = "") then cleanElems rooted elems' out dotdot
      else if decide (e = ".") then cleanElems rooted elems' out dotdot
      else if decide (e = "..") then
        if (dotdot <? length out)%nat
        then cleanElems rooted elems' (tail out) dotdot
        else if rooted then cleanElems rooted elems' out dotdot
        else cleanElems rooted elems' (".." :: out) (S (length out))
      else cleanElems rooted elems' (e :: out) dotdot
  end.

(** [Clean(path)]: the shortest path equivalent to [path]: no empty and
    no [.] elements, no inner [..] elements, no trailing separator; the
    empty path becomes ["."]. *)
Definition Clean (path : string) : string :=
  match path with
  | EmptyString => "."
  | String c _ =>
      let rooted := bool_decide (c = "/"%char) in
      let out := cleanElems rooted (Strings.Split path "/") [] 0 in
      if rooted then "/" +:+ Strings.Join out "/"
      else match out with
           | [] => "."
           | _ => Strings.Join out "/"
           end
  end.

(** [path[:i+1]] for the last index [i] of a separator in [path], the
    empty string when there is none. *)
Fixpoint uptoLastSeparator (path : string) : string :=
  match path with
  | EmptyString => ""
  | String c path' =>
      let r := uptoLastSeparator path' in
      if decide (c = "/"%char) then String c r
      else match r with
           | EmptyString => ""
           | _ => String c r
           end
  end.

(** [Dir(path)]: all but the last element of [path], cleaned. *)
Definition Dir (path : string) : string := Clean (uptoLastSeparator path).

End Filepath.

(* ===================================================================== *)
(** * Package [gosnapper]: constants and data                             *)
(* ===================================================================== *)

Definition newline : string := String (ascii_of_N 10) "".

Definition Tarsnap : string := "tarsnap".
Definition ThreadPoolDefaultSize : Z := 10.
Definition ExitError : string :=
  "tarsnap: Error exit delayed from previous errors." +:+ newline.
Definition NotOlderError : string :=
  "File on disk is not older; skipping." +:+ newline.
Definition AlreadyExists : string := ": Already exists" +:+ newline.
Definition GlobChars : string := "*?[]{}".

(** [type FileInfo struct { Size int64; Date time.Time }] *)
Record FileInfo : Type := mkFileInfo { Size : Z; Date : Time.Time }.

Global Instance FileInfo_eq_dec : EqDecision FileInfo.
Proof. solve_decision. Defined.

(** [type Group struct { Files []string; Size int64 }] and its method. *)
Module Group.

Record t : Type := mk { Files : list string; Size : Z }.

(** [g.Files = append(g.Files, name); g.Size += size] *)
Definition Add (g : t) (name : string) (size : Z) : t :=
  mk (Files g ++ [name]) (wrap64 (Size g + size)).

Definition empty : t := mk [] 0.

End Group.

(** [type Options struct] *)
Record Options : Type := mkOptions {
  Directory : string;
  ThreadPoolSize : Z;
  TarsnapOptions : list string;
  Previous : option (gmap string FileInfo)
}.

(** [type GoSnapper struct]; the mutex guards the output stream only and
    has no field here. *)
Record GoSnapper : Type := mkGoSnapper {
  archive : string;
  options : Options;
  tpsize : Z;
  files : option (gmap string FileInfo);
  errorOccured : bool
}.

(** [NewGoSnapper(archive, options)] *)
Definition NewGoSnapper (archive : string) (options : Options) : GoSnapper :=
  let options :=
    if ThreadPoolSize options =? 0
    then mkOptions (Directory options) ThreadPoolDefaultSize
                   (TarsnapOptions options) (Previous options)
    else options in
  mkGoSnapper archive options (ThreadPoolSize options) None false.

(** ** The world outside the process *)

(** What running the tarsnap client gives: no pipe, no process, or the
    lines its output delivers to a [bufio.Scanner] (without their line
    ends) and whether [Wait] reports an error. *)
Inductive Command : Type :=
| PipeError
| StartError
| Started (lines : list string) (waitError : bool).

(** The two readings of the clock taken while one listing line is read:
    [time.Now().Year()], in local time, and the instant [time.Now()] the
    date is compared with. *)
Record Clock : Type := mkClock { currentYear : Z; now : Time.Time }.

Record World : Type := mkWorld {
  listing : Command;            (** [tarsnap -tvf archive ...] *)
  clock : nat -> Clock;         (** the clock at the i-th listing line *)
  extraction : nat -> Command   (** [tarsnap -xvf archive ...] of worker i *)
}.

(** What the program writes to standard error. *)
Inductive Event : Type :=
| ErrStdoutPipe                       (** "Error creating stdout pipe: ..." *)
| ErrStartListing                     (** "Error starting tarsnap: ..." *)
| ErrWaitListing                      (** "Error waiting for tarsnap: ..." *)
| ScanComplete (found : nat)          (** "File scanning complete: ..." *)
| CreatingWorkers (count : nat)       (** "Creating %d worker threads ..." *)
| ThreadStarted (idx count : nat)     (** "Thread %d started with ..." *)
| ErrStderrPipe                       (** "Error creating stderr pipe: ..." *)
| ErrStartWorker                      (** "Error starting tarsnap: ..." *)
| Forwarded (text : string)           (** a line of a worker's client *)
| ThreadCompleted (idx count : nat)   (** "Thread %d completed in ..." *)
| DelayedError.                       (** [ExitError] *)

Global Instance Event_eq_dec : EqDecision Event.
Proof. solve_decision. Defined.

(** A Go call returns or panics. *)
Inductive Result (A : Type) : Type :=
| Ok (a : A)
| Panic (msg : string).
Arguments Ok {A} a.
Arguments Panic {A} msg.

(* ===================================================================== *)
(** * [GetFiles]                                                          *)
(* ===================================================================== *)

(** The text handed to [time.Parse]. *)
Definition dateString (currentYear : Z) (month day yearOrTime : string) : string :=
  if Strings.Contains yearOrTime ":"
  then month +:+ " " +:+ day +:+ " " +:+ Strconv.Itoa currentYear
       +:+ " " +:+ yearOrTime
  else month +:+ " " +:+ day +:+ " " +:+ yearOrTime.

(** [time.Parse("Jan 2 2006 15:04", dateStr)], and on an error
    [time.Parse("Jan 2 2006", dateStr)]. *)
Definition parseDate (dateStr : string) : option Time.Time :=
  match Time.Parse Time.layoutDateTime dateStr with
  | Some date => Some date
  | None => Time.Parse Time.layoutDate dateStr
  end.

(** [if date.After(time.Now()) { date = date.AddDate(-1, 0, 0) }] *)
Definition futureCorrection (now : Time.Time) (date : Time.Time) : Time.Time :=
  if Time.After date now then Time.AddDate date (-1) 0 0 else date.

(** The date of a listing line before the correction. *)
Definition lineDate (currentYear : Z) (fields : list string) : option Time.Time :=
  parseDate (dateString currentYear (nth 5 fields "") (nth 6 fields "")
                        (nth 7 fields "")).

(** The body of the scanning loop: the entry a line adds to the inventory,
    [None] where the loop [continue]s. *)
Definition scanLine (c : Clock) (entry : string) : option (string * FileInfo) :=
  let fields := Strings.Fields entry in
  if (length fields <? 9)%nat then None
  else
    match Strconv.ParseInt (nth 4 fields "") with
    | None => None
    | Some size =>
        let name := Strings.Join (drop 8 fields) " " in
        match lineDate (currentYear c) fields with
        | None => None
        | Some date =>
            Some (name, mkFileInfo size (futureCorrection (now c) date))
        end
    end.

(** [for scanner.Scan() { ... rs.files[name] = FileInfo{...} }] *)
Fixpoint scanLines (clock : nat -> Clock) (i : nat) (lines : list string)
    (files : gmap string FileInfo) : gmap string FileInfo :=
  match lines with
  | [] => files
  | entry :: lines' =>
      scanLines clock (S i) lines'
        match scanLine (clock i) entry with
        | Some (name, info) => <[name := info]> files
        | None => files
        end
  end.

(** [GetFiles]: the inventory ([None] is the nil map), the receiver after
    the call and what was written to standard error. *)
Definition GetFiles (rs : GoSnapper) (w : World)
  : option (gmap string FileInfo) * GoSnapper * list Event :=
  match files rs with
  | Some m => (Some m, rs, [])
  | None =>
      match listing w with
      | PipeError => (None, rs, [ErrStdoutPipe])
      | StartError => (None, rs, [ErrStartListing])
      | Started lines waitError =>
          let m := scanLines (clock w) 0 lines ∅ in
          (Some m,
           mkGoSnapper (archive rs) (options rs) (tpsize rs) (Some m)
                       (errorOccured rs),
           (if waitError then [ErrWaitListing] else [])
           ++ [ScanComplete (size m)])
      end
  end.

(* ===================================================================== *)
(** * [EmptyDirs] and [FilesToExtract]                                    *)
(* ===================================================================== *)

(** The names the inner loop of [EmptyDirs] deletes for one directory:
    [strings.Join(components[:i+1], "/") + "/"] for every index [i] but
    the last of the components of [dir]. *)
Definition parentDirs (dir : string) : list string :=
  let components := Strings.Split (Strings.TrimSuffix dir "/") "/" in
  (fun i => Strings.Join (take (S i) components) "/" +:+ "/")
    <$> seq 0 (length components - 1).

(** The map [emptyDirs] at the end of the three loops; its values are all
    [true], so it is a set of names. *)
Definition emptyDirsSet (files dirs : list string) : gset string :=
  let all : gset string := list_to_set dirs in
  let withoutFiles :=
    foldl (fun s file => s ∖ {[ Filepath.Dir file +:+ "/" ]}) all files in
  foldl (fun s dir => foldl (fun s parentDir => s ∖ {[ parentDir ]}) s
                            (parentDirs dir))
        withoutFiles dirs.

(** [EmptyDirs(files, dirs)]; the order of the result is the order in
    which the runtime iterates the map, here the order of [elements]. *)
Definition EmptyDirs (files dirs : list string) : list string :=
  elements (emptyDirsSet files dirs).

Definition isDirName (name : string) : bool := Strings.HasSuffix name "/".

(** The entries of the inventory whose name does not end in a slash. *)
Definition nonDirectories (allFiles : gmap string FileInfo) : gmap string FileInfo :=
  filter (fun kv => isDirName kv.1 = false) allFiles.

(** The names of the inventory that end in a slash. *)
Definition directories (allFiles : gmap string FileInfo) : list string :=
  filter (fun name => isDirName name = true) (map_to_list allFiles).*1.

(** [FilesToExtract] on the inventory [GetFiles] returned. *)
Definition filesToExtractOf (allFiles : gmap string FileInfo)
  : gmap string FileInfo :=
  let filesToExtract := nonDirectories allFiles in
  let fileNames := (map_to_list filesToExtract).*1 in
  let emptyDirs := EmptyDirs fileNames (directories allFiles) in
  foldl (fun m dir => <[dir := mkFileInfo 0 Time.zero]> m)
        filesToExtract emptyDirs.

(** [FilesToExtract]; ranging over the nil map does nothing. *)
Definition FilesToExtract (rs : GoSnapper) (w : World)
  : gmap string FileInfo * GoSnapper * list Event :=
  let '(allFiles, rs', out) := GetFiles rs w in
  (filesToExtractOf (default ∅ allFiles), rs', out).

(* ===================================================================== *)
(** * [FileGroups]                                                        *)
(* ===================================================================== *)

(** [type fileEntry struct { Name string; Info FileInfo }] *)
Record fileEntry : Type := mkFileEntry { Name : string; Info : FileInfo }.

Definition toEntries (m : gmap string FileInfo) : list fileEntry :=
  (fun kv => mkFileEntry kv.1 kv.2) <$> map_to_list m.

(** [less] of the [sort.Slice] call, the other way round: [a] may stand
    before [b]. *)
Definition sizeGe (a b : fileEntry) : Prop := Size (Info b) <= Size (Info a).

Global Instance sizeGe_dec : RelDecision sizeGe.
Proof. intros a b. unfold sizeGe. apply _. Defined.

(** What the source may hold in [entries] when the distribution starts:
    the targets in some order, no entry before a larger one. *)
Definition sortedEntries (targets : gmap string FileInfo)
    (entries : list fileEntry) : Prop :=
  entries ≡ₚ toEntries targets /\ StronglySorted sizeGe entries.

(** One such order. *)
Definition sortEntries (targets : gmap string FileInfo) : list fileEntry :=
  merge_sort sizeGe (toEntries targets).

(** The weight [size] a file is added with. *)
Definition effectiveSize (previous : option (gmap string FileInfo))
    (entry : fileEntry) : Z :=
  match previous with
  | Some prev =>
      match prev !! Name entry with
      | Some prevInfo =>
          if (Size prevInfo =? Size (Info entry))
             && Time.Equal (Date prevInfo) (Date (Info entry))
          then 0 else Size (Info entry)
      | None => Size (Info entry)
      end
  | None => Size (Info entry)
  end.

(** The scan for the smallest group: [best] is the index of
    [smallestGroup] and [bestSize] its size, [i] the index of the head of
    [groups]. *)
Fixpoint smallestFrom (groups : list Group.t) (i best : nat) (bestSize : Z) : nat :=
  match groups with
  | [] => best
  | g :: groups' =>
      if Group.Size g <? bestSize
      then smallestFrom groups' (S i) i (Group.Size g)
      else smallestFrom groups' (S i) best bestSize
  end.

(** The index of [smallestGroup]; [groups[0]] panics on no groups. *)
Definition smallestGroup (groups : list Group.t) : option nat :=
  match groups with
  | [] => None
  | g0 :: _ => Some (smallestFrom groups 0 0 (Group.Size g0))
  end.

(** One round of the distribution loop. *)
Definition assign (previous : option (gmap string FileInfo))
    (entry : fileEntry) (groups : list Group.t) : Result (list Group.t) :=
  match smallestGroup groups with
  | None => Panic "index out of range [0] with length 0"
  | Some i =>
      Ok (alter (fun g => Group.Add g (Name entry) (effectiveSize previous entry))
                i groups)
  end.

Fixpoint distribute (previous : option (gmap string FileInfo))
    (entries : list fileEntry) (groups : list Group.t) : Result (list Group.t) :=
  match entries with
  | [] => Ok groups
  | entry :: entries' =>
      match assign previous entry groups with
      | Ok groups' => distribute previous entries' groups'
      | Panic msg => Panic msg
      end
  end.

(** [make([]*Group, n)] with every element set to an empty group; a
    negative length panics. *)
Definition makeGroups (n : Z) : Result (list Group.t) :=
  if n <? 0 then Panic "makeslice: len out of range"
  else Ok (replicate (Z.to_nat n) Group.empty).

(** The groups at the end of the distribution loop, for the [entries] the
    sort left. *)
Definition groupsOf (tpsize : Z) (previous : option (gmap string FileInfo))
    (entries : list fileEntry) : Result (list Group.t) :=
  match makeGroups tpsize with
  | Ok groups => distribute previous entries groups
  | Panic msg => Panic msg
  end.

(** The result slice: the file lists of the groups that have files. *)
Definition nonEmptyFiles (groups : list Group.t) : list (list string) :=
  filter (fun fs => fs <> []) (Group.Files <$> groups).

(** [FileGroups] for a given outcome [order] of the map iteration and the
    sort.  The group slice is made before the inventory is read. *)
Definition FileGroupsWith (order : gmap string FileInfo -> list fileEntry)
    (rs : GoSnapper) (w : World)
  : Result (list (list string)) * GoSnapper * list Event :=
  match makeGroups (tpsize rs) with
  | Panic msg => (Panic msg, rs, [])
  | Ok groups =>
      let '(targets, rs', out) := FilesToExtract rs w in
      match distribute (Previous (options rs)) (order targets) groups with
      | Ok groups' => (Ok (nonEmptyFiles groups'), rs', out)
      | Panic msg => (Panic msg, rs', out)
      end
  end.

Definition FileGroups := FileGroupsWith sortEntries.

(* ===================================================================== *)
(** * [Run]                                                               *)
(* ===================================================================== *)

(** What a worker does to the state it shares with the others: it writes
    to standard error or sets [rs.errorOccured]. *)
Inductive Action : Type :=
| Emit (e : Event)
| SetError.

Global Instance Action_eq_dec : EqDecision Action.
Proof. solve_decision. Defined.

(** The body of the loop over the lines of the client's standard error;
    [text] is [scanner.Text()]. *)
Definition processLine (text : string) : list Action :=
  let line := text +:+ newline in
  if Strings.HasSuffix line NotOlderError || Strings.HasSuffix line AlreadyExists
  then []
  else if bool_decide (line = ExitError) then [SetError]
  else [Emit (Forwarded (Strings.TrimSuffix line newline))].

(** The goroutine of one group.  The client's arguments (the escaped file
    names) do not show here: what the client prints is given by the world.
    A worker that cannot start its client returns at once. *)
Definition worker (idx : nat) (chunk : list string) (cmd : Command) : list Action :=
  Emit (ThreadStarted idx (length chunk))
  :: match cmd with
     | PipeError => [Emit ErrStderrPipe]
     | StartError => [Emit ErrStartWorker]
     | Started lines _ =>
         (lines ≫= processLine) ++ [Emit (ThreadCompleted idx (length chunk))]
     end.

(** The workers run at the same time: what they do in total is some
    interleaving of what each does, every worker's own actions in order. *)
Inductive Interleaving {A : Type} : list (list A) -> list A -> Prop :=
| Interleaving_done threads :
    Forall (fun t => t = []) threads -> Interleaving threads []
| Interleaving_step threads i a t sched :
    threads !! i = Some (a :: t) ->
    Interleaving (<[i := t]> threads) sched ->
    Interleaving threads (a :: sched).

(** The shared state: the flag and the error stream. *)
Definition perform (st : bool * list Event) (a : Action) : bool * list Event :=
  match a with
  | Emit e => (st.1, st.2 ++ [e])
  | SetError => (true, st.2)
  end.

Inductive Outcome : Type :=
| Returned (rs : GoSnapper) (out : list Event)
| Panicked (msg : string) (out : list Event).

(** [Run] for given outcomes of the choices the runtime makes: [order] for
    the map iteration and the sort, [schedule] for the interleaving of the
    workers. *)
Definition RunWith (order : gmap string FileInfo -> list fileEntry)
    (schedule : list (list Action) -> list Action)
    (rs : GoSnapper) (w : World) : Outcome :=
  let '(r, rs', out) := FileGroupsWith order rs w in
  match r with
  | Panic msg => Panicked msg out
  | Ok fileGroups =>
      let threads := imap (fun i chunk => worker i chunk (extraction w i)) fileGroups in
      let '(flag, out') :=
        foldl perform (errorOccured rs', out ++ [CreatingWorkers (length fileGroups)])
              (schedule threads) in
      Returned (mkGoSnapper (archive rs') (options rs') (tpsize rs') (files rs') flag)
               (out' ++ if flag then [DelayedError] else [])
  end.

(** One schedule: the workers one after the other. *)
Definition Run := RunWith sortEntries (@concat Action).

(** The choices the runtime can make. *)
Definition validOrder (order : gmap string FileInfo -> list fileEntry) : Prop :=
  forall targets, sortedEntries targets (order targets).

Definition validSchedule (schedule : list (list Action) -> list Action) : Prop :=
  forall threads, Interleaving threads (schedule threads).

(* ===================================================================== *)
(** * The arguments of the extraction client                              *)
(* ===================================================================== *)

(** [strings.ReplaceAll(s, string(old), new)] for a one-byte [old]. *)
Fixpoint ReplaceAll (s : string) (old : ascii) (new : string) : string :=
  match s with
  | EmptyString => EmptyString
  | String a s' =>
      (if bool_decide (a = old) then new else String a EmptyString)
      +:+ ReplaceAll s' old new
  end.

Definition backslash : ascii := ascii_of_N 92.

(** The loop over [GlobChars]: one [ReplaceAll] for each of its
    characters, in their order. *)
Definition escapeGlob (file : string) : string :=
  foldl (fun file c => ReplaceAll file c (String backslash (String c EmptyString)))
        file (String.list_ascii_of_string GlobChars).

(** The arguments of the client of a worker. *)
Definition extractArgs (rs : GoSnapper) (chunk : list string) : list string :=
  ["-xvf"; archive rs] ++ TarsnapOptions (options rs) ++ (escapeGlob <$> chunk).

(* ===================================================================== *)
(** * [main]                                                              *)
(* ===================================================================== *)

(** The loop of [main] that looks for the separator; [rest] is
    [args[i:]], and [i+1 < len(args)] says that [args[i]] is not the last
    argument. *)
Fixpoint optionsAfterSeparator (rest : list string) : list string :=
  match rest with
  | [] => []
  | arg :: rest' =>
      if bool_decide (arg = "--") && negb (bool_decide (rest' = []))
      then rest'
      else optionsAfterSeparator rest'
  end.

(** [tarsnapOptions] at the end of the loop, which starts at index 1. *)
Definition tarsnapOptions (args : list string) : list string :=
  optionsAfterSeparator (drop 1 args).

Inductive MainOutcome : Type :=
| MissingArchive              (** the usage message and [os.Exit(1)] *)
| Ran (outcome : Outcome).

(** [main] after [flag.Parse()]: [directory] and [jobs] are the values of
    the flags, [args] is [flag.Args()]. *)
Definition mainWith (order : gmap string FileInfo -> list fileEntry)
    (schedule : list (list Action) -> list Action)
    (directory : string) (jobs : Z) (args : list string) (w : World)
  : MainOutcome :=
  match args with
  | [] => MissingArchive
  | archive :: _ =>
      Ran (RunWith order schedule
             (NewGoSnapper archive
                (mkOptions directory jobs (tarsnapOptions args) None)) w)
  end.

(* ===================================================================== *)
(** * Properties of the partitioner                                       *)
(* ===================================================================== *)

(** The sum of a list as the source computes it, [s += x] in [int64], and
    the sum in the integers. *)
Definition sum64 (l : list Z) : Z := foldl (fun acc x => wrap64 (acc + x)) 0 l.
Definition sumZ (l : list Z) : Z := foldr Z.add 0 l.

(** The weight a target of [targets] is added with. *)
Definition weightOf (previous : option (gmap string FileInfo))
    (targets : gmap string FileInfo) (name : string) : Z :=
  match targets !! name with
  | Some info => effectiveSize previous (mkFileEntry name info)
  | None => 0
  end.

Section wrap64.

Lemma wrap64_range z : minInt64 <= wrap64 z <= maxInt64.
Proof.
  unfold wrap64, minInt64, maxInt64.
  pose proof (Z.mod_pos_bound (z + 2 ^ 63) (2 ^ 64)). lia.
Qed.

Lemma wrap64_small z : minInt64 <= z <= maxInt64 -> wrap64 z = z.
Proof.
  unfold wrap64, minInt64, maxInt64. intros Hz.
  rewrite Z.mod_small; lia.
Qed.

Lemma wrap64_add_l a x : wrap64 (wrap64 a + x) = wrap64 (a + x).
Proof.
  unfold wrap64. f_equal.
  replace ((a + 2 ^ 63) mod 2 ^ 64 - 2 ^ 63 + x + 2 ^ 63)
    with ((a + 2 ^ 63) mod 2 ^ 64 + x) by lia.
  rewrite Zplus_mod_idemp_l. f_equal. lia.
Qed.

Lemma sum64_snoc l x : sum64 (l ++ [x]) = wrap64 (sum64 l + x).
Proof. unfold sum64. by rewrite foldl_app. Qed.

Lemma sumZ_snoc l x : sumZ (l ++ [x]) = sumZ l + x.
Proof. unfold sumZ. induction l as [|y l IH]; simpl; lia. Qed.

(** The [int64] sum is the integer sum, wrapped once. *)
Lemma sum64_sumZ l : sum64 l = wrap64 (sumZ l).
Proof.
  induction l as [|x l IH] using rev_ind.
  - reflexivity.
  - by rewrite sum64_snoc, sumZ_snoc, IH, wrap64_add_l.
Qed.

Lemma sum64_exact l : minInt64 <= sumZ l <= maxInt64 -> sum64 l = sumZ l.
Proof. intros Hl. rewrite sum64_sumZ. by apply wrap64_small. Qed.

End wrap64.

Section smallest.

Implicit Types (groups : list Group.t) (g : Group.t).

(** What the scan returns: the candidate it started with when no group
    is smaller, else the first group of the smallest size. *)
Lemma smallestFrom_spec groups i best bestSize :
  (smallestFrom groups i best bestSize = best
   /\ Forall (fun g => bestSize <= Group.Size g) groups)
  \/ (exists k g,
        smallestFrom groups i best bestSize = (i + k)%nat
        /\ groups !! k = Some g
        /\ Group.Size g < bestSize
        /\ Forall (fun g' => Group.Size g <= Group.Size g') groups
        /\ forall j g', (j < k)%nat -> groups !! j = Some g' ->
                        Group.Size g < Group.Size g').
Proof.
  revert i best bestSize.
  induction groups as [|g0 groups IH]; intros i best bestSize; simpl.
  - left. by split.
  - destruct (Z.ltb_spec (Group.Size g0) bestSize) as [Hlt|Hge].
    + destruct (IH (S i) i (Group.Size g0))
        as [[-> Hall]|(k & g & -> & Hk & Hg & Hall & Hfirst)].
      * right. exists 0%nat, g0. repeat split; try done; try lia.
        constructor; [lia|done].
      * right. exists (S k), g. repeat split; try done; try lia.
        -- constructor; [lia|done].
        -- intros [|j] g' Hj Hg'; simplify_eq/=; [lia|].
           apply (Hfirst j); [lia|done].
    + destruct (IH (S i) best bestSize)
        as [[-> Hall]|(k & g & -> & Hk & Hg & Hall & Hfirst)].
      * left. split; [done|]. constructor; [lia|done].
      * right. exists (S k), g. repeat split; try done; try lia.
        -- constructor; [lia|done].
        -- intros [|j] g' Hj Hg'; simplify_eq/=; [lia|].
           apply (Hfirst j); [lia|done].
Qed.

(** The greedy choice: a group of the smallest size, and the first of
    those in the order of the slice. *)
Lemma smallestGroup_spec groups i :
  smallestGroup groups = Some i ->
  exists g,
    groups !! i = Some g
    /\ (forall j g', groups !! j = Some g' -> Group.Size g <= Group.Size g')
    /\ (forall j g', (j < i)%nat -> groups !! j = Some g' ->
                     Group.Size g < Group.Size g').
Proof.
  destruct groups as [|g0 groups]; [done|]. intros Hi.
  assert (smallestFrom (g0 :: groups) 0 0 (Group.Size g0) = i) as <-
    by (unfold smallestGroup in Hi; congruence).
  clear Hi.
  destruct (smallestFrom_spec (g0 :: groups) 0 0 (Group.Size g0))
    as [[-> Hall]|(k & g & -> & Hk & Hg & Hall & Hfirst)].
  - exists g0. split; [done|]. split.
    + intros j g' Hj. rewrite Forall_lookup in Hall. by apply (Hall j).
    + intros j g' Hj. lia.
  - exists g. split; [done|]. split.
    + intros j g' Hj. rewrite Forall_lookup in Hall. by apply (Hall j).
    + intros j g'. apply Hfirst.
Qed.

Lemma smallestGroup_is_Some groups :
  groups <> [] -> exists i, smallestGroup groups = Some i /\ (i < length groups)%nat.
Proof.
  destruct groups as [|g0 groups]; [done|]. intros _. eexists. split; [done|].
  destruct (smallestGroup_spec (g0 :: groups) _ eq_refl) as (g & Hg & _).
  by apply lookup_lt_Some in Hg.
Qed.

End smallest.

Section distribute.

Context (previous : option (gmap string FileInfo)).
Implicit Types (groups : list Group.t) (entries : list fileEntry).

(** [assigned] lists for each group the entries it was given.  The
    invariant of the distribution loop: a group's files are the names of
    its entries, in the order they came, and its size is their [int64]
    sum. *)
Definition groupOf (g : Group.t) (es : list fileEntry) : Prop :=
  Group.Files g = Name <$> es
  /\ Group.Size g = sum64 (effectiveSize previous <$> es).

Definition distributed groups (assigned : list (list fileEntry)) : Prop :=
  Forall2 groupOf groups assigned.

Lemma groupOf_Add g es e :
  groupOf g es ->
  groupOf (Group.Add g (Name e) (effectiveSize previous e)) (es ++ [e]).
Proof.
  intros [Hf Hs]. unfold Group.Add.
  split; cbn [Group.Files Group.Size].
  - by rewrite Hf, fmap_app, list_fmap_singleton.
  - by rewrite Hs, fmap_app, list_fmap_singleton, sum64_snoc.
Qed.

Lemma distributed_replicate n :
  distributed (replicate n Group.empty) (replicate n []).
Proof. induction n; constructor; try done. Qed.

Lemma concat_alter_snoc {A} (ls : list (list A)) i (x : A) :
  (i < length ls)%nat ->
  concat (alter (fun l => l ++ [x]) i ls) ≡ₚ concat ls ++ [x].
Proof.
  revert i. induction ls as [|l ls IH]; intros [|i] Hi; simpl in *; try lia.
  - rewrite <- !(assoc_L (++)). f_equiv. apply Permutation_app_comm.
  - rewrite <- (assoc_L (++)). f_equiv. apply (IH i). lia.
Qed.

Lemma assign_distributed groups assigned e :
  groups <> [] -> distributed groups assigned ->
  exists i,
    (i < length groups)%nat
    /\ smallestGroup groups = Some i
    /\ assign previous e groups
       = Ok (alter (fun g => Group.Add g (Name e) (effectiveSize previous e))
                   i groups)
    /\ distributed
         (alter (fun g => Group.Add g (Name e) (effectiveSize previous e)) i groups)
         (alter (fun es => es ++ [e]) i assigned).
Proof.
  intros Hne Hd.
  destruct (smallestGroup_is_Some groups Hne) as (i & Hi & Hlt).
  exists i. unfold assign. rewrite Hi. repeat split; [done|].
  unfold distributed in *. clear Hi Hne. revert i Hlt.
  induction Hd as [|g es groups assigned Hg Hd IH]; intros [|i] Hlt;
    simpl in *; try lia.
  - constructor; [by apply groupOf_Add|done].
  - constructor; [done|]. apply IH. lia.
Qed.

(** With at least one group the distribution does not panic, keeps the
    number of groups and hands every entry to one group. *)
Lemma distribute_distributed entries groups assigned :
  groups <> [] -> distributed groups assigned ->
  exists groups' assigned',
    distribute previous entries groups = Ok groups'
    /\ distributed groups' assigned'
    /\ length groups' = length groups
    /\ concat assigned' ≡ₚ concat assigned ++ entries.
Proof.
  revert groups assigned.
  induction entries as [|e entries IH]; intros groups assigned Hne Hd.
  - exists groups, assigned. by rewrite (right_id_L [] (++)).
  - destruct (assign_distributed groups assigned e Hne Hd)
      as (i & Hi & _ & Hassign & Hd').
    simpl. rewrite Hassign.
    match type of Hd' with distributed ?gs _ => assert (gs <> []) as Hne' end.
    { intros Heq%(f_equal length). rewrite length_alter in Heq.
      by destruct groups. }
    destruct (IH _ _ Hne' Hd')
      as (groups' & assigned' & Hdist & Hd'' & Hlen & Hperm).
    exists groups', assigned'. repeat split; try done.
    + by rewrite Hlen, length_alter.
    + rewrite Hperm, concat_alter_snoc, <- (assoc_L (++)); [done|].
      by rewrite <- (Forall2_length _ _ _ Hd).
Qed.

(** The sizes of the groups stay within [int64]. *)
Lemma distributed_range groups assigned :
  distributed groups assigned ->
  Forall (fun g => minInt64 <= Group.Size g <= maxInt64) groups.
Proof.
  induction 1 as [|g es ?? [_ Hs]]; constructor; [|done].
  rewrite Hs, sum64_sumZ. apply wrap64_range.
Qed.

Lemma groupsOf_distributed K entries :
  1 <= K ->
  exists groups assigned,
    groupsOf K previous entries = Ok groups
    /\ distributed groups assigned
    /\ length groups = Z.to_nat K
    /\ concat assigned ≡ₚ entries.
Proof.
  intros HK. unfold groupsOf, makeGroups.
  destruct (Z.ltb_spec K 0); [lia|].
  destruct (distribute_distributed entries (replicate (Z.to_nat K) Group.empty)
              (replicate (Z.to_nat K) []))
    as (groups & assigned & Hdist & Hd & Hlen & Hperm).
  - intros Heq.
    assert (Z.to_nat K = 0%nat)
      by (by rewrite <- (length_replicate (Z.to_nat K) Group.empty), Heq).
    lia.
  - apply distributed_replicate.
  - exists groups, assigned. repeat split; try done.
    + by rewrite Hlen, length_replicate.
    + rewrite Hperm. clear.
      induction (Z.to_nat K) as [|n IH]; [done|]. apply IH.
Qed.

End distribute.

Section targets.

Implicit Types (inventory targets : gmap string FileInfo).

Lemma dom_foldl_insert (v : FileInfo) (l : list string) targets :
  dom (foldl (fun m dir => <[dir := v]> m) targets l)
  = dom targets ∪ list_to_set l.
Proof.
  revert targets. induction l as [|d l IH]; intros targets; simpl.
  - by rewrite (right_id_L ∅ (∪)).
  - by rewrite IH, dom_insert_L, (comm_L (∪) {[d]}), (assoc_L (∪)).
Qed.

(** The extraction targets are the entries that are not directories and
    the directories [EmptyDirs] returns. *)
Lemma filesToExtractOf_dom inventory :
  dom (filesToExtractOf inventory)
  = dom (nonDirectories inventory)
    ∪ list_to_set (EmptyDirs (map_to_list (nonDirectories inventory)).*1
                             (directories inventory)).
Proof. unfold filesToExtractOf. apply dom_foldl_insert. Qed.

Lemma toEntries_names targets : Name <$> toEntries targets = (map_to_list targets).*1.
Proof.
  unfold toEntries. rewrite <- list_fmap_compose. by apply list_fmap_ext.
Qed.

Lemma toEntries_lookup targets e :
  e ∈ toEntries targets -> targets !! Name e = Some (Info e).
Proof.
  unfold toEntries. intros ([name info] & -> & Hin)%list_elem_of_fmap.
  by apply elem_of_map_to_list in Hin.
Qed.

Lemma weightOf_entry previous targets e :
  e ∈ toEntries targets ->
  weightOf previous targets (Name e) = effectiveSize previous e.
Proof.
  intros He. unfold weightOf. rewrite (toEntries_lookup _ _ He). by destruct e.
Qed.

Lemma concat_nonEmptyFiles groups :
  concat (nonEmptyFiles groups) = concat (Group.Files <$> groups).
Proof.
  unfold nonEmptyFiles. induction (Group.Files <$> groups) as [|fs l IH]; [done|].
  destruct fs as [|f fs].
  - by rewrite filter_cons_False by naive_solver.
  - rewrite filter_cons_True by done. simpl. by rewrite IH.
Qed.

Lemma distributed_files previous groups assigned :
  distributed previous groups assigned ->
  concat (Group.Files <$> groups) = Name <$> concat assigned.
Proof.
  induction 1 as [|g es ?? [Hf _] _ IH]; [done|].
  csimpl. by rewrite fmap_app, Hf, IH.
Qed.

End targets.

(** [FileGroups] returns the file lists of the groups the distribution
    ends with. *)
Lemma FileGroupsWith_groupsOf
    (order : gmap string FileInfo -> list fileEntry) (rs : GoSnapper) (w : World)
    (groups : list Group.t) :
  groupsOf (tpsize rs) (Previous (options rs)) (order (FilesToExtract rs w).1.1)
  = Ok groups ->
  FileGroupsWith order rs w
  = (Ok (nonEmptyFiles groups), (FilesToExtract rs w).1.2, (FilesToExtract rs w).2).
Proof.
  unfold FileGroupsWith, groupsOf. intros Hgroups.
  destruct (makeGroups (tpsize rs)) as [groups0|]; [|done].
  destruct (FilesToExtract rs w) as [[targets rs'] out]. simpl in *.
  by rewrite Hgroups.
Qed.

(** C1, amended.  For every receiver and world (so for every inventory,
    cached or read from the listing) and every worker count of at least 1,
    whatever
    order the map iteration and the sort leave the targets in: the targets
    are the entries that are not directories together with the directories
    [EmptyDirs] returns; [FileGroups] returns the files of the groups that
    are not empty; the returned groups together hold every target exactly
    once (their concatenation is a permutation of the target names and has
    no duplicates); the size of every group is the [int64] sum of the
    weights its files were added with, which is their sum in the integers
    whenever that fits [int64]; and at most [tpsize] groups are returned,
    none of them empty. *)
Theorem FileGroups_partition
    (order : gmap string FileInfo -> list fileEntry) (rs : GoSnapper) (w : World) :
  1 <= tpsize rs ->
  (forall targets, order targets ≡ₚ toEntries targets) ->
  let inventory := default ∅ (GetFiles rs w).1.1 in
  let targets := (FilesToExtract rs w).1.1 in
  let previous := Previous (options rs) in
  dom targets
  = dom (nonDirectories inventory)
    ∪ list_to_set (EmptyDirs (map_to_list (nonDirectories inventory)).*1
                             (directories inventory))
  /\ exists groups,
      groupsOf (tpsize rs) previous (order targets) = Ok groups
      /\ (FileGroupsWith order rs w).1.1 = Ok (nonEmptyFiles groups)
      /\ concat (nonEmptyFiles groups) ≡ₚ (map_to_list targets).*1
      /\ NoDup (concat (nonEmptyFiles groups))
      /\ Forall (fun g =>
                   let weights := weightOf previous targets <$> Group.Files g in
                   Group.Size g = sum64 weights
                   /\ (minInt64 <= sumZ weights <= maxInt64 ->
                       Group.Size g = sumZ weights))
                groups
      /\ Forall (fun fs => fs <> []) (nonEmptyFiles groups)
      /\ Z.of_nat (length (nonEmptyFiles groups)) <= tpsize rs.
Proof.
  intros HK Horder inventory targets previous.
  assert (Htargets : targets = filesToExtractOf inventory).
  { unfold targets, inventory, FilesToExtract.
    by destruct (GetFiles rs w) as [[allFiles rs'] out]. }
  split; [rewrite Htargets; apply filesToExtractOf_dom|].
  destruct (groupsOf_distributed previous (tpsize rs) (order targets) HK)
    as (groups & assigned & Hgroups & Hd & Hlen & Hperm).
  assert (Hnames : concat (nonEmptyFiles groups) ≡ₚ (map_to_list targets).*1).
  { rewrite concat_nonEmptyFiles, (distributed_files _ _ _ Hd), Hperm, Horder.
    by rewrite toEntries_names. }
  exists groups. repeat split.
  - done.
  - by rewrite (FileGroupsWith_groupsOf order rs w groups Hgroups).
  - done.
  - rewrite Hnames. apply NoDup_fst_map_to_list.
  - assert (Hin : Forall (fun es => Forall (fun e => e ∈ toEntries targets) es) assigned).
    { apply Forall_forall. intros es Hes. apply Forall_forall. intros e He.
      rewrite <- Horder, <- Hperm. apply list_elem_of_In, in_concat.
      exists es. split; by apply list_elem_of_In. }
    clear -Hd Hin. induction Hd as [|g es groups assigned [Hf Hs] Hd IH]; [done|].
    apply Forall_cons in Hin as [Hes Hin]. constructor; [|by apply IH].
    assert (Hw : weightOf previous targets <$> Group.Files g
                 = effectiveSize previous <$> es).
    { rewrite Hf, <- list_fmap_compose. apply Forall_fmap_ext_1.
      eapply Forall_impl; [exact Hes|]. intros e He. by apply weightOf_entry. }
    simpl. rewrite Hw. split; [done|]. intros Hfit. by rewrite Hs, sum64_exact.
  - unfold nonEmptyFiles. apply Forall_forall. intros fs Hfs.
    by apply list_elem_of_filter in Hfs as [? _].
  - unfold nonEmptyFiles. pose proof (length_filter (fun fs : list string => fs <> [])
      (Group.Files <$> groups)) as Hle.
    rewrite length_fmap, Hlen in Hle. lia.
Qed.

Section orders.

Global Instance sizeGe_total : Total sizeGe.
Proof. intros a b. unfold sizeGe. lia. Qed.

Global Instance sizeGe_trans : Transitive sizeGe.
Proof. intros a b c. unfold sizeGe. lia. Qed.

(** The order the executable model sorts the targets into is one the
    source may produce. *)
Lemma sortEntries_sorted targets : sortedEntries targets (sortEntries targets).
Proof.
  split.
  - apply merge_sort_Permutation.
  - apply StronglySorted_merge_sort; apply _.
Qed.

Lemma sortEntries_valid : validOrder sortEntries.
Proof. intros targets. apply sortEntries_sorted. Qed.

End orders.

Section greedy.

Context (previous : option (gmap string FileInfo)).

(** One round of the loop: the entry goes to a group of the smallest
    size, the first of them, and to no other. *)
Lemma assign_spec entry groups groups' :
  assign previous entry groups = Ok groups' ->
  exists i g,
    groups !! i = Some g
    /\ (forall j g', groups !! j = Some g' -> Group.Size g <= Group.Size g')
    /\ (forall j g', (j < i)%nat -> groups !! j = Some g' ->
                     Group.Size g < Group.Size g')
    /\ groups' = <[i := Group.Add g (Name entry) (effectiveSize previous entry)]> groups.
Proof.
  unfold assign. destruct (smallestGroup groups) as [i|] eqn:Hi; [|done].
  intros [= <-]. destruct (smallestGroup_spec _ _ Hi) as (g & Hg & Hmin & Hfirst).
  exists i, g. repeat split; try done.
  apply list_eq. intros j. destruct (decide (i = j)) as [<-|Hne].
  - rewrite list_lookup_alter, Hg, decide_True by done.
    by rewrite list_lookup_insert_eq by (by eapply lookup_lt_Some).
  - by rewrite list_lookup_alter_ne, list_lookup_insert_ne.
Qed.

Lemma groupsOf_reachable K done groups :
  1 <= K -> groupsOf K previous done = Ok groups ->
  groups <> [] /\ Forall (fun g => minInt64 <= Group.Size g <= maxInt64) groups.
Proof.
  intros HK Hgroups.
  destruct (groupsOf_distributed previous K done HK)
    as (groups0 & assigned & Hgroups0 & Hd & Hlen & _).
  assert (groups0 = groups) as -> by congruence. split.
  - intros ->. simpl in Hlen. lia.
  - by eapply distributed_range.
Qed.

End greedy.

(** C10.  [NewGoSnapper] replaces the pool size by the default 10 exactly
    when it is 0.  A negative size is kept, and then [FileGroups] panics
    when it makes the group slice, before anything is read or written, and
    so does [Run]; with a size of 0 or more given to [NewGoSnapper],
    [FileGroups] returns. *)
Theorem NewGoSnapper_pool_size
    (archive : string) (opts : Options)
    (order : gmap string FileInfo -> list fileEntry)
    (schedule : list (list Action) -> list Action) (w : World) :
  let rs := NewGoSnapper archive opts in
  tpsize rs
  = (if ThreadPoolSize opts =? 0 then ThreadPoolDefaultSize else ThreadPoolSize opts)
  /\ (ThreadPoolSize opts < 0 ->
      tpsize rs = ThreadPoolSize opts
      /\ FileGroupsWith order rs w = (Panic "makeslice: len out of range", rs, [])
      /\ RunWith order schedule rs w = Panicked "makeslice: len out of range" [])
  /\ (0 <= ThreadPoolSize opts ->
      exists fileGroups, (FileGroupsWith order rs w).1.1 = Ok fileGroups).
Proof.
  intros rs.
  assert (Htp : tpsize rs
                = if ThreadPoolSize opts =? 0 then ThreadPoolDefaultSize
                  else ThreadPoolSize opts).
  { unfold rs, NewGoSnapper. by destruct (ThreadPoolSize opts =? 0). }
  split; [done|]. split.
  - intros Hneg.
    assert (Hkeep : tpsize rs = ThreadPoolSize opts).
    { rewrite Htp. destruct (Z.eqb_spec (ThreadPoolSize opts) 0); [lia|done]. }
    assert (Hfg : FileGroupsWith order rs w
                  = (Panic "makeslice: len out of range", rs, [])).
    { unfold FileGroupsWith, makeGroups. rewrite Hkeep.
      destruct (Z.ltb_spec (ThreadPoolSize opts) 0); [done|lia]. }
    repeat split; try done. unfold RunWith. by rewrite Hfg.
  - intros Hpos.
    assert (HK : 1 <= tpsize rs).
    { rewrite Htp. unfold ThreadPoolDefaultSize.
      destruct (Z.eqb_spec (ThreadPoolSize opts) 0); lia. }
    destruct (groupsOf_distributed (Previous (options rs)) (tpsize rs)
                (order (FilesToExtract rs w).1.1) HK)
      as (groups & _ & Hgroups & _).
    exists (nonEmptyFiles groups).
    by rewrite (FileGroupsWith_groupsOf order rs w groups Hgroups).
Qed.

(** Two times are the same instant. *)
Definition sameInstant (t u : Time.Time) : Prop :=
  Time.absSeconds t = Time.absSeconds u /\ Time.nanosecond t = Time.nanosecond u.

Lemma Equal_sameInstant t u : Time.Equal t u = true <-> sameInstant t u.
Proof. unfold Time.Equal, sameInstant. rewrite andb_true_iff, !Z.eqb_eq. done. Qed.

(** The entry is in the previous snapshot under its name, with the same
    size and the same time. *)
Definition unchanged (previous : option (gmap string FileInfo))
    (entry : fileEntry) : Prop :=
  exists prev prevInfo,
    previous = Some prev
    /\ prev !! Name entry = Some prevInfo
    /\ Size prevInfo = Size (Info entry)
    /\ sameInstant (Date prevInfo) (Date (Info entry)).

(** C4.  The weight of a target is its size, but 0 when a previous
    snapshot is given and has an entry of the same name with the same size
    and the same instant as time.  A target of weight 0 joins the first
    group of the smallest size at that point of the loop ([done] are the
    targets handled before it), and the size of that group, as of every
    other group, stays what it was. *)
Theorem effectiveSize_discount
    (previous : option (gmap string FileInfo)) (entry : fileEntry)
    (K : Z) (done : list fileEntry) (groups : list Group.t) :
  (unchanged previous entry -> effectiveSize previous entry = 0)
  /\ (~ unchanged previous entry -> effectiveSize previous entry = Size (Info entry))
  /\ (1 <= K ->
      groupsOf K previous done = Ok groups ->
      effectiveSize previous entry = 0 ->
      exists i g,
        groups !! i = Some g
        /\ (forall j g', groups !! j = Some g' -> Group.Size g <= Group.Size g')
        /\ (forall j g', (j < i)%nat -> groups !! j = Some g' ->
                         Group.Size g < Group.Size g')
        /\ assign previous entry groups
           = Ok (<[i := Group.mk (Group.Files g ++ [Name entry]) (Group.Size g)]> groups)
        /\ Group.Size <$> <[i := Group.mk (Group.Files g ++ [Name entry]) (Group.Size g)]> groups
           = Group.Size <$> groups).
Proof.
  split; [|split].
  - intros (prev & prevInfo & -> & Hname & Hsize & Htime).
    unfold effectiveSize. rewrite Hname.
    apply Z.eqb_eq in Hsize. apply Equal_sameInstant in Htime.
    by rewrite Hsize, Htime.
  - intros Hnot. unfold effectiveSize.
    destruct previous as [prev|]; [|done].
    destruct (prev !! Name entry) as [prevInfo|] eqn:Hname; [|done].
    destruct (Size prevInfo =? Size (Info entry)) eqn:Hsize; [|done].
    destruct (Time.Equal (Date prevInfo) (Date (Info entry))) eqn:Htime; [|done].
    exfalso. apply Hnot. exists prev, prevInfo. repeat split; try done.
    + by apply Z.eqb_eq.
    + by apply Equal_sameInstant.
    + by apply Equal_sameInstant.
  - intros HK Hgroups Hzero.
    destruct (groupsOf_reachable previous K done groups HK Hgroups) as [Hne Hrange].
    destruct (smallestGroup_is_Some groups Hne) as (i & Hi & Hlt).
    assert (Hassign : assign previous entry groups
                      = Ok (alter (fun g => Group.Add g (Name entry)
                                              (effectiveSize previous entry)) i groups))
      by (unfold assign; by rewrite Hi).
    destruct (assign_spec previous entry groups _ Hassign)
      as (i' & g & Hg & Hmin & Hfirst & Heq).
    assert (Hadd : Group.Add g (Name entry) (effectiveSize previous entry)
                   = Group.mk (Group.Files g ++ [Name entry]) (Group.Size g)).
    { unfold Group.Add. f_equal. rewrite Hzero, Z.add_0_r.
      apply wrap64_small. rewrite Forall_lookup in Hrange. by apply (Hrange i'). }
    exists i', g. repeat split; try done.
    + by rewrite Hassign, Heq, Hadd.
    + rewrite list_fmap_insert. simpl. apply list_insert_id.
      by rewrite list_lookup_fmap, Hg.
Qed.

Section example.

(** A sorted arrangement of one entry of size 100 and three of size 10
    starts with the large one. *)
Lemma sorted_100_10_10_10 (e0 e1 e2 e3 : fileEntry) entries :
  Size (Info e0) = 100 -> Size (Info e1) = 10 ->
  Size (Info e2) = 10 -> Size (Info e3) = 10 ->
  entries ≡ₚ [e0; e1; e2; e3] ->
  StronglySorted sizeGe entries ->
  exists a b c,
    entries = [e0; a; b; c] /\ [a; b; c] ≡ₚ [e1; e2; e3]
    /\ Size (Info a) = 10 /\ Size (Info b) = 10 /\ Size (Info c) = 10.
Proof.
  intros H0 H1 H2 H3 Hperm Hsorted.
  assert (Hsmall : forall e, e ∈ [e1; e2; e3] -> Size (Info e) = 10).
  { intros e He.
    repeat (apply elem_of_cons in He as [He|He]; [by subst|]).
    by apply elem_of_nil in He. }
  destruct entries as [|h rest].
  { by apply Permutation_nil_l in Hperm. }
  apply StronglySorted_inv in Hsorted as [_ Hhead].
  assert (Hh : h ∈ [e0; e1; e2; e3]) by (rewrite <- Hperm; left).
  assert (He0 : e0 ∈ h :: rest) by (rewrite Hperm; left).
  assert (h = e0) as ->.
  { apply elem_of_cons in Hh as [->|Hh]; [done|].
    apply elem_of_cons in He0 as [->|He0]; [done|].
    rewrite Forall_forall in Hhead. specialize (Hhead _ He0).
    unfold sizeGe in Hhead. specialize (Hsmall _ Hh). lia. }
  apply Permutation_cons_inv in Hperm.
  pose proof (Permutation_length Hperm) as Hlen.
  destruct rest as [|a [|b [|c [|? ?]]]]; try done.
  exists a, b, c. split; [done|]. split; [done|].
  repeat split; apply Hsmall; rewrite <- Hperm;
    repeat first [by left | right].
Qed.

End example.

(** The distribution of a sorted arrangement of four entries of sizes
    100, 10, 10 and 10 over two groups, with no previous snapshot. *)
Lemma groupsOf_100_10_10_10
    (n0 n1 n2 n3 : string) (d0 d1 d2 d3 : Time.Time) (entries : list fileEntry) :
  entries ≡ₚ [mkFileEntry n0 (mkFileInfo 100 d0); mkFileEntry n1 (mkFileInfo 10 d1);
              mkFileEntry n2 (mkFileInfo 10 d2); mkFileEntry n3 (mkFileInfo 10 d3)] ->
  StronglySorted sizeGe entries ->
  exists small,
    small ≡ₚ [n1; n2; n3]
    /\ groupsOf 2 None entries = Ok [Group.mk [n0] 100; Group.mk small 30]
    /\ nonEmptyFiles [Group.mk [n0] 100; Group.mk small 30] = [[n0]; small].
Proof.
  intros Hperm Hsorted.
  destruct (sorted_100_10_10_10
              (mkFileEntry n0 (mkFileInfo 100 d0)) (mkFileEntry n1 (mkFileInfo 10 d1))
              (mkFileEntry n2 (mkFileInfo 10 d2)) (mkFileEntry n3 (mkFileInfo 10 d3))
              entries eq_refl eq_refl eq_refl eq_refl Hperm Hsorted)
    as (a & b & c & -> & Hrest & Ha & Hb & Hc).
  exists [Name a; Name b; Name c]. split; [|split].
  - change [n1; n2; n3]
      with (Name <$> [mkFileEntry n1 (mkFileInfo 10 d1);
                      mkFileEntry n2 (mkFileInfo 10 d2);
                      mkFileEntry n3 (mkFileInfo 10 d3)]).
    by rewrite <- Hrest.
  - destruct a as [na [sa da]], b as [nb [sb db]], c as [nc [sc dc]].
    simpl in Ha, Hb, Hc. subst sa sb sc. reflexivity.
  - reflexivity.
Qed.

(* ===================================================================== *)
(** * Facts about the string functions                                    *)
(* ===================================================================== *)

Section strings.

Implicit Types (s t p suffix : string).

Lemma app_cons c s t : String c s +:+ t = String c (s +:+ t).
Proof. reflexivity. Qed.

Lemma app_empty_l s : "" +:+ s = s.
Proof. reflexivity. Qed.

Lemma length_app s t :
  String.length (s +:+ t) = (String.length s + String.length t)%nat.
Proof.
  induction s as [|c s IH]; [done|].
  rewrite app_cons. simpl. by rewrite IH.
Qed.

Lemma app_assoc s t p : (s +:+ t) +:+ p = s +:+ t +:+ p.
Proof.
  induction s as [|c s IH]; [done|]. by rewrite !app_cons, IH.
Qed.

Lemma app_empty_r s : s +:+ "" = s.
Proof. induction s as [|c s IH]; [done|]. by rewrite app_cons, IH. Qed.

Lemma take_drop n s : Strings.take n s +:+ Strings.drop n s = s.
Proof.
  revert s. induction n as [|n IH]; intros [|c s]; simpl; try done.
  by rewrite app_cons, IH.
Qed.

Lemma take_app_length p s : Strings.take (String.length p) (p +:+ s) = p.
Proof.
  induction p as [|c p IH]; [by destruct s|].
  rewrite app_cons. simpl. by rewrite IH.
Qed.

Lemma drop_app_length p s : Strings.drop (String.length p) (p +:+ s) = s.
Proof.
  induction p as [|c p IH]; [done|]. rewrite app_cons. simpl. by rewrite IH.
Qed.

Lemma length_drop n s :
  String.length (Strings.drop n s) = (String.length s - n)%nat.
Proof. revert s. induction n as [|n IH]; intros [|c s]; simpl; try done; lia. Qed.

Lemma app_inj_r s t p : s +:+ p = t +:+ p -> s = t.
Proof.
  intros Heq.
  assert (Hlen : String.length s = String.length t).
  { apply (f_equal String.length) in Heq. rewrite !length_app in Heq. lia. }
  rewrite <- (take_app_length s p), Heq, Hlen. apply take_app_length.
Qed.

(** [s] ends with [suffix]. *)
Definition EndsWith s suffix : Prop := exists p, s = p +:+ suffix.

Lemma HasSuffix_true s suffix : Strings.HasSuffix s suffix = true <-> EndsWith s suffix.
Proof.
  unfold Strings.HasSuffix, EndsWith.
  rewrite andb_true_iff, Nat.leb_le, bool_decide_eq_true. split.
  - intros [_ Hdrop].
    exists (Strings.take (String.length s - String.length suffix) s).
    etrans; [symmetry; apply (take_drop (String.length s - String.length suffix))|].
    by f_equal.
  - intros [p ->]. rewrite length_app. split; [lia|].
    replace (String.length p + String.length suffix - String.length suffix)%nat
      with (String.length p) by lia.
    apply drop_app_length.
Qed.

Lemma HasSuffix_false s suffix : Strings.HasSuffix s suffix = false <-> ~ EndsWith s suffix.
Proof. rewrite <- HasSuffix_true. by destruct (Strings.HasSuffix s suffix). Qed.

Lemma TrimSuffix_app s suffix : Strings.TrimSuffix (s +:+ suffix) suffix = s.
Proof.
  unfold Strings.TrimSuffix.
  rewrite (proj2 (HasSuffix_true _ _)) by (by exists s).
  rewrite length_app.
  replace (String.length s + String.length suffix - String.length suffix)%nat
    with (String.length s) by lia.
  apply take_app_length.
Qed.

Lemma EndsWith_app_r s t p : EndsWith (s +:+ p) (t +:+ p) <-> EndsWith s t.
Proof.
  unfold EndsWith. split; intros [q Hq]; exists q.
  - rewrite <- app_assoc in Hq. by apply app_inj_r in Hq.
  - by rewrite Hq, app_assoc.
Qed.

End strings.

(* ===================================================================== *)
(** * Properties of [Run]                                                 *)
(* ===================================================================== *)

(** The three messages of the client without their line end. *)
Definition exitErrorText : string :=
  "tarsnap: Error exit delayed from previous errors.".
Definition notOlderText : string := "File on disk is not older; skipping.".
Definition alreadyExistsText : string := ": Already exists".

(** A line the loop neither drops nor takes for the delayed error. *)
Definition otherLine (text : string) : Prop :=
  ~ EndsWith text notOlderText /\ ~ EndsWith text alreadyExistsText
  /\ text <> exitErrorText.

Section lines.

Lemma processLine_dropped text :
  EndsWith text notOlderText \/ EndsWith text alreadyExistsText ->
  processLine text = [].
Proof.
  intros Hends. unfold processLine.
  assert (Strings.HasSuffix (text +:+ newline) NotOlderError
          || Strings.HasSuffix (text +:+ newline) AlreadyExists = true) as ->; [|done].
  apply orb_true_iff.
  destruct Hends as [H|H]; [left|right];
    apply HasSuffix_true; by apply EndsWith_app_r.
Qed.

Lemma processLine_exitError : processLine exitErrorText = [SetError].
Proof. reflexivity. Qed.

Lemma processLine_other text :
  otherLine text -> processLine text = [Emit (Forwarded text)].
Proof.
  intros (Hold & Hexists & Hexit). unfold processLine.
  assert (Strings.HasSuffix (text +:+ newline) NotOlderError = false) as ->.
  { apply HasSuffix_false. intros H. by apply EndsWith_app_r in H. }
  assert (Strings.HasSuffix (text +:+ newline) AlreadyExists = false) as ->.
  { apply HasSuffix_false. intros H. by apply EndsWith_app_r in H. }
  simpl. rewrite bool_decide_eq_false_2.
  - by rewrite TrimSuffix_app.
  - intros H. by apply (app_inj_r text exitErrorText newline) in H.
Qed.

(** The three cases exclude one another and leave no fourth. *)
Lemma line_cases text :
  (EndsWith text notOlderText \/ EndsWith text alreadyExistsText)
  \/ text = exitErrorText \/ otherLine text.
Proof.
  unfold otherLine.
  destruct (Strings.HasSuffix text notOlderText) eqn:H1.
  { left. left. by apply HasSuffix_true. }
  destruct (Strings.HasSuffix text alreadyExistsText) eqn:H2.
  { left. right. by apply HasSuffix_true. }
  destruct (decide (text = exitErrorText)) as [->|H3]; [by right; left|].
  right. right. repeat split; [by apply HasSuffix_false..|done].
Qed.

Lemma processLine_SetError text :
  SetError ∈ processLine text <-> text = exitErrorText.
Proof.
  split.
  - destruct (line_cases text) as [H|[H|H]]; [|done|].
    + rewrite (processLine_dropped _ H). by intros ?%elem_of_nil.
    + rewrite (processLine_other _ H). by intros [=]%list_elem_of_singleton.
  - intros ->. rewrite processLine_exitError. by left.
Qed.

Lemma processLine_Emit text e :
  Emit e ∈ processLine text <-> e = Forwarded text /\ otherLine text.
Proof.
  split.
  - destruct (line_cases text) as [H|[->|H]].
    + rewrite (processLine_dropped _ H). by intros ?%elem_of_nil.
    + rewrite processLine_exitError. by intros [=]%list_elem_of_singleton.
    + rewrite (processLine_other _ H). by intros [= ->]%list_elem_of_singleton.
  - intros [-> H]. rewrite (processLine_other _ H). by left.
Qed.

End lines.

Section schedules.

(** Taking one action out of a thread takes it out of the whole. *)
Lemma concat_lookup_cons {A} (threads : list (list A)) i a t :
  threads !! i = Some (a :: t) ->
  concat threads ≡ₚ a :: concat (<[i := t]> threads).
Proof.
  revert i. induction threads as [|t0 threads IH]; intros [|i] Hi;
    simplify_eq/=; [done|].
  rewrite (IH i Hi). symmetry. apply Permutation_middle.
Qed.

(** An interleaving holds the actions of the threads, each once. *)
Lemma Interleaving_Permutation {A} (threads : list (list A)) sched :
  Interleaving threads sched -> sched ≡ₚ concat threads.
Proof.
  induction 1 as [threads Hnil|threads i a t sched Hi _ IH].
  - induction Hnil as [|? ? -> _ IH]; [done|]. apply IH.
  - by rewrite (concat_lookup_cons _ _ _ _ Hi), IH.
Qed.

(** One thread after the other is an interleaving. *)
Lemma Interleaving_concat {A} (threads : list (list A)) :
  Interleaving threads (concat threads).
Proof.
  assert (Hgen : forall done todo : list (list A),
             Forall (fun t => t = []) done ->
             Interleaving (done ++ todo) (concat todo)).
  { intros done todo Hdone. revert done Hdone.
    induction todo as [|t todo IH]; intros done Hdone.
    - rewrite (right_id_L [] (++)). by constructor.
    - simpl. induction t as [|a t IHt].
      + simpl. rewrite (cons_middle [] done todo), (assoc_L (++)).
        apply IH. apply Forall_app. split; [done|by constructor].
      + simpl. apply (Interleaving_step _ (length done) a t).
        * by rewrite list_lookup_middle.
        * replace (length done) with (length done + 0)%nat by lia.
          rewrite insert_app_r. apply IHt. }
  apply (Hgen [] threads). constructor.
Qed.

Lemma concat_valid : validSchedule (@concat Action).
Proof. intros threads. apply Interleaving_concat. Qed.

(** The events of a list of actions, in order. *)
Definition emitted (acts : list Action) : list Event :=
  omap (fun a => match a with Emit e => Some e | SetError => None end) acts.

Lemma foldl_perform acts flag out :
  foldl perform (flag, out) acts
  = (flag || bool_decide (SetError ∈ acts), out ++ emitted acts).
Proof.
  revert flag out. induction acts as [|a acts IH]; intros flag out.
  - simpl. by rewrite orb_false_r, (right_id_L [] (++)).
  - destruct a as [e|]; simpl; rewrite IH.
    + f_equal.
      * f_equal. apply bool_decide_ext. split; [by right|].
        by intros [[=]|?]%elem_of_cons.
      * by rewrite <- (assoc_L (++)).
    + f_equal. by rewrite orb_true_r.
Qed.

Lemma elem_of_emitted e acts : e ∈ emitted acts <-> Emit e ∈ acts.
Proof.
  unfold emitted. rewrite list_elem_of_omap. split.
  - intros ([e'|] & Hin & [= ->]). done.
  - intros Hin. by exists (Emit e).
Qed.

(** What the workers of the groups do, as a set of actions. *)
Lemma elem_of_workers (w : World) (fileGroups : list (list string)) (a : Action) :
  a ∈ concat (imap (fun i chunk => worker i chunk (extraction w i)) fileGroups)
  <-> exists idx chunk,
        fileGroups !! idx = Some chunk /\ a ∈ worker idx chunk (extraction w idx).
Proof.
  rewrite list_elem_of_In, in_concat. split.
  - intros (t & Ht & Ha). apply list_elem_of_In in Ht, Ha.
    apply list_elem_of_lookup in Ht as [idx Ht].
    rewrite list_lookup_imap in Ht.
    destruct (fileGroups !! idx) as [chunk|] eqn:Hidx; simplify_eq/=.
    by exists idx, chunk.
  - intros (idx & chunk & Hidx & Ha).
    exists (worker idx chunk (extraction w idx)). split; apply list_elem_of_In; [|done].
    apply list_elem_of_lookup. exists idx. by rewrite list_lookup_imap, Hidx.
Qed.

Lemma worker_SetError idx chunk cmd :
  SetError ∈ worker idx chunk cmd
  <-> exists lines waitError, cmd = Started lines waitError /\ exitErrorText ∈ lines.
Proof.
  unfold worker. rewrite elem_of_cons. split.
  - intros [[=]|Hin]. destruct cmd as [| |lines waitError].
    + by apply list_elem_of_singleton in Hin.
    + by apply list_elem_of_singleton in Hin.
    + apply elem_of_app in Hin as [Hin|Hin].
      * apply list_elem_of_bind in Hin as (text & Hin & Htext).
        apply processLine_SetError in Hin as ->. by exists lines, waitError.
      * by apply list_elem_of_singleton in Hin.
  - intros (lines & waitError & -> & Hin). right. apply elem_of_app. left.
    apply list_elem_of_bind. exists exitErrorText. split; [|done].
    by apply processLine_SetError.
Qed.

Lemma worker_Forwarded idx chunk cmd text :
  Emit (Forwarded text) ∈ worker idx chunk cmd
  <-> exists lines waitError,
        cmd = Started lines waitError /\ text ∈ lines /\ otherLine text.
Proof.
  unfold worker. rewrite elem_of_cons. split.
  - intros [[=]|Hin]. destruct cmd as [| |lines waitError].
    + by apply list_elem_of_singleton in Hin.
    + by apply list_elem_of_singleton in Hin.
    + apply elem_of_app in Hin as [Hin|Hin].
      * apply list_elem_of_bind in Hin as (text' & Hin & Htext).
        apply processLine_Emit in Hin as [[= ->] Hother].
        by exists lines, waitError.
      * by apply list_elem_of_singleton in Hin.
  - intros (lines & waitError & -> & Hin & Hother). right. apply elem_of_app. left.
    apply list_elem_of_bind. exists text. split; [|done].
    by apply processLine_Emit.
Qed.

Lemma worker_no_DelayedError idx chunk cmd :
  Emit DelayedError ∉ worker idx chunk cmd.
Proof.
  unfold worker. rewrite elem_of_cons. intros [[=]|Hin].
  destruct cmd as [| |lines waitError].
  - by apply list_elem_of_singleton in Hin.
  - by apply list_elem_of_singleton in Hin.
  - apply elem_of_app in Hin as [Hin|Hin].
    + apply list_elem_of_bind in Hin as (text' & Hin & Htext).
      by apply processLine_Emit in Hin as [[=] _].
    + by apply list_elem_of_singleton in Hin.
Qed.

Lemma GetFiles_no_worker_events rs w e :
  e ∈ (GetFiles rs w).2 ->
  e = ErrStdoutPipe \/ e = ErrStartListing \/ e = ErrWaitListing
  \/ exists n, e = ScanComplete n.
Proof.
  unfold GetFiles. destruct (files rs); simpl; [by intros ?%elem_of_nil|].
  destruct (listing w) as [| |lines [|]]; simpl; intros Hin;
    repeat (apply elem_of_cons in Hin as [->|Hin]; [by eauto 6|]);
    by apply elem_of_nil in Hin.
Qed.

End schedules.

Section run.

Context (order : gmap string FileInfo -> list fileEntry).
Context (schedule : list (list Action) -> list Action).

Lemma GetFiles_errorOccured rs w :
  errorOccured (GetFiles rs w).1.2 = errorOccured rs.
Proof.
  unfold GetFiles. destruct (files rs); [done|].
  by destruct (listing w).
Qed.

Lemma FileGroupsWith_events rs w :
  errorOccured (FileGroupsWith order rs w).1.2 = errorOccured rs
  /\ forall e, e ∈ (FileGroupsWith order rs w).2 -> e ∈ (GetFiles rs w).2.
Proof.
  unfold FileGroupsWith, FilesToExtract.
  pose proof (GetFiles_errorOccured rs w) as Hflag.
  destruct (makeGroups (tpsize rs)) as [groups|msg]; simpl.
  - destruct (GetFiles rs w) as [[allFiles rs'] out]. simpl in *.
    by destruct (distribute _ _ _).
  - split; [done|]. by intros e ?%elem_of_nil.
Qed.

(** [Run] once the groups are there: the workers' events in the order of
    the schedule, and the delayed error at the end when the flag is set. *)
Lemma RunWith_returned rs w fileGroups rs' out0 :
  FileGroupsWith order rs w = (Ok fileGroups, rs', out0) ->
  let sched :=
    schedule (imap (fun i chunk => worker i chunk (extraction w i)) fileGroups) in
  let flag := errorOccured rs' || bool_decide (SetError ∈ sched) in
  RunWith order schedule rs w
  = Returned (mkGoSnapper (archive rs') (options rs') (tpsize rs') (files rs') flag)
             ((out0 ++ [CreatingWorkers (length fileGroups)]) ++ emitted sched
              ++ if flag then [DelayedError] else []).
Proof.
  intros Hfg sched flag. unfold RunWith. rewrite Hfg.
  fold sched. rewrite foldl_perform. fold flag.
  by rewrite <- (assoc_L (++)).
Qed.

End run.

(** C2.  Of the lines a worker reads from its client: one that ends with
    the not-older or the already-exists message does nothing; the
    delayed-error message sets the flag and writes nothing; every other
    line is written as it was read, without a line end.  For a receiver
    made by [NewGoSnapper], whatever the order of the targets and however
    the workers interleave: [Run] writes exactly the other lines of the
    workers' clients as forwarded lines, and it writes the delayed-error
    message, once and as the last thing, exactly if the client of some
    worker printed that message. *)
Theorem Run_diagnostics
    (order : gmap string FileInfo -> list fileEntry)
    (schedule : list (list Action) -> list Action)
    (archive : string) (opts : Options) (w : World)
    (fileGroups : list (list string)) :
  validSchedule schedule ->
  (FileGroupsWith order (NewGoSnapper archive opts) w).1.1 = Ok fileGroups ->
  (forall text,
      (EndsWith text notOlderText \/ EndsWith text alreadyExistsText ->
       processLine text = [])
      /\ (text = exitErrorText -> processLine text = [SetError])
      /\ (otherLine text -> processLine text = [Emit (Forwarded text)]))
  /\ exists rs' out,
      RunWith order schedule (NewGoSnapper archive opts) w = Returned rs' out
      /\ (forall text,
            Forwarded text ∈ out
            <-> exists idx chunk lines waitError,
                  fileGroups !! idx = Some chunk
                  /\ extraction w idx = Started lines waitError
                  /\ text ∈ lines /\ otherLine text)
      /\ ((exists idx chunk lines waitError,
              fileGroups !! idx = Some chunk
              /\ extraction w idx = Started lines waitError
              /\ exitErrorText ∈ lines) ->
          errorOccured rs' = true
          /\ exists out', out = out' ++ [DelayedError] /\ DelayedError ∉ out')
      /\ (~ (exists idx chunk lines waitError,
                fileGroups !! idx = Some chunk
                /\ extraction w idx = Started lines waitError
                /\ exitErrorText ∈ lines) ->
          errorOccured rs' = false /\ DelayedError ∉ out).
Proof.
  intros Hsched Hfg. split.
  { intros text. split; [apply processLine_dropped|]. split.
    - intros ->. apply processLine_exitError.
    - apply processLine_other. }
  set (rs := NewGoSnapper archive opts) in *.
  destruct (FileGroupsWith_events order rs w) as [Hflag Hout].
  destruct (FileGroupsWith order rs w) as [[r rs'] out0] eqn:Hrun.
  simpl in Hfg, Hflag, Hout. subst r.
  pose proof (RunWith_returned order schedule rs w fileGroups rs' out0 Hrun) as HRun.
  simpl in HRun.
  set (threads := imap (fun i chunk => worker i chunk (extraction w i)) fileGroups) in *.
  assert (Hperm : schedule threads ≡ₚ concat threads)
    by apply Interleaving_Permutation, Hsched.
  assert (Hout0 : forall e, e ∈ out0 ++ [CreatingWorkers (length fileGroups)] ->
            (forall text, e <> Forwarded text) /\ e <> DelayedError).
  { intros e [He|He%list_elem_of_singleton]%elem_of_app.
    - apply Hout, GetFiles_no_worker_events in He as [->|[->|[->|[n ->]]]]; by split.
    - by subst e. }
  assert (Hdelayed : DelayedError ∉ emitted (schedule threads)).
  { rewrite elem_of_emitted, Hperm. intros (idx & chunk & _ & Hin)%elem_of_workers.
    by apply worker_no_DelayedError in Hin. }
  assert (Hset : SetError ∈ schedule threads
                 <-> exists idx chunk lines waitError,
                       fileGroups !! idx = Some chunk
                       /\ extraction w idx = Started lines waitError
                       /\ exitErrorText ∈ lines).
  { rewrite Hperm. unfold threads. rewrite elem_of_workers. split.
    - intros (idx & chunk & Hidx & (lines & waitError & Hcmd & Hin)%worker_SetError).
      by exists idx, chunk, lines, waitError.
    - intros (idx & chunk & lines & waitError & Hidx & Hcmd & Hin).
      exists idx, chunk. split; [done|]. apply worker_SetError. eauto. }
  rewrite Hflag in HRun. change (errorOccured rs) with false in HRun.
  rewrite orb_false_l in HRun.
  eexists _, _. split; [exact HRun|]. split; [|split].
  - intros text. rewrite elem_of_app, (elem_of_app (emitted _)). split.
    + intros [Hin|[Hin|Hin]].
      * by destruct (Hout0 _ Hin) as [Hno _]; destruct (Hno text).
      * apply elem_of_emitted in Hin. rewrite Hperm in Hin.
        apply elem_of_workers in Hin as (idx & chunk & Hidx & Hin).
        apply worker_Forwarded in Hin as (lines & waitError & Hcmd & Hin & Hother).
        by exists idx, chunk, lines, waitError.
      * destruct (bool_decide _);
          [by apply list_elem_of_singleton in Hin|by apply elem_of_nil in Hin].
    + intros (idx & chunk & lines & waitError & Hidx & Hcmd & Hin & Hother).
      right. left. apply elem_of_emitted. rewrite Hperm.
      apply elem_of_workers. exists idx, chunk. split; [done|].
      apply worker_Forwarded. eauto.
  - intros Hflagged. apply Hset in Hflagged.
    rewrite (bool_decide_eq_true_2 _ Hflagged). split; [done|].
    eexists. split; [by rewrite (assoc_L (++) _ (emitted _))|].
    intros [Hin|Hin]%elem_of_app; [|done].
    by destruct (Hout0 _ Hin) as [_ Hno].
  - intros Hnot. rewrite <- Hset in Hnot.
    rewrite (bool_decide_eq_false_2 _ Hnot). split; [done|].
    rewrite (right_id_L [] (++)).
    intros [Hin|Hin]%elem_of_app; [|done].
    by destruct (Hout0 _ Hin) as [_ Hno].
Qed.

(** The listing client cannot be started. *)
Definition startupFailure (w : World) : Prop :=
  listing w = PipeError \/ listing w = StartError.

(** [Run] does not return. *)
Definition aborted (o : Outcome) : Prop :=
  match o with
  | Panicked _ _ => True
  | Returned _ _ => False
  end.

Section startup.

Lemma filesToExtractOf_empty : filesToExtractOf ∅ = ∅.
Proof. reflexivity. Qed.

Lemma nonEmptyFiles_replicate n : nonEmptyFiles (replicate n Group.empty) = [].
Proof.
  unfold nonEmptyFiles. induction n as [|n IH]; [done|].
  simpl. by rewrite filter_cons_False by naive_solver.
Qed.

Lemma Interleaving_nil {A} (sched : list A) : Interleaving [] sched -> sched = [].
Proof. by inversion 1. Qed.

End startup.

(** A receiver and a world in which the listing client does not start. *)
Definition failingReceiver : GoSnapper :=
  NewGoSnapper "archive" (mkOptions "" 0 [] None).
Definition failingWorld : World :=
  mkWorld StartError (fun _ => mkClock 2026 Time.zero) (fun _ => StartError).

(** C8, as stated, fails: the listing client does not start, and [Run]
    returns after it has written that it creates 0 worker threads. *)
Lemma Run_startup_failure_returns :
  files failingReceiver = None
  /\ startupFailure failingWorld
  /\ (GetFiles failingReceiver failingWorld).1.1 = None
  /\ Run failingReceiver failingWorld
     = Returned failingReceiver [ErrStartListing; CreatingWorkers 0]
  /\ ~ aborted (Run failingReceiver failingWorld).
Proof.
  split; [done|]. split; [by right|]. split; [done|]. split; [done|].
  by intros [].
Qed.

(** C8, amended.  When the listing client cannot be started, [GetFiles]
    writes the error and returns the nil inventory, and leaves the
    receiver as it was; [FileGroups] then returns no group, and [Run],
    for a worker count that is not negative, does not abort: it writes
    that it creates 0 worker threads, starts no worker and returns. *)
Theorem Run_startup_failure
    (order : gmap string FileInfo -> list fileEntry)
    (schedule : list (list Action) -> list Action)
    (rs : GoSnapper) (w : World) :
  files rs = None ->
  startupFailure w ->
  0 <= tpsize rs ->
  (forall targets, order targets ≡ₚ toEntries targets) ->
  validSchedule schedule ->
  exists err,
    (err = ErrStdoutPipe \/ err = ErrStartListing)
    /\ GetFiles rs w = (None, rs, [err])
    /\ FileGroupsWith order rs w = (Ok [], rs, [err])
    /\ RunWith order schedule rs w
       = Returned rs ([err; CreatingWorkers 0]
                      ++ if errorOccured rs then [DelayedError] else [])
    /\ ~ aborted (RunWith order schedule rs w).
Proof.
  intros Hfiles Hfail Htp Horder Hsched.
  assert (Hget : exists err, (err = ErrStdoutPipe \/ err = ErrStartListing)
                             /\ GetFiles rs w = (None, rs, [err])).
  { unfold GetFiles. rewrite Hfiles.
    destruct Hfail as [-> | ->]; eexists; (split; [|done]); eauto. }
  destruct Hget as (err & Herr & Hget). exists err.
  assert (Hfg : FileGroupsWith order rs w = (Ok [], rs, [err])).
  { unfold FileGroupsWith, FilesToExtract, makeGroups. rewrite Hget.
    destruct (Z.ltb_spec (tpsize rs) 0); [lia|]. simpl.
    rewrite filesToExtractOf_empty.
    assert (order ∅ = []) as ->.
    { apply Permutation_nil_r. by rewrite Horder. }
    simpl. by rewrite nonEmptyFiles_replicate. }
  assert (HRun : RunWith order schedule rs w
                 = Returned rs ([err; CreatingWorkers 0]
                                ++ if errorOccured rs then [DelayedError] else [])).
  { rewrite (RunWith_returned order schedule rs w [] rs [err] Hfg). simpl.
    rewrite (Interleaving_nil _ (Hsched [])). simpl.
    rewrite orb_false_r. by destruct rs. }
  repeat split; try done. rewrite HRun. by intros [].
Qed.

(* ===================================================================== *)
(** * Properties of the listing parser                                    *)
(* ===================================================================== *)

Section parseInt.

Lemma digit_range c d : Strconv.digit c = Some d -> 0 <= d <= 9.
Proof.
  unfold Strconv.digit.
  destruct (N.leb_spec 48 (N_of_ascii c)), (N.leb_spec (N_of_ascii c) 57);
    simpl; intros [= <-]; lia.
Qed.

Lemma digits_ge acc s n : 0 <= acc -> Strconv.digits acc s = Some n -> acc <= n.
Proof.
  revert acc. induction s as [|c s IH]; intros acc Hacc; simpl.
  - intros [= <-]. lia.
  - destruct (Strconv.digit c) as [d|] eqn:Hd; [|done].
    apply digit_range in Hd. intros Hn%IH; lia.
Qed.

(** [ParseInt] results fit [int64]; without a minus sign they are not
    negative. *)
Lemma ParseInt_range s v :
  Strconv.ParseInt s = Some v ->
  minInt64 <= v <= maxInt64
  /\ (Strings.HasPrefix s "-" = false -> 0 <= v).
Proof.
  unfold Strconv.ParseInt.
  set (split := match s with
                | String "-" s' => (true, s')
                | String "+" s' => (false, s')
                | _ => (false, s)
                end).
  assert (Hneg : split.1 = true -> Strings.HasPrefix s "-" = true).
  { unfold split. destruct s as [|c s']; [done|].
    destruct (decide (c = "-"%char)) as [->|Hc]; [done|].
    destruct c as [[] [] [] [] [] [] [] []]; try done. }
  destruct split as [neg body]. simpl in Hneg.
  destruct body as [|c body]; [done|].
  destruct (Strconv.digits 0 (String c body)) as [n|] eqn:Hn; [|done].
  apply digits_ge in Hn; [|done].
  destruct (Z.leb_spec minInt64 (if neg then - n else n)),
           (Z.leb_spec (if neg then - n else n) maxInt64);
    simpl; intros [= <-]; split; try lia.
  intros Hpre. destruct neg; [|done]. rewrite Hneg in Hpre; done.
Qed.

End parseInt.

(** A listing line whose size field is negative. *)
Definition negativeSizeLine : string :=
  "-rw-r--r-- 0 user group -5 Jan 2 2020 name".

(** C9, as stated, fails: the line is accepted and its entry has the size
    -5. *)
Lemma scanLine_negative_size :
  scanLine (mkClock 2026 (Time.mkTime 2026 10 30 12 0 0 0)) negativeSizeLine
  = Some ("name", mkFileInfo (-5) (Time.mkTime 2020 1 2 0 0 0 0))
  /\ ~ 0 <= Size (mkFileInfo (-5) (Time.mkTime 2020 1 2 0 0 0 0)).
Proof. split; [reflexivity|]. simpl. lia. Qed.

(** C9, amended.  The size of every entry the parser stores is the value
    [ParseInt] reads from the fifth field of its line: it lies within
    [int64], and it is not negative unless that field starts with a minus
    sign. *)
Theorem scanLine_size (c : Clock) (line name : string) (info : FileInfo) :
  scanLine c line = Some (name, info) ->
  Strconv.ParseInt (nth 4 (Strings.Fields line) "") = Some (Size info)
  /\ minInt64 <= Size info <= maxInt64
  /\ (Strings.HasPrefix (nth 4 (Strings.Fields line) "") "-" = false ->
      0 <= Size info).
Proof.
  unfold scanLine.
  destruct (length (Strings.Fields line) <? 9)%nat; [done|].
  destruct (Strconv.ParseInt (nth 4 (Strings.Fields line) "")) as [size|] eqn:Hsize;
    [|done].
  destruct (lineDate _ _) as [date|]; [|done].
  intros [= <- <-]. simpl. split; [done|]. by apply ParseInt_range.
Qed.

Section chars.

Implicit Types (s t : string) (c : ascii).

(** The byte [c] occurs in [s]. *)
Fixpoint hasChar c s : bool :=
  match s with
  | EmptyString => false
  | String a s' => bool_decide (a = c) || hasChar c s'
  end.

Lemma Contains_char s c : Strings.Contains s (String c "") = hasChar c s.
Proof.
  induction s as [|a s IH]; [done|].
  simpl. rewrite IH. f_equal.
  unfold Strings.HasPrefix. simpl.
  apply bool_decide_ext. split; [by intros [= ->]|by intros ->].
Qed.

Lemma hasChar_app c s t : hasChar c (s +:+ t) = hasChar c s || hasChar c t.
Proof.
  induction s as [|a s IH]; [done|].
  rewrite app_cons. simpl. by rewrite IH, orb_assoc.
Qed.

Lemma length_take n s : (n <= String.length s)%nat -> String.length (Strings.take n s) = n.
Proof.
  revert s. induction n as [|n IH]; intros [|a s] Hn; simpl in *; try done; try lia.
  rewrite IH; lia.
Qed.

End chars.

Section primitives.

Import Time.

(** [v'] is [v] without a front part that has no colon. *)
Definition consumes (v v' : string) : Prop :=
  exists p, v = p +:+ v' /\ hasChar ":" p = false.

Lemma consumes_refl v : consumes v v.
Proof. by exists "". Qed.

Lemma consumes_trans v1 v2 v3 : consumes v1 v2 -> consumes v2 v3 -> consumes v1 v3.
Proof.
  intros (p & -> & Hp) (q & -> & Hq). exists (p +:+ q).
  by rewrite app_assoc, hasChar_app, Hp, Hq.
Qed.

Lemma consumes_char c v : c <> ":"%char -> consumes (String c v) v.
Proof.
  intros Hc. exists (String c ""). split; [done|].
  simpl. by rewrite bool_decide_eq_false_2.
Qed.

Lemma cutspace_consumes v : consumes v (cutspace v).
Proof.
  induction v as [|c v IH]; simpl; [apply consumes_refl|].
  destruct (decide (c = " "%char)) as [->|]; [|apply consumes_refl].
  eapply consumes_trans; [|exact IH]. by apply consumes_char.
Qed.

Lemma skip_space v v' : skip false v " " = Some v' -> v' = cutspace v.
Proof.
  simpl. destruct v as [|c v]; [by intros [= <-]|].
  destruct (decide (c = " "%char)) as [->|]; [|done]. by intros [= <-].
Qed.

Lemma skip_colon v v' : skip false v ":" = Some v' -> v = String ":" v'.
Proof.
  simpl. destruct v as [|c v]; [done|].
  destruct (decide (c = ":"%char)) as [->|]; [|done]. by intros [= <-].
Qed.

Lemma isDigit_noColon c : isDigit c = true -> c <> ":"%char.
Proof. by intros Hc ->. Qed.

Lemma digitVal_range c : isDigit c = true -> 0 <= digitVal c <= 9.
Proof.
  unfold isDigit, digitVal. rewrite andb_true_iff, !N.leb_le. lia.
Qed.

(** [getnum] reads one or two digits. *)
Lemma getnum_inv v fixed n v' :
  getnum v fixed = Some (n, v') ->
  (exists d0 d1, v = String d0 (String d1 v') /\ isDigit d0 = true
                 /\ isDigit d1 = true /\ n = digitVal d0 * 10 + digitVal d1)
  \/ (exists d0, v = String d0 v' /\ isDigit d0 = true /\ fixed = false
                 /\ n = digitVal d0
                 /\ match v' with
                    | String d1 _ => isDigit d1 = false
                    | EmptyString => True
                    end).
Proof.
  unfold getnum. destruct v as [|d0 [|d1 v1]]; [done|..].
  - destruct (isDigit d0) eqn:H0; [|done]. destruct fixed; [done|].
    intros [= <- <-]. right. by exists d0.
  - destruct (isDigit d0) eqn:H0; [|done].
    destruct (isDigit d1) eqn:H1.
    + intros [= <- <-]. left. by exists d0, d1.
    + destruct fixed; [done|]. intros [= <- <-]. right. by exists d0.
Qed.

Lemma getnum_consumes v fixed n v' :
  getnum v fixed = Some (n, v') -> consumes v v' /\ 0 <= n <= 99.
Proof.
  intros [(d0 & d1 & -> & H0 & H1 & ->)|(d0 & -> & H0 & _ & -> & _)]%getnum_inv.
  - split.
    + eapply consumes_trans; apply consumes_char; by apply isDigit_noColon.
    + apply digitVal_range in H0, H1. lia.
  - split.
    + apply consumes_char; by apply isDigit_noColon.
    + apply digitVal_range in H0. lia.
Qed.

Lemma getYear_consumes v y v' :
  getYear v = Some (y, v') -> consumes v v' /\ 0 <= y <= 9999.
Proof.
  unfold getYear. destruct v as [|a [|b [|c [|d rest]]]]; try done.
  destruct (isDigit a) eqn:Ha; [|done]. destruct (isDigit b) eqn:Hb; [|done].
  destruct (isDigit c) eqn:Hc; [|done]. destruct (isDigit d) eqn:Hd; [|done].
  simpl. intros [= <- <-]. split.
  - repeat (eapply consumes_trans;
            [apply consumes_char; by apply isDigit_noColon|]).
    apply consumes_refl.
  - apply digitVal_range in Ha, Hb, Hc, Hd. lia.
Qed.

Lemma matchByte_colon c : matchByte ":" c = true -> c = ":"%char.
Proof.
  unfold matchByte. destruct (decide (":"%char = c)) as [<-|_]; [done|].
  by rewrite andb_false_r.
Qed.

Lemma matchFold_noColon s name :
  String.length s = String.length name ->
  matchFold s name = true -> hasChar ":" name = false -> hasChar ":" s = false.
Proof.
  revert name. induction s as [|c s IH]; intros [|c' name] Hlen; simpl in *; try done.
  rewrite andb_true_iff, !orb_false_iff. intros [Hc Hs] [Hc' Hname].
  split; [|apply (IH name); [lia|done..]].
  apply bool_decide_eq_false_2. intros ->. apply matchByte_colon in Hc.
  by apply bool_decide_eq_false_1 in Hc'.
Qed.

Lemma lookup_consumes tab i val m rest :
  Forall (fun name => hasChar ":" name = false) tab ->
  lookup tab i val = Some (m, rest) ->
  consumes val rest /\ i <= m < i + Z.of_nat (length tab).
Proof.
  intros Htab. revert i. induction Htab as [|name tab Hname _ IH]; intros i; [done|].
  simpl. destruct (Nat.leb_spec (String.length name) (String.length val)) as [Hlen|];
    simpl.
  - destruct (matchFold _ name) eqn:Hmatch.
    + intros [= <- <-]. split; [|lia].
      exists (Strings.take (String.length name) val). split.
      * by rewrite take_drop.
      * eapply matchFold_noColon; [|done..]. by apply length_take.
    + intros [? ?]%IH. split; [done|lia].
  - intros [? ?]%IH. split; [done|lia].
Qed.

Lemma lookup_month_consumes val m rest :
  lookup shortMonthNames 0 val = Some (m, rest) ->
  consumes val rest /\ 0 <= m <= 11.
Proof.
  intros H. apply lookup_consumes in H as [? ?]; [split; [done|simpl in *; lia]|].
  unfold shortMonthNames. by repeat constructor.
Qed.

End primitives.

Section parse.

Import Time.

(** A time as [time.Parse] gives it for the two layouts. *)
Record validTime (t : Time) : Prop := mkValidTime {
  valid_year : 0 <= year t <= 9999;
  valid_month : 1 <= month t <= 12;
  valid_day : 1 <= day t <= daysIn (month t) (year t);
  valid_hour : 0 <= hour t < 24;
  valid_minute : 0 <= minute t < 60;
  valid_second : second t = 0;
  valid_nanosecond : nanosecond t = 0
}.

Lemma daysIn_range m y : 28 <= daysIn m y <= 31.
Proof.
  unfold daysIn. destruct (m =? 2); [destruct (isLeap y); lia|].
  destruct ((m =? 4) || (m =? 6) || (m =? 9) || (m =? 11)); lia.
Qed.

Lemma normDay_valid fuel y m d :
  1 <= d <= daysIn m y -> normDay (S fuel) y m d = (y, m, d).
Proof.
  intros Hd. simpl.
  destruct (Z.ltb_spec d 1); [lia|].
  destruct (Z.ltb_spec (daysIn m y) d); [lia|done].
Qed.

(** [Date] leaves values within their ranges as they are. *)
Lemma Date_valid y mo d h mi :
  1 <= mo <= 12 -> 1 <= d <= daysIn mo y -> 0 <= h < 24 -> 0 <= mi < 60 ->
  Date y mo d h mi 0 0 = mkTime y mo d h mi 0 0.
Proof.
  intros Hmo Hd Hh Hmi. unfold Date, norm.
  rewrite (Z.div_small (mo - 1) 12), (Z.mod_small (mo - 1) 12) by lia.
  change (0 / 1000000000) with 0. change (0 mod 1000000000) with 0.
  change ((0 + 0) / 60) with 0. change ((0 + 0) mod 60) with 0.
  rewrite !Z.add_0_r.
  rewrite (Z.div_small mi 60), (Z.mod_small mi 60) by lia.
  rewrite !Z.add_0_r.
  rewrite (Z.div_small h 24), (Z.mod_small h 24) by lia.
  rewrite !Z.add_0_r. replace (mo - 1 + 1) with mo by lia.
  by rewrite normDay_valid.
Qed.

(** What a successful [Parse] with the layout ["Jan 2 2006"] went
    through. *)
Local Ltac pstep H :=
  cbn [mbind option_bind pYear pMonth pDay pHour pMin negb orb] in H.

Lemma Parse_layoutDate_inv value t :
  Parse layoutDate value = Some t ->
  exists m d y v1 v3,
    lookup shortMonthNames 0 value = Some (m, v1)
    /\ getnum (cutspace v1) false = Some (d, v3)
    /\ getYear (cutspace v3) = Some (y, "")
    /\ 1 <= d <= daysIn (m + 1) y
    /\ t = Date y (m + 1) d 0 0 0 0.
Proof.
  unfold Parse, layoutDate, parseChunks, parseChunk. intros H. pstep H.
  destruct (lookup shortMonthNames 0 value) as [[m v1]|] eqn:Hm; pstep H; [|done].
  destruct (skip false v1 " ") as [v2|] eqn:H2; pstep H; [|done].
  apply skip_space in H2 as ->. pstep H.
  destruct (getnum (cutspace v1) false) as [[d v3]|] eqn:Hd; pstep H; [|done].
  destruct (skip false v3 " ") as [v4|] eqn:H4; pstep H; [|done].
  apply skip_space in H4 as ->. pstep H.
  destruct (getYear (cutspace v3)) as [[y v5]|] eqn:Hy; pstep H; [|done].
  destruct (decide (v5 = "")) as [->|Hne];
    [|by rewrite bool_decide_eq_false_2 in H].
  pstep H.
  destruct (Z.ltb_spec d 1); [done|].
  destruct (Z.ltb_spec (daysIn (m + 1) y) d); [done|].
  pstep H. injection H as <-.
  exists m, d, y, v1, v3. repeat split; try done; lia.
Qed.

(** And with the layout ["Jan 2 2006 15:04"]. *)
Lemma Parse_layoutDateTime_inv value t :
  Parse layoutDateTime value = Some t ->
  exists m d y h mi v1 v3 v5 v7 d1 d2,
    lookup shortMonthNames 0 value = Some (m, v1)
    /\ getnum (cutspace v1) false = Some (d, v3)
    /\ getYear (cutspace v3) = Some (y, v5)
    /\ getnum (cutspace v5) false = Some (h, String ":" v7)
    /\ v7 = String d1 (String d2 "")
    /\ isDigit d1 = true /\ isDigit d2 = true
    /\ mi = digitVal d1 * 10 + digitVal d2
    /\ h < 24 /\ mi < 60
    /\ 1 <= d <= daysIn (m + 1) y
    /\ t = Date y (m + 1) d h mi 0 0.
Proof.
  unfold Parse, layoutDateTime, parseChunks, parseChunk. intros H. pstep H.
  destruct (lookup shortMonthNames 0 value) as [[m v1]|] eqn:Hm; pstep H; [|done].
  destruct (skip false v1 " ") as [v2|] eqn:H2; pstep H; [|done].
  apply skip_space in H2 as ->. pstep H.
  destruct (getnum (cutspace v1) false) as [[d v3]|] eqn:Hd; pstep H; [|done].
  destruct (skip false v3 " ") as [v4|] eqn:H4; pstep H; [|done].
  apply skip_space in H4 as ->. pstep H.
  destruct (getYear (cutspace v3)) as [[y v5]|] eqn:Hy; pstep H; [|done].
  destruct (skip false v5 " ") as [v6|] eqn:H6; pstep H; [|done].
  apply skip_space in H6 as ->. pstep H.
  destruct (getnum (cutspace v5) false) as [[h v6]|] eqn:Hh; pstep H; [|done].
  destruct (Z.leb_spec 24 h); [done|]. pstep H.
  destruct (skip false v6 ":") as [v7|] eqn:H7; pstep H; [|done].
  apply skip_colon in H7 as ->. pstep H.
  destruct (getnum v7 true) as [[mi v8]|] eqn:Hmi; pstep H; [|done].
  destruct (Z.leb_spec 60 mi); [done|]. pstep H.
  destruct (decide (v8 = "")) as [->|Hne];
    [|by rewrite bool_decide_eq_false_2 in H].
  pstep H.
  destruct (Z.ltb_spec d 1); [done|].
  destruct (Z.ltb_spec (daysIn (m + 1) y) d); [done|].
  pstep H. injection H as <-.
  apply getnum_inv in Hmi
    as [(d1 & d2 & -> & Hd1 & Hd2 & ->)|(? & _ & _ & [=] & _)].
  exists m, d, y, h, (digitVal d1 * 10 + digitVal d2), v1, v3, v5,
    (String d1 (String d2 "")), d1, d2.
  repeat split; try done; lia.
Qed.

Lemma Parse_layoutDate_valid value t :
  Parse layoutDate value = Some t -> validTime t.
Proof.
  intros (m & d & y & v1 & v3 & Hm & Hd & Hy & Hday & ->)%Parse_layoutDate_inv.
  apply lookup_month_consumes in Hm as [_ Hm].
  apply getYear_consumes in Hy as [_ Hy].
  rewrite Date_valid by lia. by constructor; simpl; try lia.
Qed.

Lemma Parse_layoutDateTime_valid value t :
  Parse layoutDateTime value = Some t -> validTime t.
Proof.
  intros (m & d & y & h & mi & v1 & v3 & v5 & v7 & d1 & d2 & Hm & Hd & Hy & Hh
          & -> & H1 & H2 & -> & Hh24 & Hmi60 & Hday & ->)%Parse_layoutDateTime_inv.
  apply lookup_month_consumes in Hm as [_ Hm].
  apply getYear_consumes in Hy as [_ Hy].
  apply getnum_consumes in Hh as [_ Hh].
  apply digitVal_range in H1, H2.
  rewrite Date_valid by lia. by constructor; simpl; try lia.
Qed.

(** A text the layout ["Jan 2 2006"] accepts has no colon. *)
Lemma Parse_layoutDate_noColon value t :
  Parse layoutDate value = Some t -> hasChar ":" value = false.
Proof.
  intros (m & d & y & v1 & v3 & Hm & Hd & Hy & _)%Parse_layoutDate_inv.
  apply lookup_month_consumes in Hm as [Hm _].
  apply getnum_consumes in Hd as [Hd _].
  apply getYear_consumes in Hy as [Hy _].
  assert (consumes value "") as (p & -> & Hp).
  { eapply consumes_trans; [exact Hm|].
    eapply consumes_trans; [apply cutspace_consumes|].
    eapply consumes_trans; [exact Hd|].
    eapply consumes_trans; [apply cutspace_consumes|]. exact Hy. }
  by rewrite app_empty_r.
Qed.

(** A text the layout ["Jan 2 2006 15:04"] accepts ends with a colon and
    two digits. *)
Lemma Parse_layoutDateTime_end value t :
  Parse layoutDateTime value = Some t ->
  exists p d1 d2,
    value = p +:+ String ":" (String d1 (String d2 ""))
    /\ isDigit d1 = true /\ isDigit d2 = true.
Proof.
  intros (m & d & y & h & mi & v1 & v3 & v5 & v7 & d1 & d2 & Hm & Hd & Hy & Hh
          & -> & H1 & H2 & _)%Parse_layoutDateTime_inv.
  apply lookup_month_consumes in Hm as [Hm _].
  apply getnum_consumes in Hd as [Hd _].
  apply getYear_consumes in Hy as [Hy _].
  apply getnum_consumes in Hh as [Hh _].
  assert (consumes value (String ":" (String d1 (String d2 ""))))
    as (p & -> & Hp).
  { eapply consumes_trans; [exact Hm|].
    eapply consumes_trans; [apply cutspace_consumes|].
    eapply consumes_trans; [exact Hd|].
    eapply consumes_trans; [apply cutspace_consumes|].
    eapply consumes_trans; [exact Hy|].
    eapply consumes_trans; [apply cutspace_consumes|]. exact Hh. }
  by exists p, d1, d2.
Qed.

End parse.

Section forms.

Import Time.

Local Abbreviation chars := String.list_ascii_of_string.

Lemma chars_app s t : chars (s +:+ t) = chars s ++ chars t.
Proof.
  induction s as [|c s IH]; [done|]. rewrite app_cons. simpl. by rewrite IH.
Qed.

Lemma hasChar_chars c s : hasChar c s = true <-> c ∈ chars s.
Proof.
  induction s as [|a s IH]; simpl.
  - split; [done|by intros ?%elem_of_nil].
  - rewrite orb_true_iff, bool_decide_eq_true, elem_of_cons, IH.
    split; (intros [Heq|Hin]; [by left|by right]).
Qed.

(** Without a colon in its last field a text is no date with a time. *)
Lemma layoutDateTime_needs_colon front yearOrTime :
  hasChar ":" yearOrTime = false ->
  Parse layoutDateTime (front +:+ " " +:+ yearOrTime) = None.
Proof.
  intros Hno.
  destruct (Parse layoutDateTime _) as [t|] eqn:Hparse; [exfalso|done].
  apply Parse_layoutDateTime_end in Hparse as (p & d1 & d2 & Heq & H1 & H2).
  apply (f_equal chars) in Heq. rewrite !chars_app in Heq.
  apply (f_equal (@rev ascii)) in Heq. rewrite !rev_app_distr in Heq.
  simpl in Heq. rewrite <- !(assoc_L (++)) in Heq. simpl in Heq.
  assert (Hin : ":"%char ∉ rev (chars yearOrTime)).
  { rewrite list_elem_of_In, <- in_rev, <- list_elem_of_In, <- hasChar_chars.
    by rewrite Hno. }
  destruct (rev (chars yearOrTime)) as [|a [|b [|c r]]]; simplify_eq/=.
  apply Hin. do 2 right. by left.
Qed.

(** With a colon in it a text is no date without a time. *)
Lemma layoutDate_rejects_colon front yearOrTime :
  hasChar ":" yearOrTime = true ->
  Parse layoutDate (front +:+ yearOrTime) = None.
Proof.
  intros Hcolon.
  destruct (Parse layoutDate _) as [t|] eqn:Hparse; [exfalso|done].
  apply Parse_layoutDate_noColon in Hparse.
  by rewrite hasChar_app, Hcolon, orb_true_r in Hparse.
Qed.

End forms.

(** The date fields of a line read as month, day and time of day, in the
    current year. *)
Definition timeFormText (currentYear : Z) (fields : list string) : string :=
  nth 5 fields "" +:+ " " +:+ nth 6 fields "" +:+ " "
  +:+ Strconv.Itoa currentYear +:+ " " +:+ nth 7 fields "".

(** The date fields of a line read as month, day and year. *)
Definition dateFormText (fields : list string) : string :=
  nth 5 fields "" +:+ " " +:+ nth 6 fields "" +:+ " " +:+ nth 7 fields "".

Definition parsesAsTime (currentYear : Z) (fields : list string) : Prop :=
  is_Some (Time.Parse Time.layoutDateTime (timeFormText currentYear fields)).

Definition parsesAsDate (fields : list string) : Prop :=
  is_Some (Time.Parse Time.layoutDate (dateFormText fields)).

(** The date of a line is its reading under the form with a time, else
    its reading under the form with a year; the switch on the colon and
    the second attempt of the source change nothing in that. *)
Lemma lineDate_forms currentYear fields :
  lineDate currentYear fields
  = match Time.Parse Time.layoutDateTime (timeFormText currentYear fields) with
    | Some date => Some date
    | None => Time.Parse Time.layoutDate (dateFormText fields)
    end.
Proof.
  unfold lineDate, dateString, parseDate, timeFormText, dateFormText.
  rewrite Contains_char.
  set (month := nth 5 fields ""). set (day := nth 6 fields "").
  set (yearOrTime := nth 7 fields "").
  destruct (hasChar ":" yearOrTime) eqn:Hcolon.
  - assert (Time.Parse Time.layoutDate (month +:+ " " +:+ day +:+ " " +:+ yearOrTime)
            = None) as ->.
    { rewrite <- (app_assoc month), <- (app_assoc (month +:+ " ")),
        <- (app_assoc ((month +:+ " ") +:+ day)).
      by apply layoutDate_rejects_colon. }
    assert (Time.Parse Time.layoutDate
              (month +:+ " " +:+ day +:+ " " +:+ Strconv.Itoa currentYear
               +:+ " " +:+ yearOrTime) = None) as ->; [|done].
    rewrite <- (app_assoc month), <- (app_assoc (month +:+ " ")),
      <- (app_assoc ((month +:+ " ") +:+ day)),
      <- (app_assoc (((month +:+ " ") +:+ day) +:+ " ")),
      <- (app_assoc ((((month +:+ " ") +:+ day) +:+ " ") +:+ _)).
    by apply layoutDate_rejects_colon.
  - assert (Time.Parse Time.layoutDateTime
              (month +:+ " " +:+ day +:+ " " +:+ yearOrTime) = None) as ->.
    { rewrite <- (app_assoc month), <- (app_assoc (month +:+ " ")).
      by apply layoutDateTime_needs_colon. }
    assert (Time.Parse Time.layoutDateTime
              (month +:+ " " +:+ day +:+ " " +:+ Strconv.Itoa currentYear
               +:+ " " +:+ yearOrTime) = None) as ->; [|done].
    rewrite <- (app_assoc month), <- (app_assoc (month +:+ " ")),
      <- (app_assoc ((month +:+ " ") +:+ day)),
      <- (app_assoc (((month +:+ " ") +:+ day) +:+ " ")).
    by apply layoutDateTime_needs_colon.
Qed.

(** C5.  A line of the listing adds no entry exactly if it has fewer than
    9 fields, or [ParseInt] fails on its fifth field, or its date fields
    parse neither as month, day and time of day (in the current year) nor
    as month, day and year.  The entry a line adds has the value of the
    fifth field as size and the fields from the ninth on, joined with
    single spaces, as name; and the scanning loop puts exactly that entry
    into the inventory. *)
Theorem scanLine_entry (c : Clock) (line : string) :
  let fields := Strings.Fields line in
  (scanLine c line = None
   <-> (length fields < 9)%nat
       \/ Strconv.ParseInt (nth 4 fields "") = None
       \/ (~ parsesAsTime (currentYear c) fields /\ ~ parsesAsDate fields))
  /\ (forall name info,
        scanLine c line = Some (name, info) ->
        Strconv.ParseInt (nth 4 fields "") = Some (Size info)
        /\ name = Strings.Join (drop 8 fields) " ")
  /\ (forall clock i rest files,
        clock i = c ->
        scanLines clock i (line :: rest) files
        = scanLines clock (S i) rest
            match scanLine c line with
            | Some (name, info) => <[name := info]> files
            | None => files
            end).
Proof.
  intros fields. split; [|split].
  - unfold scanLine. fold fields. rewrite lineDate_forms.
    unfold parsesAsTime, parsesAsDate.
    destruct (Nat.ltb_spec (length fields) 9) as [Hlen|Hlen];
      [split; [by left|done]|].
    destruct (Strconv.ParseInt (nth 4 fields "")) as [size|];
      [|split; [by right; left|done]].
    destruct (Time.Parse Time.layoutDateTime _) as [date|].
    { split; [done|]. intros [?|[?|[Hno _]]]; [lia|done|]. destruct Hno. eauto. }
    destruct (Time.Parse Time.layoutDate _) as [date|].
    { split; [done|]. intros [?|[?|[_ Hno]]]; [lia|done|]. destruct Hno. eauto. }
    split; [|done]. intros _. right. right. split; by intros [? ?].
  - intros name info. unfold scanLine. fold fields.
    destruct (length fields <? 9)%nat; [done|].
    destruct (Strconv.ParseInt (nth 4 fields "")) as [size|]; [|done].
    destruct (lineDate _ _) as [date|]; [|done].
    by intros [= <- <-].
  - intros clock i rest files <-. reflexivity.
Qed.


Section yearBack.

Import Time.

(** [Date] with month and clock within their ranges carries only the
    day. *)
Lemma Date_carry_day y mo d h mi :
  1 <= mo <= 12 -> 0 <= h < 24 -> 0 <= mi < 60 ->
  Date y mo d h mi 0 0
  = let '(y', mo', d') := normDay (S (Z.to_nat (Z.abs d))) y mo d in
    mkTime y' mo' d' h mi 0 0.
Proof.
  intros Hmo Hh Hmi. unfold Date, norm.
  rewrite (Z.div_small (mo - 1) 12), (Z.mod_small (mo - 1) 12) by lia.
  change (0 / 1000000000) with 0. change (0 mod 1000000000) with 0.
  change ((0 + 0) / 60) with 0. change ((0 + 0) mod 60) with 0.
  rewrite !Z.add_0_r.
  rewrite (Z.div_small mi 60), (Z.mod_small mi 60) by lia.
  rewrite !Z.add_0_r.
  rewrite (Z.div_small h 24), (Z.mod_small h 24) by lia.
  rewrite !Z.add_0_r. by replace (mo - 1 + 1) with mo by lia.
Qed.

Lemma isLeap_previous y : isLeap y = true -> isLeap (y - 1) = false.
Proof.
  unfold isLeap. intros [H4%Z.eqb_eq _]%andb_true_iff.
  apply andb_false_iff. left. apply Z.eqb_neq.
  Z.div_mod_to_equations. lia.
Qed.

Lemma normDay_over fuel y m d :
  1 <= d -> daysIn m y < d ->
  normDay (S fuel) y m d
  = normDay fuel (if m =? 12 then y + 1 else y) (if m =? 12 then 1 else m + 1)
            (d - daysIn m y).
Proof.
  intros Hd Hover. cbn [normDay].
  destruct (Z.ltb_spec d 1); [lia|].
  destruct (Z.ltb_spec (daysIn m y) d); [|lia].
  by destruct (m =? 12).
Qed.

Lemma daysIn_february y : daysIn 2 y = if isLeap y then 29 else 28.
Proof. reflexivity. Qed.

Lemma daysIn_march y : daysIn 3 y = 31.
Proof. reflexivity. Qed.

(** One year back: the same day and time of the year before; February
    29 becomes March 1. *)
Lemma AddDate_year_back t :
  validTime t ->
  AddDate t (-1) 0 0
  = if (month t =? 2) && (day t =? 29)
    then mkTime (year t - 1) 3 1 (hour t) (minute t) 0 0
    else mkTime (year t - 1) (month t) (day t) (hour t) (minute t) 0 0.
Proof.
  intros [Hy Hmo Hd Hh Hmi Hs Hns]. destruct t as [y mo d h mi s ns].
  cbn [year month day hour minute second nanosecond] in *. subst s ns.
  unfold AddDate. cbn [year month day hour minute second nanosecond].
  rewrite !Z.add_0_r, Date_carry_day by lia.
  replace (y + -1) with (y - 1) by lia.
  destruct (Z.eqb_spec mo 2) as [->|Hne]; cbn [andb].
  - rewrite daysIn_february in Hd.
    destruct (Z.eqb_spec d 29) as [->|Hd29].
    + assert (Hleap : isLeap y = true) by (destruct (isLeap y); [done|lia]).
      apply isLeap_previous in Hleap.
      rewrite normDay_over by (rewrite ?daysIn_february, ?Hleap; lia).
      rewrite daysIn_february, Hleap.
      change (2 =? 12) with false. cbn iota.
      change (Z.to_nat (Z.abs 29)) with 29%nat.
      change (2 + 1) with 3. change (29 - 28) with 1.
      rewrite normDay_valid by (rewrite daysIn_march; lia). done.
    + rewrite normDay_valid; [done|]. rewrite daysIn_february.
      destruct (isLeap y), (isLeap (y - 1)); lia.
  - rewrite normDay_valid; [done|].
    unfold daysIn in *. apply Z.eqb_neq in Hne. rewrite Hne in *. lia.
Qed.

Lemma daysSinceEpoch_step y :
  daysSinceEpoch y - daysSinceEpoch (y - 1)
  = 365 + (if isLeap (y - 1) then 1 else 0).
Proof.
  unfold daysSinceEpoch, isLeap.
  destruct (Z.eqb_spec ((y - 1) mod 4) 0), (Z.eqb_spec ((y - 1) mod 100) 0),
    (Z.eqb_spec ((y - 1) mod 400) 0); simpl;
    Z.div_mod_to_equations; lia.
Qed.

(** One year back is 365 or 366 days back, at the same time of day. *)
Lemma AddDate_year_back_days t :
  validTime t ->
  365 <= absDays t - absDays (AddDate t (-1) 0 0) <= 366
  /\ absSeconds t - absSeconds (AddDate t (-1) 0 0)
     = (absDays t - absDays (AddDate t (-1) 0 0)) * 86400.
Proof.
  intros Hvalid. rewrite (AddDate_year_back t Hvalid).
  destruct Hvalid as [Hy Hmo Hd Hh Hmi Hs Hns]. destruct t as [y mo d h mi s ns].
  simpl in *. subst s ns.
  pose proof (daysSinceEpoch_step y) as Hstep.
  assert (Hfeb : (mo =? 2) && (d =? 29) = true -> isLeap y = true).
  { rewrite andb_true_iff, !Z.eqb_eq. intros [-> ->].
    unfold daysIn in Hd. simpl in Hd. destruct (isLeap y); [done|lia]. }
  destruct ((mo =? 2) && (d =? 29)) eqn:Hcase.
  - apply andb_true_iff in Hcase as [->%Z.eqb_eq ->%Z.eqb_eq].
    specialize (Hfeb eq_refl). pose proof (isLeap_previous y Hfeb) as Hprev.
    unfold absSeconds, absDays. simpl. rewrite Hfeb, Hprev in *. simpl.
    unfold daysBefore. simpl. lia.
  - clear Hfeb Hcase. unfold absSeconds, absDays. simpl.
    assert (Hleap : isLeap y = true -> isLeap (y - 1) = false)
      by apply isLeap_previous.
    assert (Hcases : mo = 1 \/ mo = 2 \/ 3 <= mo) by lia.
    destruct Hcases as [->|[->|Hmo3]].
    + simpl. destruct (isLeap y), (isLeap (y - 1)); simpl; lia.
    + simpl. destruct (isLeap y), (isLeap (y - 1)); simpl; lia.
    + destruct (Z.leb_spec 3 mo); [|lia].
      destruct (isLeap y), (isLeap (y - 1)); simpl; lia.
Qed.

Lemma After_irrefl t : After t t = false.
Proof.
  unfold After. rewrite !Z.ltb_irrefl. by rewrite andb_false_r.
Qed.

End yearBack.

(** C6.  The date an entry is stored with is the date read from its line,
    moved one year back when it is after the instant of the clock, and
    left as it is otherwise (also when it is that very instant), for a
    line with a year as for a line with a time of day.  One year back is
    the same month, day and time of day of the year before (March 1 for
    February 29), 365 or 366 days earlier; it is not moved again, however
    far ahead the date is. *)
Theorem scanLine_future_correction
    (c : Clock) (line name : string) (info : FileInfo) :
  scanLine c line = Some (name, info) ->
  exists date,
    lineDate (currentYear c) (Strings.Fields line) = Some date
    /\ (Time.After date (now c) = true ->
        Date info = Time.AddDate date (-1) 0 0
        /\ Time.year (Date info) = Time.year date - 1
        /\ Date info
           = (if (Time.month date =? 2) && (Time.day date =? 29)
              then Time.mkTime (Time.year date - 1) 3 1
                               (Time.hour date) (Time.minute date) 0 0
              else Time.mkTime (Time.year date - 1) (Time.month date)
                               (Time.day date) (Time.hour date)
                               (Time.minute date) 0 0)
        /\ 365 <= Time.absDays date - Time.absDays (Date info) <= 366
        /\ Time.absSeconds date - Time.absSeconds (Date info)
           = (Time.absDays date - Time.absDays (Date info)) * 86400)
    /\ (Time.After date (now c) = false -> Date info = date)
    /\ (date = now c -> Date info = date).
Proof.
  unfold scanLine.
  destruct (length (Strings.Fields line) <? 9)%nat; [done|].
  destruct (Strconv.ParseInt _) as [size|]; [|done].
  destruct (lineDate _ _) as [date|] eqn:Hdate; [|done].
  intros [= <- <-]. exists date. split; [done|].
  assert (Hvalid : validTime date).
  { unfold lineDate, parseDate in Hdate.
    destruct (Time.Parse Time.layoutDateTime _) as [date'|] eqn:Hparse.
    - injection Hdate as <-. by eapply Parse_layoutDateTime_valid.
    - by eapply Parse_layoutDate_valid. }
  unfold futureCorrection. simpl. split; [|split].
  - intros ->. pose proof (AddDate_year_back_days date Hvalid) as [Hdays Hsecs].
    pose proof (AddDate_year_back date Hvalid) as Hback.
    repeat split; try done; try lia.
    rewrite Hback. by destruct ((Time.month date =? 2) && (Time.day date =? 29)).
  - by intros ->.
  - intros ->. by rewrite After_irrefl.
Qed.

(* ===================================================================== *)
(** * Properties of [EmptyDirs]                                           *)
(* ===================================================================== *)

Section emptyDirs.

Implicit Types (files dirs : list string) (s : gset string).

Lemma foldl_delete s (l : list string) :
  foldl (fun s x => s ∖ {[ x ]}) s l = s ∖ list_to_set l.
Proof.
  revert s. induction l as [|x l IH]; intros s; simpl.
  - by rewrite difference_empty_L.
  - rewrite IH. apply set_eq. intros y.
    rewrite !elem_of_difference, elem_of_union. tauto.
Qed.

Lemma foldl_delete_map {A} (f : A -> string) s (l : list A) :
  foldl (fun s x => s ∖ {[ f x ]}) s l = s ∖ list_to_set (f <$> l).
Proof.
  revert s. induction l as [|x l IH]; intros s; simpl.
  - by rewrite difference_empty_L.
  - rewrite IH. apply set_eq. intros y.
    rewrite !elem_of_difference, elem_of_union. tauto.
Qed.

Lemma foldl_delete_bind {A} (f : A -> list string) s (l : list A) :
  foldl (fun s x => foldl (fun s p => s ∖ {[ p ]}) s (f x)) s l
  = s ∖ list_to_set (l ≫= f).
Proof.
  revert s. induction l as [|x l IH]; intros s; simpl.
  - by rewrite difference_empty_L.
  - rewrite IH, foldl_delete. apply set_eq. intros y.
    rewrite !elem_of_difference, list_to_set_app_L, elem_of_union. tauto.
Qed.

(** What [EmptyDirs] keeps: the directories that are neither
    [filepath.Dir(file) + "/"] for a file nor one of the names built
    from the leading components of a directory.  The result depends on
    the members of [files] and [dirs] only, not on their order. *)
Lemma emptyDirsSet_elem files dirs dir :
  dir ∈ emptyDirsSet files dirs
  <-> dir ∈ dirs
      /\ (forall file, file ∈ files -> dir <> Filepath.Dir file +:+ "/")
      /\ (forall dir', dir' ∈ dirs -> dir ∉ parentDirs dir').
Proof.
  unfold emptyDirsSet.
  rewrite foldl_delete_bind,
    (foldl_delete_map (fun file => Filepath.Dir file +:+ "/")).
  rewrite !elem_of_difference, !elem_of_list_to_set,
    list_elem_of_fmap, list_elem_of_bind.
  split.
  - intros [[Hin Hfiles] Hdirs]. split; [done|]. split.
    + intros file Hfile ->. apply Hfiles. by exists file.
    + intros dir' Hdir' Hparent. apply Hdirs. by exists dir'.
  - intros (Hin & Hfiles & Hdirs). split; [split; [done|]|].
    + intros (file & -> & Hfile). by apply (Hfiles file).
    + intros (dir' & Hparent & Hdir'). by apply (Hdirs dir').
Qed.

Lemma EmptyDirs_elem files dirs dir :
  dir ∈ EmptyDirs files dirs <-> dir ∈ emptyDirsSet files dirs.
Proof. unfold EmptyDirs. apply elem_of_elements. Qed.

Lemma EmptyDirs_NoDup files dirs : NoDup (EmptyDirs files dirs).
Proof. apply NoDup_elements. Qed.

Lemma emptyDirsSet_Permutation files files' dirs dirs' :
  files ≡ₚ files' -> dirs ≡ₚ dirs' ->
  emptyDirsSet files dirs = emptyDirsSet files' dirs'.
Proof.
  intros Hf Hd. apply set_eq. intros dir. rewrite !emptyDirsSet_elem.
  by setoid_rewrite Hf; setoid_rewrite Hd.
Qed.

(** The two examples of the specification. *)
Lemma EmptyDirs_examples :
  EmptyDirs ["a/b/c.txt"] ["a/"; "a/b/"] = []
  /\ EmptyDirs [] ["x/"; "y/"] ≡ₚ ["x/"; "y/"].
Proof.
  split; [by vm_compute|].
  assert (EmptyDirs [] ["x/"; "y/"] = ["y/"; "x/"]) as -> by (by vm_compute).
  apply perm_swap.
Qed.

End emptyDirs.

(** C7 on names that start with [./]: [filepath.Dir] cleans the path, so
    the name deleted for the file [./a/c.txt] is [a/], and the directory
    [./a/], which holds that file, is returned as empty. *)
Theorem EmptyDirs_dot_slash :
  Filepath.Dir "./a/c.txt" +:+ "/" = "a/"
  /\ "./a/c.txt" = "./a/" +:+ "c.txt"
  /\ EmptyDirs ["./a/c.txt"] ["./a/"] = ["./a/"].
Proof. repeat split; by vm_compute. Qed.

(* ===================================================================== *)
(** * The inventory of four files                                         *)
(* ===================================================================== *)

Section fourFiles.

Lemma directories_none (inventory : gmap string FileInfo) :
  (forall name info, inventory !! name = Some info -> isDirName name = false) ->
  directories inventory = [].
Proof.
  intros Hfiles. unfold directories.
  assert (Hall : Forall (fun name => isDirName name = false) (map_to_list inventory).*1).
  { apply Forall_forall. intros name [[name' info] [-> Hin]]%list_elem_of_fmap.
    apply elem_of_map_to_list in Hin. by apply (Hfiles _ info). }
  induction Hall as [|name names Hname _ IH]; [done|].
  rewrite filter_cons_False; [done|]. by rewrite Hname.
Qed.

Lemma EmptyDirs_no_dirs (files : list string) : EmptyDirs files [] = [].
Proof.
  destruct (EmptyDirs files []) as [|dir rest] eqn:Heq; [done|].
  assert (Hin : dir ∈ EmptyDirs files []) by (rewrite Heq; left).
  apply EmptyDirs_elem, emptyDirsSet_elem in Hin as [Hin _].
  by apply elem_of_nil in Hin.
Qed.

(** An inventory without directories is the target set. *)
Lemma filesToExtractOf_files (inventory : gmap string FileInfo) :
  (forall name info, inventory !! name = Some info -> isDirName name = false) ->
  filesToExtractOf inventory = inventory.
Proof.
  intros Hfiles. unfold filesToExtractOf.
  rewrite (directories_none inventory Hfiles), EmptyDirs_no_dirs.
  cbn [foldl]. unfold nonDirectories. apply map_filter_id.
  intros name info Hlookup. by apply (Hfiles name info).
Qed.

End fourFiles.

(** C3.  An inventory of exactly four files, of sizes 100, 10, 10 and 10,
    a receiver with two workers and no previous snapshot: in whatever
    order the sort leaves the three small files, the distribution of
    [FileGroups] ends with two groups, the first with the file of size 100
    alone and size 100, the second with the three files of size 10 and
    size 30, and [FileGroups] returns these two file lists.  The
    executable order is sorted by descending size; and in every round of
    the loop the target goes to a group whose size is the smallest, the
    first such group of the slice. *)
Theorem FileGroups_100_10_10_10
    (order : gmap string FileInfo -> list fileEntry) (rs : GoSnapper) (w : World)
    (n0 n1 n2 n3 : string) (d0 d1 d2 d3 : Time.Time) :
  validOrder order ->
  tpsize rs = 2 ->
  Previous (options rs) = None ->
  Forall (fun name => isDirName name = false) [n0; n1; n2; n3] ->
  map_to_list (default ∅ (GetFiles rs w).1.1)
  ≡ₚ [(n0, mkFileInfo 100 d0); (n1, mkFileInfo 10 d1);
      (n2, mkFileInfo 10 d2); (n3, mkFileInfo 10 d3)] ->
  (exists small,
      small ≡ₚ [n1; n2; n3]
      /\ groupsOf (tpsize rs) (Previous (options rs))
                  (order (FilesToExtract rs w).1.1)
         = Ok [Group.mk [n0] 100; Group.mk small 30]
      /\ (FileGroupsWith order rs w).1.1 = Ok [[n0]; small])
  /\ validOrder sortEntries
  /\ (forall previous entry groups groups',
        assign previous entry groups = Ok groups' ->
        exists i g,
          groups !! i = Some g
          /\ (forall j g', groups !! j = Some g' -> Group.Size g <= Group.Size g')
          /\ (forall j g', (j < i)%nat -> groups !! j = Some g' ->
                           Group.Size g < Group.Size g')
          /\ groups' = <[i := Group.Add g (Name entry) (effectiveSize previous entry)]> groups).
Proof.
  intros Horder HK Hprevious Hnames Hinventory.
  split; [|split; [apply sortEntries_valid|apply assign_spec]].
  set (inventory := default ∅ (GetFiles rs w).1.1) in *.
  assert (Htargets : (FilesToExtract rs w).1.1 = inventory).
  { assert (Heq : (FilesToExtract rs w).1.1 = filesToExtractOf inventory).
    { unfold inventory, FilesToExtract.
      by destruct (GetFiles rs w) as [[allFiles rs'] out]. }
    rewrite Heq. apply filesToExtractOf_files. intros name info Hlookup.
    apply elem_of_map_to_list in Hlookup. rewrite Hinventory in Hlookup.
    rewrite Forall_forall in Hnames. apply Hnames.
    repeat (apply elem_of_cons in Hlookup as [[= -> _]|Hlookup];
            [repeat first [by left | right]|]).
    by apply elem_of_nil in Hlookup. }
  destruct (Horder inventory) as [Hperm Hsorted].
  assert (Hentries : order inventory
                     ≡ₚ [mkFileEntry n0 (mkFileInfo 100 d0);
                         mkFileEntry n1 (mkFileInfo 10 d1);
                         mkFileEntry n2 (mkFileInfo 10 d2);
                         mkFileEntry n3 (mkFileInfo 10 d3)]).
  { rewrite Hperm. unfold toEntries. by rewrite Hinventory. }
  destruct (groupsOf_100_10_10_10 n0 n1 n2 n3 d0 d1 d2 d3 (order inventory)
              Hentries Hsorted)
    as (small & Hsmall & Hgroups & Hfiles).
  exists small. rewrite Htargets, HK, Hprevious.
  split; [done|]. split; [done|].
  assert (Hgroups' : groupsOf (tpsize rs) (Previous (options rs))
                       (order (FilesToExtract rs w).1.1)
                     = Ok [Group.mk [n0] 100; Group.mk small 30])
    by (by rewrite Htargets, HK, Hprevious).
  by rewrite (FileGroupsWith_groupsOf order rs w _ Hgroups'), Hfiles.
Qed.

(* ===================================================================== *)
(** * The theorems at concrete inputs                                     *)
(* ===================================================================== *)

(** A listing of four files of sizes 100, 10, 10 and 10, a directory and a
    line that is no entry; the clock stands at October 30, 2026, noon.  The
    client of worker 0 prints a line of its own, a benign message and the
    delayed error; the client of worker 1 does not start. *)
Definition exampleListing : list string :=
  ["-rw-r--r-- 0 user group 100 Jan 2 2020 big";
   "-rw-r--r-- 0 user group 10 Jan 2 2020 s1";
   "-rw-r--r-- 0 user group 10 Jan 2 2020 s2";
   "-rw-r--r-- 0 user group 10 Dec 24 12:30 s3";
   "drwxr-xr-x 0 user group 0 Jan 2 2020 empty/";
   "tarsnap: something else"].

Definition exampleClock : Clock := mkClock 2026 (Time.mkTime 2026 10 30 12 0 0 0).

Definition exampleWorld : World :=
  mkWorld (Started exampleListing false) (fun _ => exampleClock)
    (fun idx =>
       match idx with
       | O => Started ["x big"; "big: Already exists"; exitErrorText] true
       | _ => StartError
       end).

Definition exampleReceiver : GoSnapper :=
  NewGoSnapper "archive" (mkOptions "" 2 [] None).

Lemma FileGroups_partition_witness :
  1 <= tpsize exampleReceiver
  /\ (forall targets, sortEntries targets ≡ₚ toEntries targets)
  /\ (FileGroupsWith sortEntries exampleReceiver exampleWorld).1.1
     = Ok [["big"]; ["s3"; "s1"; "s2"; "empty/"]]
  /\ exists groups,
      groupsOf (tpsize exampleReceiver) (Previous (options exampleReceiver))
               (sortEntries (FilesToExtract exampleReceiver exampleWorld).1.1)
      = Ok groups
      /\ (FileGroupsWith sortEntries exampleReceiver exampleWorld).1.1
         = Ok (nonEmptyFiles groups)
      /\ NoDup (concat (nonEmptyFiles groups))
      /\ Z.of_nat (length (nonEmptyFiles groups)) <= tpsize exampleReceiver.
Proof.
  assert (HK : 1 <= tpsize exampleReceiver) by (vm_compute; discriminate).
  assert (Horder : forall targets, sortEntries targets ≡ₚ toEntries targets)
    by (intros targets; apply merge_sort_Permutation).
  split; [exact HK|]. split; [exact Horder|].
  split; [vm_compute; reflexivity|].
  destruct (FileGroups_partition sortEntries exampleReceiver exampleWorld HK Horder)
    as (_ & groups & Hgroups & Hfg & _ & Hnodup & _ & _ & Hlen).
  exists groups. split; [exact Hgroups|]. split; [exact Hfg|].
  split; [exact Hnodup|exact Hlen].
Defined.

(** A listing of two files of 2^62 bytes each, and a receiver with one
    worker. *)
Definition hugeListing : list string :=
  ["-rw-r--r-- 0 user group 4611686018427387904 Jan 2 2020 a";
   "-rw-r--r-- 0 user group 4611686018427387904 Jan 2 2020 b"].

Definition hugeWorld : World :=
  mkWorld (Started hugeListing false) (fun _ => exampleClock)
    (fun _ => Started [] false).

Definition singleReceiver : GoSnapper :=
  NewGoSnapper "archive" (mkOptions "" 1 [] None).

(** C1, as stated, fails: with one worker both files go to the one group,
    whose [int64] size wraps around to -2^63, while the effective sizes of
    its members add up to 2^63. *)
Lemma FileGroups_size_overflow :
  1 <= tpsize singleReceiver
  /\ (FileGroupsWith sortEntries singleReceiver hugeWorld).1.1 = Ok [["a"; "b"]]
  /\ groupsOf (tpsize singleReceiver) (Previous (options singleReceiver))
              (sortEntries (FilesToExtract singleReceiver hugeWorld).1.1)
     = Ok [Group.mk ["a"; "b"] (-9223372036854775808)]
  /\ sumZ (weightOf (Previous (options singleReceiver))
                    (FilesToExtract singleReceiver hugeWorld).1.1
            <$> ["a"; "b"])
     = 9223372036854775808
  /\ Group.Size (Group.mk ["a"; "b"] (-9223372036854775808))
     <> sumZ (weightOf (Previous (options singleReceiver))
                       (FilesToExtract singleReceiver hugeWorld).1.1
               <$> ["a"; "b"]).
Proof.
  split; [vm_compute; discriminate|].
  split; [vm_compute; reflexivity|].
  split; [vm_compute; reflexivity|].
  split; [vm_compute; reflexivity|].
  vm_compute. discriminate.
Qed.

Lemma Run_diagnostics_witness :
  validSchedule (@concat Action)
  /\ (FileGroupsWith sortEntries (NewGoSnapper "archive" (mkOptions "" 2 [] None))
                     exampleWorld).1.1
     = Ok [["big"]; ["s3"; "s1"; "s2"; "empty/"]]
  /\ match Run exampleReceiver exampleWorld with
     | Returned _ out | Panicked _ out => out
     end
     = [ScanComplete 5; CreatingWorkers 2; ThreadStarted 0 1; Forwarded "x big";
        ThreadCompleted 0 1; ThreadStarted 1 4; ErrStartWorker; DelayedError]
  /\ exists rs' out,
      RunWith sortEntries (@concat Action)
              (NewGoSnapper "archive" (mkOptions "" 2 [] None)) exampleWorld
      = Returned rs' out
      /\ errorOccured rs' = true
      /\ exists out', out = out' ++ [DelayedError] /\ DelayedError ∉ out'.
Proof.
  assert (Hfg : (FileGroupsWith sortEntries
                   (NewGoSnapper "archive" (mkOptions "" 2 [] None)) exampleWorld).1.1
                = Ok [["big"]; ["s3"; "s1"; "s2"; "empty/"]])
    by (vm_compute; reflexivity).
  split; [exact concat_valid|]. split; [exact Hfg|].
  split; [vm_compute; reflexivity|].
  destruct (Run_diagnostics sortEntries (@concat Action) "archive"
              (mkOptions "" 2 [] None) exampleWorld
              [["big"]; ["s3"; "s1"; "s2"; "empty/"]] concat_valid Hfg)
    as (_ & rs' & out & HRun & _ & Hflagged & _).
  exists rs', out. split; [exact HRun|]. apply Hflagged.
  exists 0%nat, ["big"], ["x big"; "big: Already exists"; exitErrorText], true.
  split; [reflexivity|]. split; [reflexivity|].
  right. right. left.
Defined.

(** The four files alone; every client starts and prints nothing. *)
Definition fourListing : list string :=
  ["-rw-r--r-- 0 user group 100 Jan 2 2020 big";
   "-rw-r--r-- 0 user group 10 Jan 2 2020 s1";
   "-rw-r--r-- 0 user group 10 Jan 2 2020 s2";
   "-rw-r--r-- 0 user group 10 Dec 24 12:30 s3"].

Definition fourWorld : World :=
  mkWorld (Started fourListing false) (fun _ => exampleClock)
    (fun _ => Started [] false).

Lemma FileGroups_100_10_10_10_witness :
  validOrder sortEntries
  /\ tpsize exampleReceiver = 2
  /\ Previous (options exampleReceiver) = None
  /\ Forall (fun name => isDirName name = false) ["big"; "s3"; "s1"; "s2"]
  /\ map_to_list (default ∅ (GetFiles exampleReceiver fourWorld).1.1)
     ≡ₚ [("big", mkFileInfo 100 (Time.mkTime 2020 1 2 0 0 0 0));
         ("s3", mkFileInfo 10 (Time.mkTime 2025 12 24 12 30 0 0));
         ("s1", mkFileInfo 10 (Time.mkTime 2020 1 2 0 0 0 0));
         ("s2", mkFileInfo 10 (Time.mkTime 2020 1 2 0 0 0 0))]
  /\ exists small,
      small ≡ₚ ["s3"; "s1"; "s2"]
      /\ groupsOf (tpsize exampleReceiver) (Previous (options exampleReceiver))
                  (sortEntries (FilesToExtract exampleReceiver fourWorld).1.1)
         = Ok [Group.mk ["big"] 100; Group.mk small 30]
      /\ (FileGroupsWith sortEntries exampleReceiver fourWorld).1.1
         = Ok [["big"]; small].
Proof.
  assert (Hnames : Forall (fun name => isDirName name = false)
                          ["big"; "s3"; "s1"; "s2"]).
  { repeat apply Forall_cons_2; [..|apply Forall_nil_2]; reflexivity. }
  assert (Hlist : map_to_list (default ∅ (GetFiles exampleReceiver fourWorld).1.1)
                  = [("s3", mkFileInfo 10 (Time.mkTime 2025 12 24 12 30 0 0));
                     ("s1", mkFileInfo 10 (Time.mkTime 2020 1 2 0 0 0 0));
                     ("s2", mkFileInfo 10 (Time.mkTime 2020 1 2 0 0 0 0))]
                    ++ [("big", mkFileInfo 100 (Time.mkTime 2020 1 2 0 0 0 0))])
    by (vm_compute; reflexivity).
  assert (Hinventory :
            map_to_list (default ∅ (GetFiles exampleReceiver fourWorld).1.1)
            ≡ₚ [("big", mkFileInfo 100 (Time.mkTime 2020 1 2 0 0 0 0));
                ("s3", mkFileInfo 10 (Time.mkTime 2025 12 24 12 30 0 0));
                ("s1", mkFileInfo 10 (Time.mkTime 2020 1 2 0 0 0 0));
                ("s2", mkFileInfo 10 (Time.mkTime 2020 1 2 0 0 0 0))]).
  { rewrite Hlist. symmetry. apply Permutation_cons_append. }
  split; [exact sortEntries_valid|]. split; [reflexivity|]. split; [reflexivity|].
  split; [exact Hnames|]. split; [exact Hinventory|].
  exact (proj1 (FileGroups_100_10_10_10 sortEntries exampleReceiver fourWorld
                  "big" "s3" "s1" "s2" _ _ _ _
                  sortEntries_valid (reflexivity _) (reflexivity _)
                  Hnames Hinventory)).
Defined.

Definition examplePrevious : option (gmap string FileInfo) :=
  Some {[ "big" := mkFileInfo 100 (Time.mkTime 2020 1 2 0 0 0 0) ]}.

Definition unchangedEntry : fileEntry :=
  mkFileEntry "big" (mkFileInfo 100 (Time.mkTime 2020 1 2 0 0 0 0)).

Lemma effectiveSize_discount_witness :
  unchanged examplePrevious unchangedEntry
  /\ effectiveSize examplePrevious unchangedEntry = 0
  /\ 1 <= 2
  /\ groupsOf 2 examplePrevious [mkFileEntry "s1" (mkFileInfo 10 Time.zero)]
     = Ok [Group.mk ["s1"] 10; Group.mk [] 0]
  /\ exists i g,
      [Group.mk ["s1"] 10; Group.mk [] 0] !! i = Some g
      /\ assign examplePrevious unchangedEntry [Group.mk ["s1"] 10; Group.mk [] 0]
         = Ok (<[i := Group.mk (Group.Files g ++ [Name unchangedEntry]) (Group.Size g)]>
                 [Group.mk ["s1"] 10; Group.mk [] 0]).
Proof.
  assert (Hunchanged : unchanged examplePrevious unchangedEntry).
  { exists {[ "big" := mkFileInfo 100 (Time.mkTime 2020 1 2 0 0 0 0) ]},
      (mkFileInfo 100 (Time.mkTime 2020 1 2 0 0 0 0)).
    split; [reflexivity|]. split; [vm_compute; reflexivity|].
    split; [reflexivity|]. split; reflexivity. }
  assert (Hgroups : groupsOf 2 examplePrevious [mkFileEntry "s1" (mkFileInfo 10 Time.zero)]
                    = Ok [Group.mk ["s1"] 10; Group.mk [] 0])
    by (vm_compute; reflexivity).
  assert (HK : 1 <= 2) by lia.
  destruct (effectiveSize_discount examplePrevious unchangedEntry 2
              [mkFileEntry "s1" (mkFileInfo 10 Time.zero)]
              [Group.mk ["s1"] 10; Group.mk [] 0]) as (Hzero & _ & Hjoin).
  specialize (Hzero Hunchanged).
  destruct (Hjoin HK Hgroups Hzero) as (i & g & Hg & _ & _ & Hassign & _).
  split; [exact Hunchanged|]. split; [exact Hzero|]. split; [exact HK|].
  split; [exact Hgroups|]. exists i, g. split; [exact Hg|exact Hassign].
Defined.

Definition timeLine : string :=
  "-rw-r--r--  0 user group  1234 Jan  2 12:30 some dir/a file.txt".

Lemma scanLine_entry_witness :
  scanLine exampleClock timeLine
  = Some ("some dir/a file.txt", mkFileInfo 1234 (Time.mkTime 2026 1 2 12 30 0 0))
  /\ Strconv.ParseInt (nth 4 (Strings.Fields timeLine) "") = Some 1234
  /\ "some dir/a file.txt" = Strings.Join (drop 8 (Strings.Fields timeLine)) " "
  /\ scanLine exampleClock "-rw-r--r-- 0 user group 12 Jan 2 2020" = None
  /\ scanLine exampleClock "-rw-r--r-- 0 user group 1k Jan 2 2020 name" = None
  /\ scanLine exampleClock "-rw-r--r-- 0 user group 12 Jan 2 20:20:20 name" = None
  /\ scanLine exampleClock "-rw-r--r-- 0 user group 12 Feb 29 12:30 name" = None.
Proof.
  assert (Hline : scanLine exampleClock timeLine
                  = Some ("some dir/a file.txt",
                          mkFileInfo 1234 (Time.mkTime 2026 1 2 12 30 0 0)))
    by (vm_compute; reflexivity).
  destruct (scanLine_entry exampleClock timeLine) as (_ & Hentry & _).
  destruct (Hentry _ _ Hline) as [Hsize Hname].
  split; [exact Hline|]. split; [exact Hsize|]. split; [exact Hname|].
  repeat split; vm_compute; reflexivity.
Defined.

Definition futureLine : string := "-rw-r--r-- 0 user group 10 Dec 24 12:30 s3".

Lemma scanLine_future_correction_witness :
  scanLine exampleClock futureLine
  = Some ("s3", mkFileInfo 10 (Time.mkTime 2025 12 24 12 30 0 0))
  /\ exists date,
      lineDate (currentYear exampleClock) (Strings.Fields futureLine) = Some date
      /\ (Time.After date (now exampleClock) = true ->
          Time.mkTime 2025 12 24 12 30 0 0 = Time.AddDate date (-1) 0 0)
      /\ date = Time.mkTime 2026 12 24 12 30 0 0
      /\ Time.After date (now exampleClock) = true.
Proof.
  assert (Hline : scanLine exampleClock futureLine
                  = Some ("s3", mkFileInfo 10 (Time.mkTime 2025 12 24 12 30 0 0)))
    by (vm_compute; reflexivity).
  split; [exact Hline|].
  destruct (scanLine_future_correction exampleClock futureLine "s3"
              (mkFileInfo 10 (Time.mkTime 2025 12 24 12 30 0 0)) Hline)
    as (date & Hdate & Hafter & _).
  exists date. split; [exact Hdate|].
  split; [intros H; exact (proj1 (Hafter H))|].
  assert (Hdate' : lineDate (currentYear exampleClock) (Strings.Fields futureLine)
                   = Some (Time.mkTime 2026 12 24 12 30 0 0))
    by (vm_compute; reflexivity).
  assert (date = Time.mkTime 2026 12 24 12 30 0 0) as -> by congruence.
  split; [reflexivity|vm_compute; reflexivity].
Defined.

Lemma Run_startup_failure_witness :
  files failingReceiver = None
  /\ startupFailure failingWorld
  /\ 0 <= tpsize failingReceiver
  /\ (forall targets, sortEntries targets ≡ₚ toEntries targets)
  /\ validSchedule (@concat Action)
  /\ exists err,
      GetFiles failingReceiver failingWorld = (None, failingReceiver, [err])
      /\ RunWith sortEntries (@concat Action) failingReceiver failingWorld
         = Returned failingReceiver
             ([err; CreatingWorkers 0]
              ++ if errorOccured failingReceiver then [DelayedError] else []).
Proof.
  assert (Hfiles : files failingReceiver = None) by reflexivity.
  assert (Hfail : startupFailure failingWorld) by (right; reflexivity).
  assert (Htp : 0 <= tpsize failingReceiver) by (vm_compute; discriminate).
  assert (Horder : forall targets, sortEntries targets ≡ₚ toEntries targets)
    by (intros targets; apply merge_sort_Permutation).
  split; [exact Hfiles|]. split; [exact Hfail|]. split; [exact Htp|].
  split; [exact Horder|]. split; [exact concat_valid|].
  destruct (Run_startup_failure sortEntries (@concat Action)
              failingReceiver failingWorld Hfiles Hfail Htp Horder concat_valid)
    as (err & _ & Hget & _ & HRun & _).
  exists err. split; [exact Hget|exact HRun].
Defined.

Definition sizeLine : string := "-rw-r--r-- 0 user group 100 Jan 2 2020 big".

Lemma scanLine_size_witness :
  scanLine exampleClock sizeLine
  = Some ("big", mkFileInfo 100 (Time.mkTime 2020 1 2 0 0 0 0))
  /\ Strconv.ParseInt (nth 4 (Strings.Fields sizeLine) "")
     = Some (Size (mkFileInfo 100 (Time.mkTime 2020 1 2 0 0 0 0)))
  /\ Strings.HasPrefix (nth 4 (Strings.Fields sizeLine) "") "-" = false
  /\ 0 <= Size (mkFileInfo 100 (Time.mkTime 2020 1 2 0 0 0 0)).
Proof.
  assert (Hline : scanLine exampleClock sizeLine
                  = Some ("big", mkFileInfo 100 (Time.mkTime 2020 1 2 0 0 0 0)))
    by (vm_compute; reflexivity).
  assert (Hsign : Strings.HasPrefix (nth 4 (Strings.Fields sizeLine) "") "-" = false)
    by (vm_compute; reflexivity).
  destruct (scanLine_size exampleClock sizeLine "big"
              (mkFileInfo 100 (Time.mkTime 2020 1 2 0 0 0 0)) Hline)
    as (Hparse & _ & Hpos).
  split; [exact Hline|]. split; [exact Hparse|]. split; [exact Hsign|].
  exact (Hpos Hsign).
Defined.

Definition negativeOptions : Options := mkOptions "" (-3) [] None.

Lemma NewGoSnapper_pool_size_witness :
  ThreadPoolSize negativeOptions < 0
  /\ tpsize (NewGoSnapper "archive" negativeOptions) = ThreadPoolSize negativeOptions
  /\ RunWith sortEntries (@concat Action) (NewGoSnapper "archive" negativeOptions)
             exampleWorld
     = Panicked "makeslice: len out of range" [].
Proof.
  assert (Hneg : ThreadPoolSize negativeOptions < 0) by (vm_compute; reflexivity).
  destruct (NewGoSnapper_pool_size "archive" negativeOptions
              sortEntries (@concat Action) exampleWorld) as (_ & Hpanic & _).
  destruct (Hpanic Hneg) as (Hkeep & _ & HRun).
  split; [exact Hneg|]. split; [exact Hkeep|exact HRun].
Defined.

(* ===================================================================== *)
(** * Further properties: the inventory                                   *)
(* ===================================================================== *)

Section cache.

Lemma GetFiles_of_cached rs w m :
  files rs = Some m -> GetFiles rs w = (Some m, rs, []).
Proof. intros Hfiles. unfold GetFiles. by rewrite Hfiles. Qed.

Lemma GetFiles_Some rs w m :
  (GetFiles rs w).1.1 = Some m -> files (GetFiles rs w).1.2 = Some m.
Proof.
  unfold GetFiles. destruct (files rs) as [m0|] eqn:Hfiles; cbn [fst snd].
  - by intros [= <-].
  - destruct (listing w) as [| |lines waitError]; cbn [fst snd files]; try done.
Qed.

Lemma GetFiles_None rs w :
  (GetFiles rs w).1.1 = None ->
  startupFailure w /\ files rs = None /\ (GetFiles rs w).1.2 = rs.
Proof.
  unfold GetFiles, startupFailure.
  destruct (files rs) as [m0|] eqn:Hfiles; cbn [fst snd]; [done|].
  destruct (listing w) as [| |lines waitError]; cbn [fst snd]; try done.
  - intros _. split; [by left|done].
  - intros _. split; [by right|done].
Qed.

End cache.

(** The inventory is read once.  After a call of [GetFiles] that returned
    an inventory, every later call, in whatever world, returns the same
    inventory, leaves the receiver as it is and writes nothing: the client
    is not run again.  A call that could not start the client caches
    nothing: the receiver is unchanged and still without inventory, so the
    next call runs the client again. *)
Theorem GetFiles_cached (rs : GoSnapper) (w w' : World) :
  (forall m, (GetFiles rs w).1.1 = Some m ->
             GetFiles (GetFiles rs w).1.2 w' = (Some m, (GetFiles rs w).1.2, []))
  /\ ((GetFiles rs w).1.1 = None ->
      startupFailure w /\ files rs = None /\ (GetFiles rs w).1.2 = rs
      /\ GetFiles (GetFiles rs w).1.2 w' = GetFiles rs w').
Proof.
  split.
  - intros m Hm. apply GetFiles_of_cached. by apply GetFiles_Some.
  - intros Hnone. destruct (GetFiles_None rs w Hnone) as (Hfail & Hfiles & Hrs).
    repeat split; try done. by rewrite Hrs.
Qed.

Section inventory.

Implicit Types (files : gmap string FileInfo) (lines : list string).

Lemma scanLines_app clock i lines lines' files :
  scanLines clock i (lines ++ lines') files
  = scanLines clock (i + length lines) lines' (scanLines clock i lines files).
Proof.
  revert i files. induction lines as [|line lines IH]; intros i files.
  - simpl. by rewrite Nat.add_0_r.
  - cbn [scanLines app length]. rewrite IH. f_equal. lia.
Qed.

(** Lines that do not give an entry of the name leave its lookup alone. *)
Lemma scanLines_lookup_other clock i lines files name :
  (forall j line info, lines !! j = Some line ->
                       scanLine (clock (i + j)%nat) line <> Some (name, info)) ->
  scanLines clock i lines files !! name = files !! name.
Proof.
  revert i files. induction lines as [|line lines IH]; intros i files Hother; [done|].
  cbn [scanLines]. rewrite IH.
  - pose proof (Hother 0%nat line) as Hline. rewrite Nat.add_0_r in Hline.
    destruct (scanLine (clock i) line) as [[name' info']|]; [|done].
    destruct (decide (name' = name)) as [->|Hne].
    + by destruct (Hline info' eq_refl).
    + by rewrite lookup_insert_ne.
  - intros j line' info Hj. replace (S i + j)%nat with (i + S j)%nat by lia.
    by apply Hother.
Qed.

Lemma scanLines_size clock i lines files :
  (size (scanLines clock i lines files) <= size files + length lines)%nat.
Proof.
  revert i files. induction lines as [|line lines IH]; intros i files.
  - simpl. lia.
  - cbn [scanLines length]. etrans; [apply IH|].
    destruct (scanLine (clock i) line) as [[name info]|]; [|lia].
    destruct (files !! name) eqn:Hname.
    + rewrite map_size_insert_Some by done. lia.
    + rewrite map_size_insert_None by done. lia.
Qed.

End inventory.

(** The inventory holds one entry a name, that of the last line of the
    name: when the line after [before] gives an entry of [name] and no
    later line does, that entry is what the inventory has for [name]; a
    name no line gives has no entry; and the inventory has at most as
    many entries as the listing has lines. *)
Theorem scanLines_last_line_wins
    (clock : nat -> Clock) (before after : list string) (line name : string)
    (info : FileInfo) :
  scanLine (clock (length before)) line = Some (name, info) ->
  (forall j line' info', after !! j = Some line' ->
     scanLine (clock (length before + 1 + j)%nat) line' <> Some (name, info')) ->
  scanLines clock 0 (before ++ line :: after) ∅ !! name = Some info
  /\ (forall other,
        (forall j line' info', (before ++ line :: after) !! j = Some line' ->
           scanLine (clock j) line' <> Some (other, info')) ->
        scanLines clock 0 (before ++ line :: after) ∅ !! other = None)
  /\ (size (scanLines clock 0 (before ++ line :: after) ∅)
      <= length (before ++ line :: after))%nat.
Proof.
  intros Hline Hafter. split; [|split].
  - rewrite scanLines_app. cbn [scanLines]. rewrite Nat.add_0_l, Hline.
    rewrite scanLines_lookup_other.
    + apply lookup_insert_eq.
    + intros j line' info' Hj.
      replace (S (length before) + j)%nat with (length before + 1 + j)%nat by lia.
      by apply Hafter.
  - intros other Hother. rewrite scanLines_lookup_other; [done|].
    intros j line' info' Hj. by apply Hother.
  - pose proof (scanLines_size clock 0 (before ++ line :: after) ∅) as Hsize.
    rewrite map_size_empty in Hsize. lia.
Qed.

Definition firstLine : string := "-rw-r--r-- 0 user group 100 Jan 2 2020 f".
Definition secondLine : string := "-rw-r--r-- 0 user group 7 Jan 3 2020 f".

Lemma scanLines_last_line_wins_witness :
  scanLine exampleClock secondLine
  = Some ("f", mkFileInfo 7 (Time.mkTime 2020 1 3 0 0 0 0))
  /\ scanLines (fun _ => exampleClock) 0 ([firstLine] ++ secondLine :: ["junk"]) ∅ !! "f"
     = Some (mkFileInfo 7 (Time.mkTime 2020 1 3 0 0 0 0)).
Proof.
  assert (Hline : scanLine exampleClock secondLine
                  = Some ("f", mkFileInfo 7 (Time.mkTime 2020 1 3 0 0 0 0)))
    by (vm_compute; reflexivity).
  split; [exact Hline|].
  refine (proj1 (scanLines_last_line_wins (fun _ => exampleClock) [firstLine] ["junk"]
                   secondLine "f" _ Hline _)).
  intros [|[|j]] line' info' Hj; [|discriminate Hj..].
  injection Hj as <-. vm_compute. discriminate.
Defined.

(* ===================================================================== *)
(** * Further properties: the extraction targets                          *)
(* ===================================================================== *)

Section targetLookup.

Implicit Types (inventory targets : gmap string FileInfo).

Lemma lookup_foldl_insert (v : FileInfo) (l : list string) targets name :
  foldl (fun m dir => <[dir := v]> m) targets l !! name
  = if decide (name ∈ l) then Some v else targets !! name.
Proof.
  revert targets. induction l as [|d l IH]; intros targets; cbn [foldl].
  - destruct (decide (name ∈ [])) as [Hin%elem_of_nil|]; done.
  - rewrite IH.
    destruct (decide (name ∈ l)) as [Hin|Hnotin],
             (decide (name ∈ d :: l)) as [Hin'|Hnotin']; try done.
    + destruct Hnotin'. by right.
    + apply elem_of_cons in Hin' as [->|?]; [|done]. apply lookup_insert_eq.
    + apply lookup_insert_ne. intros ->. apply Hnotin'. by left.
Qed.

Lemma directories_elem inventory name :
  name ∈ directories inventory
  <-> isDirName name = true /\ is_Some (inventory !! name).
Proof.
  unfold directories. rewrite list_elem_of_filter, list_elem_of_fmap. split.
  - intros [Hdir ([name' info] & -> & Hin%elem_of_map_to_list)]. by eauto.
  - intros [Hdir [info Hin]]. split; [done|].
    exists (name, info). split; [done|]. by apply elem_of_map_to_list.
Qed.

Lemma nonDirectories_lookup inventory name :
  nonDirectories inventory !! name
  = if isDirName name then None else inventory !! name.
Proof.
  unfold nonDirectories. destruct (isDirName name) eqn:Hdir.
  - apply map_lookup_filter_None. right. intros info _. simpl. by rewrite Hdir.
  - destruct (inventory !! name) as [info|] eqn:Hname.
    + by apply map_lookup_filter_Some.
    + apply map_lookup_filter_None. by left.
Qed.

Lemma EmptyDirs_directories inventory files' name :
  name ∈ EmptyDirs files' (directories inventory) ->
  isDirName name = true /\ is_Some (inventory !! name).
Proof.
  intros (Hin & _)%EmptyDirs_elem%emptyDirsSet_elem. by apply directories_elem.
Qed.

End targetLookup.

(** What [FilesToExtract] holds for a name: an entry that is no directory
    keeps the size and date of the inventory; a directory is a target only
    if [EmptyDirs] returns it, and then with size 0 and the zero time,
    whatever the listing said of it; no other name is a target. *)
Theorem filesToExtractOf_lookup (inventory : gmap string FileInfo) (name : string) :
  let emptyDirs :=
    EmptyDirs (map_to_list (nonDirectories inventory)).*1 (directories inventory) in
  (isDirName name = false -> filesToExtractOf inventory !! name = inventory !! name)
  /\ (isDirName name = true -> name ∈ emptyDirs ->
      is_Some (inventory !! name)
      /\ filesToExtractOf inventory !! name = Some (mkFileInfo 0 Time.zero))
  /\ (isDirName name = true -> name ∉ emptyDirs ->
      filesToExtractOf inventory !! name = None).
Proof.
  intros emptyDirs. unfold filesToExtractOf. fold emptyDirs.
  rewrite lookup_foldl_insert, nonDirectories_lookup. split; [|split].
  - intros Hfile. rewrite Hfile. rewrite decide_False; [done|].
    intros [Hdir _]%EmptyDirs_directories. congruence.
  - intros Hdir Hin. split; [by apply EmptyDirs_directories in Hin as [_ ?]|].
    by rewrite decide_True.
  - intros Hdir Hnotin. by rewrite decide_False, Hdir.
Qed.

(* ===================================================================== *)
(** * Further properties: [EmptyDirs] in terms of the names               *)
(* ===================================================================== *)

Section splitJoin.

Implicit Types (s x q : string) (c : ascii) (l : list string).

Lemma Split_nonempty s c : Strings.Split s c <> [].
Proof.
  destruct s as [|a s]; [done|]. cbn [Strings.Split].
  destruct (decide (a = c)); [done|]. by destruct (Strings.Split s c).
Qed.

Lemma Split_cons_ne a s c :
  a <> c ->
  Strings.Split (String a s) c
  = match Strings.Split s c with
    | piece :: rest => String a piece :: rest
    | [] => [String a ""]
    end.
Proof. intros Hne. cbn [Strings.Split]. by rewrite decide_False. Qed.

Lemma Split_cons_eq s c : Strings.Split (String c s) c = "" :: Strings.Split s c.
Proof. cbn [Strings.Split]. by rewrite decide_True. Qed.

Lemma Join_cons_cons e e' l sep :
  Strings.Join (e :: e' :: l) sep = e +:+ sep +:+ Strings.Join (e' :: l) sep.
Proof. reflexivity. Qed.

(** Joining the pieces a text splits into gives the text back. *)
Lemma Join_Split s c : Strings.Join (Strings.Split s c) (String c "") = s.
Proof.
  induction s as [|a s IH]; [done|].
  destruct (decide (a = c)) as [->|Hne].
  - rewrite Split_cons_eq.
    destruct (Strings.Split s c) as [|piece rest] eqn:Hsplit;
      [by destruct (Split_nonempty s c)|].
    by rewrite Join_cons_cons, IH.
  - rewrite Split_cons_ne by done.
    destruct (Strings.Split s c) as [|piece [|piece' rest]] eqn:Hsplit;
      [by destruct (Split_nonempty s c)|..].
    + cbn [Strings.Join] in *. by rewrite IH.
    + rewrite Join_cons_cons in *. by rewrite app_cons, IH.
Qed.

(** A text splits at a separator into the pieces before and after it. *)
Lemma Split_app_sep x q c :
  Strings.Split (x +:+ String c q) c = Strings.Split x c ++ Strings.Split q c.
Proof.
  induction x as [|a x IH].
  - rewrite app_empty_l. apply Split_cons_eq.
  - rewrite app_cons. destruct (decide (a = c)) as [->|Hne].
    + by rewrite !Split_cons_eq, IH.
    + rewrite !Split_cons_ne, IH by done.
      destruct (Strings.Split x c) as [|piece rest] eqn:Hsplit;
        [by destruct (Split_nonempty x c)|done].
Qed.

Lemma Join_app l1 l2 sep :
  l1 <> [] -> l2 <> [] ->
  Strings.Join (l1 ++ l2) sep = Strings.Join l1 sep +:+ sep +:+ Strings.Join l2 sep.
Proof.
  intros Hl1 Hl2. induction l1 as [|e [|e' l1] IH]; [done|..].
  - destruct l2 as [|e2 l2]; [done|]. reflexivity.
  - change ((e :: e' :: l1) ++ l2) with (e :: e' :: (l1 ++ l2)).
    rewrite !Join_cons_cons.
    change (e' :: l1 ++ l2) with ((e' :: l1) ++ l2).
    rewrite IH by done. by rewrite !app_assoc.
Qed.

(** The names the inner loop of [EmptyDirs] deletes for a directory: the
    fronts of its name, the final slash apart, that end in a slash. *)
Lemma parentDirs_elem p dir :
  p ∈ parentDirs dir
  <-> EndsWith p "/" /\ exists q, Strings.TrimSuffix dir "/" = p +:+ q.
Proof.
  unfold parentDirs.
  set (t := Strings.TrimSuffix dir "/").
  pose proof (Join_Split t "/") as Hjoin.
  pose proof (Split_nonempty t "/") as Hne.
  set (components := Strings.Split t "/") in *.
  rewrite list_elem_of_fmap. split.
  - intros (i & -> & Hi%elem_of_seq). split; [by eexists|].
    exists (Strings.Join (drop (S i) components) "/").
    rewrite app_assoc, <- Join_app.
    + by rewrite list.take_drop.
    + intros Heq%(f_equal length). rewrite list.length_take in Heq.
      change (length (@nil string)) with 0%nat in Heq. lia.
    + intros Heq%(f_equal length). rewrite list.length_drop in Heq.
      change (length (@nil string)) with 0%nat in Heq. lia.
  - intros [[x ->] [q Ht]].
    assert (Hsplit : components = Strings.Split x "/" ++ Strings.Split q "/").
    { unfold components.
      by rewrite Ht, app_assoc, (app_cons "/" "" q), app_empty_l, Split_app_sep. }
    pose proof (Split_nonempty x "/") as Hx.
    pose proof (Split_nonempty q "/") as Hq.
    exists (length (Strings.Split x "/") - 1)%nat. split.
    + f_equal.
      replace (S (length (Strings.Split x "/") - 1))
        with (length (Strings.Split x "/"))
        by (destruct (Strings.Split x "/"); [done|simpl; lia]).
      by rewrite Hsplit, list.take_app_length, Join_Split.
    + apply elem_of_seq. rewrite Hsplit, List.length_app.
      destruct (Strings.Split x "/"), (Strings.Split q "/"); simpl; try done; lia.
Qed.

End splitJoin.

(** [EmptyDirs] returns, each once, the directories that are neither
    [filepath.Dir(file) + "/"] for one of the files nor, for one of the
    directories, a front of its name (its final slash apart) that ends in
    a slash; the order of its arguments does not change what it returns,
    the order of the result apart. *)
Theorem EmptyDirs_characterisation (files dirs : list string) (dir : string) :
  (dir ∈ EmptyDirs files dirs
   <-> dir ∈ dirs
       /\ (forall file, file ∈ files -> dir <> Filepath.Dir file +:+ "/")
       /\ (forall dir' q, dir' ∈ dirs -> EndsWith dir "/" ->
                          Strings.TrimSuffix dir' "/" <> dir +:+ q))
  /\ NoDup (EmptyDirs files dirs)
  /\ (forall files' dirs',
        files ≡ₚ files' -> dirs ≡ₚ dirs' ->
        EmptyDirs files dirs ≡ₚ EmptyDirs files' dirs').
Proof.
  split; [|split].
  - rewrite EmptyDirs_elem, emptyDirsSet_elem. split.
    + intros (Hin & Hfiles & Hdirs). repeat split; try done.
      intros dir' q Hdir' Hends Hfront. apply (Hdirs dir' Hdir').
      apply parentDirs_elem. eauto.
    + intros (Hin & Hfiles & Hdirs). repeat split; try done.
      intros dir' Hdir' [Hends [q Hfront]]%parentDirs_elem.
      by apply (Hdirs dir' q).
  - apply EmptyDirs_NoDup.
  - intros files' dirs' Hfiles Hdirs. unfold EmptyDirs.
    by rewrite (emptyDirsSet_Permutation files files' dirs dirs').
Qed.

(* ===================================================================== *)
(** * Further properties: [EmptyDirs] on clean names                      *)
(* ===================================================================== *)

(** A path element that [filepath.Clean] leaves alone. *)
Definition regular (e : string) : Prop :=
  e <> "" /\ e <> "." /\ e <> ".." /\ hasChar "/" e = false.

(** A file name made of regular elements: [a/b/c]. *)
Definition cleanFile (name : string) : Prop :=
  exists elems, elems <> [] /\ Forall regular elems /\ name = Strings.Join elems "/".

(** A directory name made of regular elements: [a/b/]. *)
Definition cleanDir (name : string) : Prop :=
  exists elems,
    elems <> [] /\ Forall regular elems /\ name = Strings.Join elems "/" +:+ "/".

Section clean.

Implicit Types (e s p base : string) (elems : list string).

Lemma Split_noSep e c : hasChar c e = false -> Strings.Split e c = [e].
Proof.
  induction e as [|a e IH]; [done|]. cbn [hasChar].
  intros [Ha He]%orb_false_iff. apply bool_decide_eq_false_1 in Ha.
  by rewrite Split_cons_ne, IH.
Qed.

Lemma Split_Join elems :
  elems <> [] -> Forall (fun e => hasChar "/" e = false) elems ->
  Strings.Split (Strings.Join elems "/") "/" = elems.
Proof.
  intros Hne Hall. induction Hall as [|e [|e' elems] He Hall IH]; [done|..].
  - by apply Split_noSep.
  - rewrite Join_cons_cons, (app_cons "/" "" _), app_empty_l, Split_app_sep.
    by rewrite Split_noSep, IH.
Qed.

Lemma regular_noSep elems :
  Forall regular elems -> Forall (fun e => hasChar "/" e = false) elems.
Proof.
  intros Hall. eapply Forall_impl; [exact Hall|]. by intros e (_ & _ & _ & He).
Qed.

(** [Clean] keeps regular elements as they are. *)
Lemma cleanElems_regular rooted elems rest out dotdot :
  Forall regular elems ->
  Filepath.cleanElems rooted (elems ++ rest) out dotdot
  = Filepath.cleanElems rooted rest (rev elems ++ out) dotdot.
Proof.
  intros Hall. revert out.
  induction Hall as [|e elems (He & Hdot & Hdotdot & _) _ IH]; intros out; [done|].
  cbn [app Filepath.cleanElems rev].
  rewrite !decide_False by done. by rewrite IH, <- (assoc_L (++)).
Qed.

Lemma Join_first_char e elems :
  e <> "" -> hasChar "/" e = false ->
  exists c s, c <> "/"%char /\ Strings.Join (e :: elems) "/" +:+ "/" = String c s.
Proof.
  intros He Hsep. destruct e as [|c e']; [done|].
  cbn [hasChar] in Hsep. apply orb_false_iff in Hsep as [Hc%bool_decide_eq_false_1 _].
  exists c. destruct elems as [|e2 elems].
  - cbn [Strings.Join]. rewrite app_cons. by eexists.
  - rewrite Join_cons_cons, !app_cons. by eexists.
Qed.

Lemma Clean_cons c s :
  c <> "/"%char ->
  Filepath.Clean (String c s)
  = match Filepath.cleanElems false (Strings.Split (String c s) "/") [] 0 with
    | [] => "."
    | out => Strings.Join out "/"
    end.
Proof.
  intros Hc. unfold Filepath.Clean. rewrite bool_decide_eq_false_2 by done.
  cbv zeta. by destruct (Filepath.cleanElems _ _ _ _).
Qed.

(** [Clean] of a clean directory name is the name without its final
    slash. *)
Lemma Clean_cleanDir elems :
  elems <> [] -> Forall regular elems ->
  Filepath.Clean (Strings.Join elems "/" +:+ "/") = Strings.Join elems "/".
Proof.
  intros Hne Hall. destruct elems as [|e elems]; [done|].
  pose proof (Forall_inv Hall) as (He & _ & _ & Hsep).
  destruct (Join_first_char e elems He Hsep) as (c & s & Hc & Hpath).
  rewrite Hpath, Clean_cons, <- Hpath by done.
  assert (Strings.Split (Strings.Join (e :: elems) "/" +:+ "/") "/"
          = (e :: elems) ++ [""]) as ->.
  { rewrite Split_app_sep, Split_Join; [done..|]. by apply regular_noSep. }
  rewrite cleanElems_regular by done.
  cbn [Filepath.cleanElems]. rewrite decide_True by done.
  rewrite (right_id_L [] (++)), rev_involutive. done.
Qed.

Lemma uptoLastSeparator_noSep base :
  hasChar "/" base = false -> Filepath.uptoLastSeparator base = "".
Proof.
  induction base as [|c base IH]; [done|]. cbn [hasChar].
  intros [Hc%bool_decide_eq_false_1 Hbase]%orb_false_iff.
  cbn [Filepath.uptoLastSeparator]. by rewrite decide_False, IH.
Qed.

Lemma uptoLastSeparator_app p base :
  hasChar "/" base = false ->
  Filepath.uptoLastSeparator (p +:+ String "/" base) = p +:+ "/".
Proof.
  intros Hbase. induction p as [|c p IH].
  - rewrite !app_empty_l. cbn [Filepath.uptoLastSeparator].
    by rewrite decide_True, uptoLastSeparator_noSep.
  - rewrite !app_cons. cbn [Filepath.uptoLastSeparator]. rewrite IH.
    destruct (decide (c = "/"%char)); [done|].
    by destruct p.
Qed.

(** The elements of a clean file name: those of its directory and its
    last one. *)
Lemma cleanFile_inv name :
  cleanFile name ->
  (regular name /\ Filepath.uptoLastSeparator name = ""
   /\ Filepath.Dir name = ".")
  \/ (exists elems,
        elems <> [] /\ Forall regular elems
        /\ Filepath.uptoLastSeparator name = Strings.Join elems "/" +:+ "/"
        /\ Filepath.Dir name = Strings.Join elems "/").
Proof.
  intros (elems & Hne & Hall & ->).
  destruct elems as [|base init _] using rev_ind; [done|].
  apply Forall_app in Hall as [Hinit Hbase%Forall_inv].
  pose proof Hbase as (_ & _ & _ & Hsep).
  destruct init as [|e init].
  - left. cbn [app Strings.Join]. split; [done|].
    unfold Filepath.Dir. by rewrite uptoLastSeparator_noSep.
  - right. exists (e :: init). split; [done|]. split; [done|].
    rewrite Join_app by done. change (Strings.Join [base] "/") with base.
    rewrite (app_cons "/" "" base), app_empty_l.
    unfold Filepath.Dir. rewrite uptoLastSeparator_app by done.
    split; [done|]. by apply Clean_cleanDir.
Qed.

Lemma cleanDir_not_dot name : cleanDir name -> name <> "" /\ name <> "./".
Proof.
  intros (elems & Hne & Hall & ->).
  destruct elems as [|e elems]; [done|].
  pose proof (Forall_inv Hall) as (He & Hdot & _ & _).
  destruct e as [|c [|c' e]]; [done|..].
  - destruct elems as [|e2 elems].
    + cbn [Strings.Join]. split; [done|]. intros [= ->]. done.
    + rewrite Join_cons_cons, !app_cons. split; [done|].
      rewrite app_empty_l, app_cons. intros [= -> Htail].
      by destruct (Strings.Join (e2 :: elems) "/").
  - destruct elems as [|e2 elems].
    + cbn [Strings.Join]. rewrite !app_cons. split; [done|]. intros [= -> -> Htail].
      by destruct e.
    + rewrite Join_cons_cons, !app_cons. split; [done|]. intros [= -> -> Htail].
      by destruct e.
Qed.

(** For clean names the name [EmptyDirs] deletes for a file is the front
    of the file's name up to its last slash, or no directory name at
    all. *)
Lemma Dir_cleanFile file dir :
  cleanFile file -> cleanDir dir ->
  dir = Filepath.Dir file +:+ "/" <-> dir = Filepath.uptoLastSeparator file.
Proof.
  intros [(_ & -> & ->)|(elems & _ & _ & -> & ->)]%cleanFile_inv Hdir; [|done].
  destruct (cleanDir_not_dot dir Hdir) as [Hempty Hdot]. split; by intros ->.
Qed.

Lemma app_snoc_inj s s' a b :
  s +:+ String a "" = s' +:+ String b "" -> s = s' /\ a = b.
Proof.
  revert s'. induction s as [|c s IH]; intros [|c' s'].
  - by intros [= ->].
  - rewrite app_empty_l, app_cons. intros [= -> Htail]. by destruct s'.
  - rewrite app_empty_l, app_cons. intros [= -> Htail]. by destruct s.
  - rewrite !app_cons. intros [= -> [-> ->]%IH]. done.
Qed.

Lemma snoc_cases s : s = "" \/ exists s' c, s = s' +:+ String c "".
Proof.
  induction s as [|c s [->|(s' & c' & ->)]]; [by left|..].
  - right. by exists "", c.
  - right. exists (String c s'), c'. by rewrite app_cons.
Qed.

(** For clean names the names the inner loop deletes for a directory are
    the directory names its name properly starts with. *)
Lemma parentDirs_cleanDir dir dir' :
  cleanDir dir -> cleanDir dir' ->
  dir ∈ parentDirs dir' <-> exists q, q <> "" /\ dir' = dir +:+ q.
Proof.
  intros (elems & _ & _ & Hdir) (elems' & _ & _ & Hdir').
  rewrite parentDirs_elem.
  assert (Htrim : Strings.TrimSuffix dir' "/" = Strings.Join elems' "/")
    by (rewrite Hdir'; apply TrimSuffix_app).
  rewrite Htrim. split.
  - intros [_ [q Hq]]. exists (q +:+ "/"). split.
    + by destruct q.
    + by rewrite Hdir', Hq, app_assoc.
  - intros (q & Hne & Heq). split; [by exists (Strings.Join elems "/")|].
    destruct (snoc_cases q) as [->|(q' & c & ->)]; [done|].
    exists q'. rewrite Hdir' in Heq. rewrite <- app_assoc in Heq.
    by apply app_snoc_inj in Heq as [-> _].
Qed.

End clean.

(** On names made of regular elements (none empty, [.] or [..]; files
    [a/b/c], directories [a/b/]) [EmptyDirs] returns the directories that
    are neither the front up to the last slash of the name of a file, nor
    a proper front of the name of a directory. *)
Theorem EmptyDirs_clean_names (files dirs : list string) (dir : string) :
  Forall cleanFile files ->
  Forall cleanDir dirs ->
  dir ∈ EmptyDirs files dirs
  <-> dir ∈ dirs
      /\ (forall file, file ∈ files -> dir <> Filepath.uptoLastSeparator file)
      /\ (forall dir' q, dir' ∈ dirs -> q <> "" -> dir' <> dir +:+ q).
Proof.
  intros Hfiles Hdirs. rewrite Forall_forall in Hfiles, Hdirs.
  rewrite EmptyDirs_elem, emptyDirsSet_elem. split.
  - intros (Hin & Hfile & Hdir). split; [done|]. split.
    + intros file Hf Heq. apply (Hfile file Hf).
      by apply Dir_cleanFile; auto.
    + intros dir' q Hd' Hq Heq. apply (Hdir dir' Hd').
      apply parentDirs_cleanDir; eauto.
  - intros (Hin & Hfile & Hdir). split; [done|]. split.
    + intros file Hf Heq. apply (Hfile file Hf).
      by apply Dir_cleanFile; auto.
    + intros dir' Hd' (q & Hq & Heq)%parentDirs_cleanDir; auto.
      by apply (Hdir dir' q).
Qed.

Lemma EmptyDirs_clean_names_witness :
  Forall cleanFile ["a/b/c.txt"]
  /\ Forall cleanDir ["a/"; "a/b/"; "x/"]
  /\ EmptyDirs ["a/b/c.txt"] ["a/"; "a/b/"; "x/"] = ["x/"]
  /\ (forall file, file ∈ ["a/b/c.txt"] -> "x/" <> Filepath.uptoLastSeparator file).
Proof.
  assert (Hregular : forall e, e ∈ ["a"; "b"; "c.txt"; "x"] -> regular e).
  { intros e He.
    repeat (apply elem_of_cons in He as [->|He]; [by repeat split|]).
    by apply elem_of_nil in He. }
  assert (Hfiles : Forall cleanFile ["a/b/c.txt"]).
  { apply Forall_cons. split; [|apply Forall_nil_2].
    exists ["a"; "b"; "c.txt"]. split; [done|]. split; [|reflexivity].
    apply Forall_forall. intros e He. apply Hregular.
    repeat (apply elem_of_cons in He as [->|He]; [set_solver|]).
    by apply elem_of_nil in He. }
  assert (Hdirs : Forall cleanDir ["a/"; "a/b/"; "x/"]).
  { repeat apply Forall_cons_2; [| | |apply Forall_nil_2].
    - exists ["a"]. split; [done|]. split; [|reflexivity].
      apply Forall_cons. split; [|apply Forall_nil_2]. apply Hregular. set_solver.
    - exists ["a"; "b"]. split; [done|]. split; [|reflexivity].
      repeat apply Forall_cons_2; [..|apply Forall_nil_2]; apply Hregular; set_solver.
    - exists ["x"]. split; [done|]. split; [|reflexivity].
      apply Forall_cons. split; [|apply Forall_nil_2]. apply Hregular. set_solver. }
  assert (Hempty : EmptyDirs ["a/b/c.txt"] ["a/"; "a/b/"; "x/"] = ["x/"])
    by (vm_compute; reflexivity).
  split; [exact Hfiles|]. split; [exact Hdirs|]. split; [exact Hempty|].
  destruct (EmptyDirs_clean_names ["a/b/c.txt"] ["a/"; "a/b/"; "x/"] "x/"
              Hfiles Hdirs) as [Hto _].
  refine (proj1 (proj2 (Hto _))). rewrite Hempty. left.
Defined.

(* ===================================================================== *)
(** * Further properties: the balance of the groups                       *)
(* ===================================================================== *)

Section balance.

Context (previous : option (gmap string FileInfo)).
Implicit Types (groups : list Group.t) (entries : list fileEntry).

Lemma sumZ_insert (l : list Z) i x y :
  l !! i = Some x -> sumZ (<[i := y]> l) = sumZ l - x + y.
Proof.
  revert i. induction l as [|z l IH]; intros [|i] Hi; simplify_eq/=; [lia|].
  rewrite (IH i Hi). lia.
Qed.

Lemma sumZ_elem_le (l : list Z) i x :
  Forall (fun z => 0 <= z) l -> l !! i = Some x -> x <= sumZ l.
Proof.
  intros Hall. revert i. induction Hall as [|z l Hz Hall IH]; intros [|i] Hi;
    simplify_eq/=.
  - assert (0 <= sumZ l); [|lia]. clear -Hall. induction Hall; simpl; lia.
  - specialize (IH i Hi). lia.
Qed.

(** The sizes of the groups are not negative, add up to [total], and the
    largest exceeds the smallest by [bound] at most. *)
Definition balanced (bound total : Z) groups : Prop :=
  Forall (fun g => 0 <= Group.Size g) groups
  /\ sumZ (Group.Size <$> groups) = total
  /\ forall i j g g', groups !! i = Some g -> groups !! j = Some g' ->
                      Group.Size g - Group.Size g' <= bound.

Lemma assign_balanced bound total entry groups groups' :
  balanced bound total groups ->
  0 <= effectiveSize previous entry <= bound ->
  total + effectiveSize previous entry <= maxInt64 ->
  assign previous entry groups = Ok groups' ->
  balanced bound (total + effectiveSize previous entry) groups'.
Proof.
  intros (Hpos & Hsum & Hdiff) Hweight Hfit
    (i & g & Hg & Hmin & _ & ->)%assign_spec.
  set (weight := effectiveSize previous entry) in *.
  assert (Hgpos : 0 <= Group.Size g).
  { rewrite Forall_lookup in Hpos. by apply (Hpos i). }
  assert (Hgle : Group.Size g <= total).
  { rewrite <- Hsum. apply (sumZ_elem_le _ i).
    - by apply Forall_fmap.
    - by rewrite list_lookup_fmap, Hg. }
  assert (Hsize : Group.Size (Group.Add g (Name entry) weight) = Group.Size g + weight).
  { unfold Group.Add. cbn [Group.Size]. apply wrap64_small.
    unfold minInt64. lia. }
  assert (Hlookup : forall j g',
             <[i := Group.Add g (Name entry) weight]> groups !! j = Some g' ->
             (j = i /\ Group.Size g' = Group.Size g + weight)
             \/ (j <> i /\ groups !! j = Some g')).
  { intros j g' Hj. destruct (decide (j = i)) as [->|Hne].
    - left. split; [done|].
      rewrite list_lookup_insert_eq in Hj by (by eapply lookup_lt_Some).
      by injection Hj as <-.
    - right. split; [done|]. by rewrite list_lookup_insert_ne in Hj. }
  split; [|split].
  - apply Forall_lookup. intros j g' [[_ Hj]|[_ Hj]]%Hlookup.
    + lia.
    + rewrite Forall_lookup in Hpos. by apply (Hpos j).
  - rewrite list_fmap_insert, (sumZ_insert _ i (Group.Size g)).
    + rewrite Hsum, Hsize. lia.
    + by rewrite list_lookup_fmap, Hg.
  - intros j k g1 g2 [[_ H1]|[_ H1]]%Hlookup [[_ H2]|[_ H2]]%Hlookup.
    + lia.
    + specialize (Hmin k g2 H2). lia.
    + specialize (Hdiff j i g1 g H1 Hg). lia.
    + by apply (Hdiff j k).
Qed.

Lemma distribute_balanced bound total entries groups groups' :
  balanced bound total groups ->
  Forall (fun e => 0 <= effectiveSize previous e <= bound) entries ->
  total + sumZ (effectiveSize previous <$> entries) <= maxInt64 ->
  distribute previous entries groups = Ok groups' ->
  balanced bound (total + sumZ (effectiveSize previous <$> entries)) groups'.
Proof.
  intros Hbal Hall. revert total groups Hbal.
  induction Hall as [|e entries He Hall IH]; intros total groups Hbal Hfit.
  - cbn [distribute fmap list_fmap sumZ foldr]. intros [= <-].
    by rewrite Z.add_0_r.
  - cbn [distribute]. csimpl in *.
    assert (0 <= sumZ (effectiveSize previous <$> entries)).
    { clear -Hall. induction Hall; csimpl; lia. }
    destruct (assign previous e groups) as [groups1|] eqn:Hassign; [|done].
    intros Hdist.
    replace (total + (effectiveSize previous e
                      + sumZ (effectiveSize previous <$> entries)))
      with (total + effectiveSize previous e
            + sumZ (effectiveSize previous <$> entries)) by lia.
    apply (IH _ groups1); [|lia|done].
    apply (assign_balanced bound total e groups); [done|done|lia|done].
Qed.

End balance.

(** The greedy distribution is balanced: when the weights of the targets
    lie between 0 and [bound] and add up to no more than [int64] holds,
    then at the end no group is heavier than another by more than
    [bound], and the sizes of the groups add up to the sum of the
    weights. *)
Theorem groupsOf_balanced
    (K : Z) (previous : option (gmap string FileInfo)) (entries : list fileEntry)
    (bound : Z) (groups : list Group.t) :
  0 <= bound ->
  Forall (fun e => 0 <= effectiveSize previous e <= bound) entries ->
  sumZ (effectiveSize previous <$> entries) <= maxInt64 ->
  groupsOf K previous entries = Ok groups ->
  sumZ (Group.Size <$> groups) = sumZ (effectiveSize previous <$> entries)
  /\ forall g g', g ∈ groups -> g' ∈ groups -> Group.Size g - Group.Size g' <= bound.
Proof.
  intros Hbound Hall Hfit. unfold groupsOf, makeGroups.
  destruct (K <? 0); [done|]. intros Hdist.
  assert (Hstart : balanced bound 0 (replicate (Z.to_nat K) Group.empty)).
  { split; [|split].
    - apply Forall_replicate. done.
    - generalize (Z.to_nat K). clear. intros n.
      induction n as [|n IH]; [done|].
      change (sumZ (Group.Size <$> replicate (S n) Group.empty))
        with (0 + sumZ (Group.Size <$> replicate n Group.empty)).
      by rewrite IH.
    - intros i j g g' [-> _]%lookup_replicate [-> _]%lookup_replicate.
      simpl. lia. }
  destruct (distribute_balanced previous bound 0 entries _ groups Hstart Hall)
    as (_ & Hsum & Hdiff); [lia|done|].
  split; [by rewrite Hsum|].
  intros g g' [i Hi]%list_elem_of_lookup [j Hj]%list_elem_of_lookup.
  by apply (Hdiff i j).
Qed.




Definition balanceEntries : list fileEntry :=
  [mkFileEntry "n9" (mkFileInfo 9 Time.zero);
   mkFileEntry "n5" (mkFileInfo 5 Time.zero);
   mkFileEntry "n4" (mkFileInfo 4 Time.zero);
   mkFileEntry "n3" (mkFileInfo 3 Time.zero)].

Definition balanceGroups : list Group.t :=
  [Group.mk ["n9"] 9; Group.mk ["n5"] 5; Group.mk ["n4"; "n3"] 7].

Lemma groupsOf_balanced_witness :
  Forall (fun e => 0 <= effectiveSize None e <= 9) balanceEntries
  /\ sumZ (effectiveSize None <$> balanceEntries) <= maxInt64
  /\ groupsOf 3 None balanceEntries = Ok balanceGroups
  /\ sumZ (Group.Size <$> balanceGroups)
     = sumZ (effectiveSize None <$> balanceEntries)
  /\ forall g g', g ∈ balanceGroups -> g' ∈ balanceGroups ->
                  Group.Size g - Group.Size g' <= 9.
Proof.
  assert (Hweights : Forall (fun e => 0 <= effectiveSize None e <= 9) balanceEntries).
  { repeat apply Forall_cons_2; [..|apply Forall_nil_2];
      (split; vm_compute; discriminate). }
  assert (Hfit : sumZ (effectiveSize None <$> balanceEntries) <= maxInt64)
    by (vm_compute; discriminate).
  assert (Hgroups : groupsOf 3 None balanceEntries = Ok balanceGroups)
    by (vm_compute; reflexivity).
  split; [exact Hweights|]. split; [exact Hfit|]. split; [exact Hgroups|].
  apply (groupsOf_balanced 3 None balanceEntries 9 balanceGroups);
    [lia|exact Hweights|exact Hfit|exact Hgroups].
Defined.

(* ===================================================================== *)
(** * Further properties: what [Run] does to the receiver and the threads *)
(* ===================================================================== *)

Section runEffects.

Context (order : gmap string FileInfo -> list fileEntry).
Context (schedule : list (list Action) -> list Action).

Lemma GetFiles_receiver rs w :
  archive (GetFiles rs w).1.2 = archive rs
  /\ options (GetFiles rs w).1.2 = options rs
  /\ tpsize (GetFiles rs w).1.2 = tpsize rs
  /\ files (GetFiles rs w).1.2 = (GetFiles rs w).1.1.
Proof.
  unfold GetFiles. destruct (files rs) eqn:Hfiles; [done|].
  by destruct (listing w).
Qed.

Lemma FileGroupsWith_receiver rs w fileGroups :
  (FileGroupsWith order rs w).1.1 = Ok fileGroups ->
  (FileGroupsWith order rs w).1.2 = (GetFiles rs w).1.2.
Proof.
  unfold FileGroupsWith, FilesToExtract.
  destruct (makeGroups (tpsize rs)) as [groups|msg]; [|done].
  destruct (GetFiles rs w) as [[allFiles rs'] out].
  by destruct (distribute _ _ _).
Qed.

Lemma RunWith_inv rs w rs' out :
  RunWith order schedule rs w = Returned rs' out ->
  exists fileGroups rs1 out0,
    FileGroupsWith order rs w = (Ok fileGroups, rs1, out0).
Proof.
  unfold RunWith.
  destruct (FileGroupsWith order rs w) as [[[fileGroups|msg] rs1] out0]; [|done].
  intros _. by exists fileGroups, rs1, out0.
Qed.

Lemma elem_of_scheduled (threads : list (list Action)) (a : Action) :
  validSchedule schedule -> a ∈ schedule threads <-> a ∈ concat threads.
Proof.
  intros Hvalid. by rewrite (Interleaving_Permutation _ _ (Hvalid threads)).
Qed.

Lemma worker_ThreadStarted idx chunk cmd idx' count :
  Emit (ThreadStarted idx' count) ∈ worker idx chunk cmd
  <-> idx' = idx /\ count = length chunk.
Proof.
  unfold worker. rewrite elem_of_cons. split.
  - intros [[= -> ->]|Hin]; [done|]. destruct cmd as [| |lines waitError].
    + by apply list_elem_of_singleton in Hin.
    + by apply list_elem_of_singleton in Hin.
    + apply elem_of_app in Hin as [Hin|Hin].
      * apply list_elem_of_bind in Hin as (text & Hin & _).
        apply processLine_Emit in Hin as [? _]. done.
      * by apply list_elem_of_singleton in Hin.
  - intros [-> ->]. by left.
Qed.

Lemma worker_ThreadCompleted idx chunk cmd idx' count :
  Emit (ThreadCompleted idx' count) ∈ worker idx chunk cmd
  <-> idx' = idx /\ count = length chunk
      /\ exists lines waitError, cmd = Started lines waitError.
Proof.
  unfold worker. rewrite elem_of_cons. split.
  - intros [[=]|Hin]. destruct cmd as [| |lines waitError].
    + by apply list_elem_of_singleton in Hin.
    + by apply list_elem_of_singleton in Hin.
    + apply elem_of_app in Hin as [Hin|Hin].
      * apply list_elem_of_bind in Hin as (text & Hin & _).
        apply processLine_Emit in Hin as [? _]. done.
      * apply list_elem_of_singleton in Hin as [= -> ->]. eauto.
  - intros (-> & -> & lines & waitError & ->). right.
    apply elem_of_app. right. by left.
Qed.

Lemma FileGroupsWith_out rs w fileGroups :
  (FileGroupsWith order rs w).1.1 = Ok fileGroups ->
  (FileGroupsWith order rs w).2 = (GetFiles rs w).2.
Proof.
  unfold FileGroupsWith, FilesToExtract.
  destruct (makeGroups (tpsize rs)) as [groups|msg]; [|done].
  destruct (GetFiles rs w) as [[allFiles rs'] out].
  by destruct (distribute _ _ _).
Qed.

Lemma RunWith_events rs w fileGroups :
  validSchedule schedule ->
  (FileGroupsWith order rs w).1.1 = Ok fileGroups ->
  exists rs' out,
    RunWith order schedule rs w = Returned rs' out
    /\ forall e,
        e ∈ out
        <-> e ∈ (GetFiles rs w).2
            \/ e = CreatingWorkers (length fileGroups)
            \/ (exists idx chunk,
                   fileGroups !! idx = Some chunk
                   /\ Emit e ∈ worker idx chunk (extraction w idx))
            \/ (e = DelayedError /\ errorOccured rs' = true).
Proof.
  intros Hvalid Hfg.
  pose proof (FileGroupsWith_out rs w fileGroups Hfg) as Hout0.
  destruct (FileGroupsWith order rs w) as [[r rs1] out0] eqn:HFG.
  simpl in Hfg, Hout0. subst r out0.
  pose proof (RunWith_returned order schedule rs w fileGroups rs1 _ HFG) as HRun.
  cbv zeta in HRun. eexists _, _. split; [exact HRun|].
  cbn [errorOccured]. intros e.
  rewrite !elem_of_app, list_elem_of_singleton, elem_of_emitted,
    (elem_of_scheduled _ _ Hvalid), elem_of_workers.
  split.
  - intros [[?|?]|[?|Hin]]; [by eauto..|].
    destruct (errorOccured rs1 || _) eqn:Hflag.
    + apply list_elem_of_singleton in Hin. by eauto 6.
    + by apply elem_of_nil in Hin.
  - intros [?|[?|[?|[-> Hflag]]]]; [by eauto..|].
    right. right. rewrite Hflag. by left.
Qed.

End runEffects.

(** [Run] leaves the archive name, the options and the worker count of
    the receiver as they were, stores in it the inventory [GetFiles]
    returned, and never clears the error flag: a receiver whose flag is
    already set keeps it, and the delayed-error message is the last thing
    written, whatever the workers print. *)
Theorem RunWith_receiver
    (order : gmap string FileInfo -> list fileEntry)
    (schedule : list (list Action) -> list Action)
    (rs : GoSnapper) (w : World) (rs' : GoSnapper) (out : list Event) :
  RunWith order schedule rs w = Returned rs' out ->
  archive rs' = archive rs
  /\ options rs' = options rs
  /\ tpsize rs' = tpsize rs
  /\ files rs' = (GetFiles rs w).1.1
  /\ (errorOccured rs = true ->
      errorOccured rs' = true /\ last out = Some DelayedError).
Proof.
  intros HRun.
  destruct (RunWith_inv order schedule rs w rs' out HRun)
    as (fileGroups & rs1 & out0 & HFG).
  pose proof (RunWith_returned order schedule rs w fileGroups rs1 out0 HFG) as Heq.
  cbv zeta in Heq. rewrite HRun in Heq. injection Heq as -> ->.
  pose proof (FileGroupsWith_receiver order rs w fileGroups) as Hrs1.
  pose proof (FileGroupsWith_events order rs w) as [Hflag _].
  rewrite HFG in Hrs1, Hflag. simpl in Hrs1, Hflag.
  specialize (Hrs1 (reflexivity _)). cbn [archive options tpsize files errorOccured].
  destruct (GetFiles_receiver rs w) as (Harchive & Hoptions & Htpsize & Hfiles).
  rewrite <- Hrs1 in Harchive, Hoptions, Htpsize, Hfiles.
  split; [done|]. split; [done|]. split; [done|]. split; [done|].
  intros Hset. rewrite Hflag, Hset. cbn [orb]. split; [done|].
  by rewrite !(assoc_L (++)), last_snoc.
Qed.

(** For every interleaving of the workers, the number of worker threads
    [Run] reports is the number of groups, every group's worker
    reports its start with the length of its file list, and it reports
    its completion, with the same length, exactly when its client could
    be started. *)
Theorem RunWith_threads
    (order : gmap string FileInfo -> list fileEntry)
    (schedule : list (list Action) -> list Action)
    (rs : GoSnapper) (w : World) (fileGroups : list (list string)) :
  validSchedule schedule ->
  (FileGroupsWith order rs w).1.1 = Ok fileGroups ->
  exists rs' out,
    RunWith order schedule rs w = Returned rs' out
    /\ (forall count, CreatingWorkers count ∈ out <-> count = length fileGroups)
    /\ (forall idx count,
           ThreadStarted idx count ∈ out
           <-> exists chunk, fileGroups !! idx = Some chunk /\ count = length chunk)
    /\ (forall idx count,
           ThreadCompleted idx count ∈ out
           <-> exists chunk lines waitError,
                 fileGroups !! idx = Some chunk /\ count = length chunk
                 /\ extraction w idx = Started lines waitError).
Proof.
  intros Hvalid Hfg.
  destruct (RunWith_events order schedule rs w fileGroups Hvalid Hfg)
    as (rs' & out & HRun & Hout).
  assert (Hlisting : forall e, e ∈ (GetFiles rs w).2 ->
             e = ErrStdoutPipe \/ e = ErrStartListing \/ e = ErrWaitListing
             \/ exists n, e = ScanComplete n)
    by apply GetFiles_no_worker_events.
  exists rs', out. split; [exact HRun|]. split; [|split].
  - intros count. rewrite Hout. split.
    + intros [Hin|[[= ->]|[(idx & chunk & _ & Hin)|[[=] _]]]]; [|done|].
      * by destruct (Hlisting _ Hin) as [?|[?|[?|[? ?]]]].
      * exfalso. unfold worker in Hin.
        apply elem_of_cons in Hin as [[=]|Hin].
        destruct (extraction w idx) as [| |lines waitError].
        -- by apply list_elem_of_singleton in Hin.
        -- by apply list_elem_of_singleton in Hin.
        -- apply elem_of_app in Hin as [Hin|Hin].
           ++ apply list_elem_of_bind in Hin as (text & Hin & _).
              by apply processLine_Emit in Hin as [? _].
           ++ by apply list_elem_of_singleton in Hin.
    + intros ->. by eauto.
  - intros idx count. rewrite Hout. split.
    + intros [Hin|[[=]|[(idx' & chunk & Hchunk & Hin)|[[=] _]]]].
      * by destruct (Hlisting _ Hin) as [?|[?|[?|[? ?]]]].
      * apply worker_ThreadStarted in Hin as [-> ->]. by exists chunk.
    + intros (chunk & Hchunk & ->). right. right. left.
      exists idx, chunk. split; [done|]. by apply worker_ThreadStarted.
  - intros idx count. rewrite Hout. split.
    + intros [Hin|[[=]|[(idx' & chunk & Hchunk & Hin)|[[=] _]]]].
      * by destruct (Hlisting _ Hin) as [?|[?|[?|[? ?]]]].
      * apply worker_ThreadCompleted in Hin
          as (-> & -> & lines & waitError & Hcmd).
        by exists chunk, lines, waitError.
    + intros (chunk & lines & waitError & Hchunk & -> & Hcmd). right. right. left.
      exists idx, chunk. split; [done|].
      apply worker_ThreadCompleted. by eauto.
Qed.

Definition flaggedReceiver : GoSnapper :=
  mkGoSnapper "archive" (mkOptions "" 2 [] None) 2 None true.

Definition quietWorld : World :=
  mkWorld (Started exampleListing false) (fun _ => exampleClock)
    (fun _ => Started [] false).

Lemma RunWith_receiver_witness :
  errorOccured flaggedReceiver = true
  /\ exists rs' out,
      RunWith sortEntries (@concat Action) flaggedReceiver quietWorld
      = Returned rs' out
      /\ tpsize rs' = 2
      /\ errorOccured rs' = true
      /\ last out = Some DelayedError.
Proof.
  split; [reflexivity|].
  destruct (RunWith sortEntries (@concat Action) flaggedReceiver quietWorld)
    as [rs' out|msg out] eqn:HRun; [|vm_compute in HRun; discriminate].
  destruct (RunWith_receiver sortEntries (@concat Action) flaggedReceiver
              quietWorld rs' out HRun)
    as (_ & _ & Htpsize & _ & Hflag).
  exists rs', out. split; [reflexivity|]. split; [exact Htpsize|].
  exact (Hflag (reflexivity _)).
Defined.

Lemma RunWith_threads_witness :
  validSchedule (@concat Action)
  /\ (FileGroupsWith sortEntries exampleReceiver exampleWorld).1.1
     = Ok [["big"]; ["s3"; "s1"; "s2"; "empty/"]]
  /\ exists rs' out,
      RunWith sortEntries (@concat Action) exampleReceiver exampleWorld
      = Returned rs' out
      /\ ThreadStarted 1 4 ∈ out
      /\ ThreadCompleted 0 1 ∈ out
      /\ ThreadCompleted 1 4 ∉ out.
Proof.
  assert (Hfg : (FileGroupsWith sortEntries exampleReceiver exampleWorld).1.1
                = Ok [["big"]; ["s3"; "s1"; "s2"; "empty/"]])
    by (vm_compute; reflexivity).
  split; [exact concat_valid|]. split; [exact Hfg|].
  destruct (RunWith_threads sortEntries (@concat Action) exampleReceiver
              exampleWorld _ concat_valid Hfg)
    as (rs' & out & HRun & _ & Hstarted & Hcompleted).
  exists rs', out. split; [exact HRun|]. split; [|split].
  - apply Hstarted. exists ["s3"; "s1"; "s2"; "empty/"]. split; reflexivity.
  - apply Hcompleted.
    exists ["big"], ["x big"; "big: Already exists"; exitErrorText], true.
    split; [reflexivity|]. split; reflexivity.
  - intros (chunk & lines & waitError & _ & _ & Hcmd)%Hcompleted.
    discriminate Hcmd.
Defined.

(* ===================================================================== *)
(** * Further properties: the order of the files within a group           *)
(* ===================================================================== *)

Section groupOrder.

Context (previous : option (gmap string FileInfo)).

Lemma assign_sublist (names : list string) entry groups groups' :
  Forall (fun g => Group.Files g `sublist_of` names) groups ->
  assign previous entry groups = Ok groups' ->
  Forall (fun g => Group.Files g `sublist_of` names ++ [Name entry]) groups'.
Proof.
  intros Hall (i & g & Hg & _ & _ & ->)%assign_spec.
  apply Forall_insert.
  - eapply Forall_impl; [exact Hall|]. intros g' Hsub.
    by apply sublist_inserts_r.
  - unfold Group.Add. cbn [Group.Files]. apply sublist_app; [|done].
    rewrite Forall_lookup in Hall. by apply (Hall i).
Qed.

Lemma distribute_sublist (names : list string) entries groups groups' :
  Forall (fun g => Group.Files g `sublist_of` names) groups ->
  distribute previous entries groups = Ok groups' ->
  Forall (fun g => Group.Files g `sublist_of` names ++ (Name <$> entries)) groups'.
Proof.
  revert names groups. induction entries as [|e entries IH];
    intros names groups Hall.
  - cbn [distribute]. intros [= <-]. csimpl. by rewrite (right_id_L [] (++)).
  - cbn [distribute].
    destruct (assign previous e groups) as [groups1|] eqn:Hassign; [|done].
    intros Hdist. csimpl. rewrite cons_middle, (assoc_L (++)).
    apply (IH _ groups1); [|done]. by apply (assign_sublist names e groups).
Qed.

End groupOrder.

(** Within every group the files keep the order the sort gave them: the
    file list of a group is a subsequence of the names of the sorted
    entries, so each worker is handed its files largest first. *)
Theorem groupsOf_sublist
    (K : Z) (previous : option (gmap string FileInfo)) (entries : list fileEntry)
    (groups : list Group.t) (g : Group.t) :
  groupsOf K previous entries = Ok groups ->
  g ∈ groups ->
  Group.Files g `sublist_of` (Name <$> entries).
Proof.
  unfold groupsOf, makeGroups. destruct (K <? 0); [done|]. intros Hdist Hg.
  assert (Hall : Forall (fun g => Group.Files g `sublist_of` [] ++ (Name <$> entries))
                        groups).
  { apply (distribute_sublist previous [] entries
             (replicate (Z.to_nat K) Group.empty)); [|done].
    apply Forall_replicate. cbn [Group.empty Group.Files]. done. }
  rewrite Forall_forall in Hall. by apply Hall.
Qed.

Lemma groupsOf_sublist_witness :
  groupsOf 3 None balanceEntries = Ok balanceGroups
  /\ Group.mk ["n4"; "n3"] 7 ∈ balanceGroups
  /\ ["n4"; "n3"] `sublist_of` (Name <$> balanceEntries).
Proof.
  assert (Hgroups : groupsOf 3 None balanceEntries = Ok balanceGroups)
    by (vm_compute; reflexivity).
  assert (Hin : Group.mk ["n4"; "n3"] 7 ∈ balanceGroups)
    by (right; right; left).
  split; [exact Hgroups|]. split; [exact Hin|].
  exact (groupsOf_sublist 3 None balanceEntries balanceGroups _ Hgroups Hin).
Defined.

(* ===================================================================== *)
(** * Further properties: the arguments of the extraction client         *)
(* ===================================================================== *)

Section escape.

Lemma escapeGlob_step (c : ascii) (s : string) :
  escapeGlob (String c s)
  = (if hasChar c GlobChars
     then String backslash (String c EmptyString)
     else String c EmptyString) +:+ escapeGlob s.
Proof.
  destruct c as [[] [] [] [] [] [] [] []]; vm_compute; reflexivity.
Qed.

Lemma backslash_not_glob : hasChar backslash GlobChars = false.
Proof. reflexivity. Qed.

(** An escaped name never starts with a glob character. *)
Lemma escapeGlob_head (c : ascii) (s t : string) :
  hasChar c GlobChars = true -> escapeGlob s <> String c t.
Proof.
  intros Hc. destruct s as [|a s]; [done|]. rewrite escapeGlob_step.
  destruct (hasChar a GlobChars) eqn:Ha; rewrite !app_cons, app_empty_l.
  - intros [= <- _]. by rewrite backslash_not_glob in Hc.
  - intros [= -> _]. congruence.
Qed.

End escape.

(** The six passes over a name amount to one: the glob characters of the
    name get a backslash before them, one each, and every other character
    (the backslash too) is kept as it is. *)
Theorem escapeGlob_chars (c : ascii) (s : string) :
  escapeGlob EmptyString = EmptyString
  /\ escapeGlob (String c s)
     = (if hasChar c GlobChars
        then String backslash (String c EmptyString)
        else String c EmptyString) +:+ escapeGlob s.
Proof. split; [reflexivity|apply escapeGlob_step]. Qed.

(** Escaping loses nothing: two names with the same escaped form are the
    same name, so the arguments of a worker are as distinct as its files. *)
Theorem escapeGlob_inj (s t : string) :
  escapeGlob s = escapeGlob t -> s = t.
Proof.
  revert t. induction s as [|a s IH]; intros [|b t].
  - done.
  - rewrite escapeGlob_step.
    by destruct (hasChar b GlobChars); rewrite !app_cons.
  - rewrite escapeGlob_step.
    by destruct (hasChar a GlobChars); rewrite !app_cons.
  - rewrite !escapeGlob_step.
    destruct (hasChar a GlobChars) eqn:Ha, (hasChar b GlobChars) eqn:Hb;
      rewrite !app_cons, !app_empty_l.
    + intros [= -> Heq]. by rewrite (IH t Heq).
    + intros [= <- Heq]. symmetry in Heq. by apply escapeGlob_head in Heq.
    + intros [= -> Heq]. by apply escapeGlob_head in Heq.
    + intros [= -> Heq]. by rewrite (IH t Heq).
Qed.

Lemma escapeGlob_inj_witness :
  escapeGlob "a[1]*.txt" = String "a" (String backslash (String "[" (String "1"
     (String backslash (String "]" (String backslash "*.txt"))))))
  /\ "a[1]*.txt" = "a[1]*.txt".
Proof.
  split; [vm_compute; reflexivity|].
  apply (escapeGlob_inj "a[1]*.txt" "a[1]*.txt"). reflexivity.
Defined.

(* ===================================================================== *)
(** * Further properties: [main]                                         *)
(* ===================================================================== *)

Section main.

Lemma optionsAfterSeparator_spec (rest : list string) :
  (exists before,
      rest = before ++ ("--" :: optionsAfterSeparator rest) /\ "--" ∉ before)
  \/ (("--" ∉ rest) /\ optionsAfterSeparator rest = []).
Proof.
  induction rest as [|arg rest IH]; [right; split; [apply not_elem_of_nil|done]|].
  cbn [optionsAfterSeparator].
  destruct (decide (arg = "--")) as [->|Hne].
  - rewrite bool_decide_eq_true_2 by done. left. exists [].
    split; [|apply not_elem_of_nil].
    destruct rest as [|arg' rest]; [done|].
    by rewrite bool_decide_eq_false_2.
  - rewrite bool_decide_eq_false_2 by done. cbn [andb].
    destruct IH as [(before & Heq & Hnot)|[Hnot Hnil]].
    + left. exists (arg :: before). split; [by rewrite Heq at 1|].
      by apply not_elem_of_cons.
    + right. split; [|done]. by apply not_elem_of_cons.
Qed.

End main.

(** The options handed to the client are the arguments after the first
    [--] that follows the archive name, and none when there is no [--]
    there; a [--] in the place of the archive name is not a separator. *)
Theorem tarsnapOptions_spec (archive : string) (rest : list string) :
  (exists before,
      rest = before ++ ("--" :: tarsnapOptions (archive :: rest))
      /\ "--" ∉ before)
  \/ (("--" ∉ rest) /\ tarsnapOptions (archive :: rest) = []).
Proof. apply optionsAfterSeparator_spec. Qed.

(** [main] ends in one of three ways, whatever the listing and the
    workers do: without arguments it stops for the missing archive; with
    a negative number of jobs it panics before anything is run; otherwise
    [Run] returns, on a receiver for the first argument with the number
    of jobs as worker count, 10 for 0 jobs, and the index panic of the
    distribution loop never happens. *)
Theorem mainWith_outcome
    (order : gmap string FileInfo -> list fileEntry)
    (schedule : list (list Action) -> list Action)
    (directory : string) (jobs : Z) (args : list string) (w : World) :
  match args with
  | [] => mainWith order schedule directory jobs args w = MissingArchive
  | name :: _ =>
      if jobs <? 0
      then mainWith order schedule directory jobs args w
           = Ran (Panicked "makeslice: len out of range" [])
      else exists rs' out,
          mainWith order schedule directory jobs args w = Ran (Returned rs' out)
          /\ archive rs' = name
          /\ tpsize rs' = (if jobs =? 0 then 10 else jobs)
          /\ TarsnapOptions (options rs') = tarsnapOptions args
          /\ Previous (options rs') = None
  end.
Proof.
  destruct args as [|name rest]; [done|]. cbn [mainWith].
  set (opts := mkOptions directory jobs (tarsnapOptions (name :: rest)) None).
  set (rs := NewGoSnapper name opts).
  assert (Htp : tpsize rs = if jobs =? 0 then 10 else jobs).
  { unfold rs, NewGoSnapper, opts. cbn [ThreadPoolSize].
    by destruct (jobs =? 0). }
  assert (Hopts : TarsnapOptions (options rs) = tarsnapOptions (name :: rest)
                  /\ Previous (options rs) = None).
  { unfold rs, NewGoSnapper, opts. cbn [ThreadPoolSize].
    by destruct (jobs =? 0). }
  destruct (Z.ltb_spec jobs 0) as [Hneg|Hpos].
  - unfold RunWith, FileGroupsWith, makeGroups. rewrite Htp.
    destruct (Z.eqb_spec jobs 0); [lia|].
    by destruct (Z.ltb_spec jobs 0); [|lia].
  - assert (HK : 1 <= tpsize rs).
    { rewrite Htp. destruct (Z.eqb_spec jobs 0); lia. }
    destruct (groupsOf_distributed (Previous (options rs)) (tpsize rs)
                (order (FilesToExtract rs w).1.1) HK)
      as (groups & _ & Hgroups & _).
    pose proof (FileGroupsWith_groupsOf order rs w groups Hgroups) as HFG.
    pose proof (RunWith_returned order schedule rs w _ _ _ HFG) as HRun.
    cbv zeta in HRun. eexists _, _. split; [by rewrite HRun|].
    cbn [archive tpsize options].
    assert (Hrs1 : (FilesToExtract rs w).1.2 = (GetFiles rs w).1.2).
    { unfold FilesToExtract. by destruct (GetFiles rs w) as [[? ?] ?]. }
    rewrite Hrs1.
    destruct (GetFiles_receiver rs w) as (-> & -> & -> & _).
    destruct Hopts as [-> ->]. by rewrite Htp.
Qed.

(* ===================================================================== *)
(** * Further properties: the order of what the workers write             *)
(* ===================================================================== *)

Section threadOrder.

Lemma Interleaving_sublist {A} (threads : list (list A)) (sched t : list A) i :
  Interleaving threads sched -> threads !! i = Some t -> t `sublist_of` sched.
Proof.
  intros Hsched. revert i t.
  induction Hsched as [threads Hnil|threads k a t' sched Hk _ IH]; intros i t Hi.
  - rewrite Forall_lookup in Hnil. by rewrite (Hnil i t Hi).
  - destruct (decide (i = k)) as [->|Hne].
    + rewrite Hk in Hi. injection Hi as <-. apply sublist_skip.
      apply (IH k). apply list_lookup_insert_eq. by eapply lookup_lt_Some.
    + apply sublist_cons. apply (IH i). by rewrite list_lookup_insert_ne.
Qed.

Lemma emitted_sublist (acts acts' : list Action) :
  acts `sublist_of` acts' -> emitted acts `sublist_of` emitted acts'.
Proof.
  unfold emitted. induction 1 as [|a acts acts' _ IH|a acts acts' _ IH].
  - done.
  - destruct a as [e|]; csimpl; [by apply sublist_skip|done].
  - destruct a as [e|]; csimpl; [by apply sublist_cons|done].
Qed.

End threadOrder.

(** Whatever the interleaving, the messages of one worker come in its own
    order, after the report of the number of threads: its start, then the
    lines it forwards in the order its client printed them, then its
    completion.  The messages of different workers may be mixed. *)
Theorem RunWith_thread_order
    (order : gmap string FileInfo -> list fileEntry)
    (schedule : list (list Action) -> list Action)
    (rs : GoSnapper) (w : World) (fileGroups : list (list string))
    (idx : nat) (chunk : list string) :
  validSchedule schedule ->
  (FileGroupsWith order rs w).1.1 = Ok fileGroups ->
  fileGroups !! idx = Some chunk ->
  exists rs' before after,
    RunWith order schedule rs w
    = Returned rs' (before ++ [CreatingWorkers (length fileGroups)] ++ after)
    /\ emitted (worker idx chunk (extraction w idx)) `sublist_of` after.
Proof.
  intros Hvalid Hfg Hchunk.
  destruct (FileGroupsWith order rs w) as [[r rs1] out0] eqn:HFG.
  simpl in Hfg. subst r.
  pose proof (RunWith_returned order schedule rs w fileGroups rs1 out0 HFG) as HRun.
  cbv zeta in HRun. eexists _, out0, _. split.
  - rewrite HRun. f_equal. by rewrite <- !(assoc_L (++)).
  - apply sublist_inserts_r, emitted_sublist.
    apply (Interleaving_sublist _ _ _ idx (Hvalid _)).
    by rewrite list_lookup_imap, Hchunk.
Qed.

Lemma RunWith_thread_order_witness :
  validSchedule (@concat Action)
  /\ (FileGroupsWith sortEntries exampleReceiver exampleWorld).1.1
     = Ok [["big"]; ["s3"; "s1"; "s2"; "empty/"]]
  /\ exists rs' before after,
      RunWith sortEntries (@concat Action) exampleReceiver exampleWorld
      = Returned rs' (before ++ [CreatingWorkers 2] ++ after)
      /\ [ThreadStarted 0 1; Forwarded "x big"; ThreadCompleted 0 1]
         `sublist_of` after.
Proof.
  assert (Hfg : (FileGroupsWith sortEntries exampleReceiver exampleWorld).1.1
                = Ok [["big"]; ["s3"; "s1"; "s2"; "empty/"]])
    by (vm_compute; reflexivity).
  split; [exact concat_valid|]. split; [exact Hfg|].
  destruct (RunWith_thread_order sortEntries (@concat Action) exampleReceiver
              exampleWorld _ 0%nat ["big"] concat_valid Hfg (reflexivity _))
    as (rs' & before & after & HRun & Hsub).
  exists rs', before, after. split; [exact HRun|exact Hsub].
Defined.
